(** * coc-tsserver: the diagnostic host and the diagnostic formatter

    A shallow embedding of [src/server/typescriptServiceClientHost.ts] and of
    [src/server/utils/formatDiagnostic.ts], and the properties of the
    diagnostic pipeline proved over it.

    Part I holds the definitions, in the order of the source; Part II the
    lemmas and theorems. *)

From Stdlib Require Import ZArith NArith List String Ascii Bool Lia DecimalString.
From stdpp Require Import gmap.
Import ListNotations.

Local Open Scope N_scope.
Local Open Scope list_scope.

(* ===================================================================== *)
(** * Part I: definitions *)
(* ===================================================================== *)

(** ** JavaScript values *)

Module JS.

(** A JavaScript string is a sequence of UTF-16 code units. *)
Abbreviation char := N (only parsing).
Abbreviation jsstring := (list N) (only parsing).

(** An ASCII literal of the source, as code units. *)
Fixpoint lit (s : string) : jsstring :=
  match s with
  | EmptyString => []
  | String a s' => N_of_ascii a :: lit s'
  end.

Definition eqb (a b : jsstring) : bool := bool_decide (a = b).

(** An integer in a template literal: its decimal digits, with a minus
    sign when it is negative. *)
Definition of_Z (z : Z) : jsstring := lit (NilZero.string_of_int (Z.to_int z)).

(** Outcome of evaluating code that may throw. *)
Inductive error := TypeError | Error (msg : jsstring).

Inductive result (A : Type) :=
| Ok (a : A)
| Throw (e : error).
Arguments Ok {A} a.
Arguments Throw {A} e.

Definition bind {A B} (m : result A) (f : A -> result B) : result B :=
  match m with
  | Ok a => f a
  | Throw e => Throw e
  end.

(** [try { body } catch { handler }] *)
Definition try_catch {A} (body : result A) (handler : error -> result A) : result A :=
  match body with
  | Ok a => Ok a
  | Throw e => handler e
  end.

(** [o.f] where [o] may be [undefined] or [null]: a TypeError when it is. *)
Definition prop {A B} (o : option A) (f : A -> B) : result B :=
  match o with
  | Some a => Ok (f a)
  | None => Throw TypeError
  end.

(** [xs.map(f)] with a callback that may throw: the first exception aborts. *)
Fixpoint mapM {A B} (f : A -> result B) (xs : list A) : result (list B) :=
  match xs with
  | [] => Ok []
  | x :: xs' =>
      bind (f x) (fun y => bind (mapM f xs') (fun ys => Ok (y :: ys)))
  end.

(** [xs.find(p)]: the first element whose predicate is truthy; an exception
    of the predicate aborts the search. *)
Fixpoint find {A} (p : A -> result bool) (xs : list A) : result (option A) :=
  match xs with
  | [] => Ok None
  | x :: xs' =>
      bind (p x) (fun b => if b then Ok (Some x) else find p xs')
  end.

(** A field of an object literal: missing, [null], or a value. *)
Inductive field (A : Type) :=
| Undefined
| Null
| Value (a : A).
Arguments Undefined {A}.
Arguments Null {A}.
Arguments Value {A} a.

(** Truthiness of an optional number: [undefined], [0] and [NaN] are falsy. *)
Definition truthy_number (c : option Z) : bool :=
  match c with
  | Some z => negb (z =? 0)%Z
  | None => false
  end.

(** Truthiness of an optional boolean flag. *)
Definition truthy_flag (b : option bool) : bool :=
  match b with
  | Some true => true
  | _ => false
  end.

(** [s.substring(start, s.length)] for a non-negative [start]. *)
Definition substring_from (start : nat) (s : jsstring) : jsstring := drop start s.

(** [s.split(sep)] for a separator of one code unit: never an empty array. *)
Fixpoint split (sep : char) (s : jsstring) : list jsstring :=
  match s with
  | [] => [[]]
  | c :: s' =>
      if c =? sep then [] :: split sep s'
      else match split sep s' with
           | [] => [[c]]
           | l :: ls => (c :: l) :: ls
           end
  end.

(** [lines.join(sep)] *)
Fixpoint join (sep : jsstring) (ls : list jsstring) : jsstring :=
  match ls with
  | [] => []
  | [l] => l
  | l :: ls' => l ++ sep ++ join sep ls'
  end.

(** [xs.map((x, index) => f(x, index))] *)
Fixpoint mapi_from {A B} (i : nat) (f : A -> nat -> B) (xs : list A) : list B :=
  match xs with
  | [] => []
  | x :: xs' => f x i :: mapi_from (S i) f xs'
  end.
Definition mapi {A B} (f : A -> nat -> B) (xs : list A) : list B := mapi_from 0 f xs.

End JS.

(** [x ← m; k] sequences two computations that may throw. *)
#[global] Instance result_bind : MBind JS.result := fun A B f m => JS.bind m f.
#[global] Instance result_ret : MRet JS.result := fun A a => JS.Ok a.

(** ** Regular expressions

    The backtracking matcher of ECMAScript, as a list of successes: the
    matches of a pattern from a position, in the order in which backtracking
    tries them.  [exec] takes the first.  The alphabet is a parameter: the
    source runs the matcher on code units. *)

Module Regex.

Section Matcher.
Context {A : Type}.

Inductive re :=
| Eps                                (* the empty pattern *)
| Class (p : A -> bool)              (* a character, a class, the dot *)
| Seq (r1 r2 : re)                   (* r1r2 *)
| Alt (r1 r2 : re)                   (* r1|r2 *)
| Star (greedy : bool) (r : re)      (* r* and r*? *)
| Group (i : nat) (r : re)           (* the i-th capturing group *)
| Bol                                (* ^ without the m flag *)
| LookBehind (r : re).               (* (?<=r) *)

(** r+, r+?, r? *)
Definition Plus (greedy : bool) (r : re) : re := Seq r (Star greedy r).
Definition Opt (r : re) : re := Alt r Eps.

(** A match state: the input before the position (nearest first), the
    input from the position on, and the captures so far. *)
Record state := mkState {
  before : list A;
  after : list A;
  caps : list (nat * list A)
}.

(** The input between two positions of one match. *)
Definition between (x y : state) : list A :=
  take (length (after x) - length (after y))%nat (after x).

Definition set_cap (i : nat) (v : list A) (y : state) : state :=
  mkState (before y) (after y) ((i, v) :: caps y).

(** The i-th capture; a group that took no part reads as the empty string. *)
Fixpoint cap_of (cs : list (nat * list A)) (i : nat) : list A :=
  match cs with
  | [] => []
  | (j, v) :: cs' => if Nat.eqb i j then v else cap_of cs' i
  end.
Definition cap (y : state) (i : nat) : list A := cap_of (caps y) i.

(** The state [k] characters back. *)
Fixpoint rewind (k : nat) (x : state) : state :=
  match k with
  | O => x
  | S k' =>
      match before x with
      | [] => x
      | c :: b => rewind k' (mkState b (c :: after x) (caps x))
      end
  end.

(** One more round of a star: the body's matches that consumed input,
    each followed by the rounds after it; before them (lazy) or after
    them (greedy) the match that stops here.  An iteration that consumes
    nothing is rejected, as RepeatMatcher does. *)
Fixpoint rounds (body : state -> list state) (greedy : bool) (n : nat)
    (x : state) : list state :=
  match n with
  | O => [x]
  | S n' =>
      let more :=
        flat_map
          (fun y =>
             if (length (after y) <? length (after x))%nat
             then rounds body greedy n' y else [])
          (body x) in
      if greedy then more ++ [x] else x :: more
  end.

Fixpoint matches (r : re) (x : state) : list state :=
  match r with
  | Eps => [x]
  | Class p =>
      match after x with
      | c :: t => if p c then [mkState (c :: before x) t (caps x)] else []
      | [] => []
      end
  | Seq r1 r2 => flat_map (matches r2) (matches r1 x)
  | Alt r1 r2 => matches r1 x ++ matches r2 x
  | Star greedy r' => rounds (matches r') greedy (length (after x)) x
  | Group i r' => map (fun y => set_cap i (between x y) y) (matches r' x)
  | Bol => match before x with [] => [x] | _ :: _ => [] end
  | LookBehind r' =>
      if existsb
           (fun k =>
              existsb
                (fun y => (length (after y) =? length (after x))%nat)
                (matches r' (rewind k x)))
           (seq 0 (S (length (before x))))
      then [x] else []
  end.

(** A lookbehind holds where its pattern matches some stretch of the input
    that ends at the position; what its groups capture is dropped, and no
    replacement of the source reads it.

    RegExpBuiltinExec at one position: the first match, captures reset. *)
Definition exec (r : re) (pre rest : list A) : option state :=
  head (matches r (mkState pre rest [])).

(** What a replacement callback sees of a match. *)
Record found := mkFound {
  matched : list A;
  groups : list (nat * list A)
}.
Definition group (m : found) (i : nat) : list A := cap_of (groups m) i.

Definition found_of (pre rest : list A) (y : state) : found :=
  mkFound (between (mkState pre rest []) y) (caps y).

(** [s.replace(/r/g, callback)], the callback threading a state of its
    own (the arrays the source's callbacks push to and shift from).
    [skip] counts the characters of the last match still to step over;
    after an empty match the position advances by one character.  The
    characters outside the matches are copied through [keep], the
    identity in the source. *)
Fixpoint replace_loop {B S : Type} (keep : A -> B) (r : re)
    (f : found -> S -> list B * S)
    (pre rest : list A) (skip : nat) (st : S) : list B * S :=
  match skip with
  | Datatypes.S k =>
      match rest with
      | [] => ([], st)
      | c :: t => replace_loop keep r f (c :: pre) t k st
      end
  | O =>
      match exec r pre rest with
      | Some y =>
          let m := found_of pre rest y in
          let '(out, st1) := f m st in
          match rest with
          | [] => (out, st1)
          | c :: t =>
              match length (matched m) with
              | O =>
                  let '(o2, st2) := replace_loop keep r f (c :: pre) t 0 st1 in
                  (out ++ keep c :: o2, st2)
              | Datatypes.S k =>
                  let '(o2, st2) := replace_loop keep r f (c :: pre) t k st1 in
                  (out ++ o2, st2)
              end
          end
      | None =>
          match rest with
          | [] => ([], st)
          | c :: t =>
              let '(o2, st1) := replace_loop keep r f (c :: pre) t 0 st in
              (keep c :: o2, st1)
          end
      end
  end.

(** Character by character: what [replace_loop] comes to for a
    pattern of one class. *)
Fixpoint replace_chars {B S : Type} (keep : A -> B) (p : A -> bool)
    (f : found -> S -> list B * S) (rest : list A) (st : S) : list B * S :=
  match rest with
  | [] => ([], st)
  | c :: t =>
      if p c then
        let '(out, st1) := f (mkFound [c] []) st in
        let '(o2, st2) := replace_chars keep p f t st1 in
        (out ++ o2, st2)
      else
        let '(o2, st1) := replace_chars keep p f t st in
        (keep c :: o2, st1)
  end.

Definition replace_all_with {S : Type} (r : re)
    (f : found -> S -> list A * S) (s : list A) (st : S) : list A * S :=
  replace_loop (fun c => c) r f [] s 0 st.

(** [s.replace(/r/g, m => f(m))] with a pure callback or a pattern. *)
Definition replace_all (r : re) (f : found -> list A) (s : list A) : list A :=
  fst (replace_all_with r (fun m (_ : unit) => (f m, tt)) s tt).

(** [s.replace(/r/, m => f(m))] without the g flag: the leftmost match only. *)
Fixpoint replace_first_loop (r : re) (f : found -> list A)
    (pre rest : list A) : list A :=
  match exec r pre rest with
  | Some y =>
      let m := found_of pre rest y in
      f m ++ drop (length (matched m)) rest
  | None =>
      match rest with
      | [] => []
      | c :: t => c :: replace_first_loop r f (c :: pre) t
      end
  end.
Definition replace_first (r : re) (f : found -> list A) (s : list A) : list A :=
  replace_first_loop r f [] s.

(** [s.match(/r/)] without the g flag: the leftmost match, if any. *)
Fixpoint search_loop (r : re) (pre rest : list A) : option found :=
  match exec r pre rest with
  | Some y => Some (found_of pre rest y)
  | None =>
      match rest with
      | [] => None
      | c :: t => search_loop r (c :: pre) t
      end
  end.
Definition search (r : re) (s : list A) : option found := search_loop r [] s.

End Matcher.
Arguments re : clear implicits.
Arguments state : clear implicits.
Arguments found : clear implicits.

(** The pattern [r] read through [h]: a character [a] is in a class
    when [h a] is. *)
Fixpoint contramap {A B : Type} (h : A -> B) (r : re B) : re A :=
  match r with
  | Eps => Eps
  | Class p => Class (fun a => p (h a))
  | Seq r1 r2 => Seq (contramap h r1) (contramap h r2)
  | Alt r1 r2 => Alt (contramap h r1) (contramap h r2)
  | Star g r' => Star g (contramap h r')
  | Group i r' => Group i (contramap h r')
  | Bol => Bol
  | LookBehind r' => LookBehind (contramap h r')
  end.

Definition map_caps {A B : Type} (h : A -> B) (cs : list (nat * list A))
    : list (nat * list B) :=
  map (fun p => (fst p, map h (snd p))) cs.

Definition map_state {A B : Type} (h : A -> B) (x : state A) : state B :=
  mkState (map h (before x)) (map h (after x)) (map_caps h (caps x)).

Definition map_found {A B : Type} (h : A -> B) (m : found A) : found B :=
  mkFound (map h (matched m)) (map_caps h (groups m)).

(** [y] is [x] some characters further on. *)
Definition extends {A : Type} (x y : state A) : Prop :=
  exists m, after x = m ++ after y /\ before y = rev m ++ before x.

(** Two states with the same input ahead and the same captures. *)
Definition same_ahead {A : Type} (x x' : state A) : Prop :=
  after x = after x' /\ caps x = caps x'.

(** A pattern whose matches do not look at the input before them. *)
Fixpoint forward {A : Type} (r : re A) : bool :=
  match r with
  | Eps | Class _ => true
  | Seq r1 r2 | Alt r1 r2 => forward r1 && forward r2
  | Star _ r' | Group _ r' => forward r'
  | Bol | LookBehind _ => false
  end.

(** The leftmost match of [r] in [pre ++ m ++ post] is [m], found at [y]:
    no match starts within [pre], and one starts right after it.  Meant for
    patterns that do not look back, whose matches do not depend on [pre]. *)
Definition leftmost {A : Type} (r : re A) (pre m post : list A) (y : state A)
    : Prop :=
  (forall p1 c p2, pre = p1 ++ c :: p2 ->
     exec r [] (c :: p2 ++ m ++ post) = None)
  /\ exec r [] (m ++ post) = Some y
  /\ matched (found_of [] (m ++ post) y) = m
  /\ m <> [].

(** A literal string, character by character. *)
Fixpoint Lit (s : JS.jsstring) : re JS.char :=
  match s with
  | [] => Eps
  | [c] => Class (N.eqb c)
  | c :: s' => Seq (Class (N.eqb c)) (Lit s')
  end.

(** Line terminators, which the dot does not match. *)
Definition is_line_terminator (c : JS.char) : bool :=
  (c =? 10) || (c =? 13) || (c =? 8232) || (c =? 8233).

(** [\s]: white space and line terminators. *)
Definition is_space (c : JS.char) : bool :=
  (c =? 9) || (c =? 10) || (c =? 11) || (c =? 12) || (c =? 13) || (c =? 32)
  || (c =? 160) || (c =? 5760) || ((8192 <=? c) && (c <=? 8202))
  || (c =? 8232) || (c =? 8233) || (c =? 8239) || (c =? 8287)
  || (c =? 12288) || (c =? 65279).

Definition Dot : re JS.char := Class (fun c => negb (is_line_terminator c)).

End Regex.

(** ** The types of the editor protocol (coc.nvim) *)

Module Lsp.

Inductive DiagnosticSeverity := Error | Warning | Information | Hint.

Inductive DiagnosticTag := Unnecessary | Deprecated.

Record Position := mkPosition { line : Z; character : Z }.

Record Range := mkRange { start : Position; end_ : Position }.

(** The largest [uinteger] of the protocol, 2^31 - 1. *)
Definition uinteger_MAX_VALUE : Z := 2147483647.

(** [Is.uinteger(value)] on a number. *)
Definition is_uinteger (value : Z) : bool :=
  ((0 <=? value) && (value <=? uinteger_MAX_VALUE))%Z.

(** [Range.create(startLine, startCharacter, endLine, endCharacter)] of
    vscode-languageserver-types, which coc.nvim hands on: four numbers
    that are not all of them [uinteger]s are rejected with an exception. *)
Definition Range_create (one two three four : Z) : JS.result Range :=
  if is_uinteger one && is_uinteger two && is_uinteger three && is_uinteger four
  then JS.Ok (mkRange (mkPosition one two) (mkPosition three four))
  else
    JS.Throw
      (JS.Error
         (JS.lit "Range#create called with invalid arguments["
          ++ JS.of_Z one ++ JS.lit ", " ++ JS.of_Z two ++ JS.lit ", "
          ++ JS.of_Z three ++ JS.lit ", " ++ JS.of_Z four ++ JS.lit "]")).

Record Location := mkLocation { uri : JS.jsstring; range : Range }.

Record DiagnosticRelatedInformation := mkRelated {
  location : Location;
  rmessage : JS.jsstring
}.

(** A diagnostic as the host hands it to a language provider: the fields
    of [Diagnostic], the two [report...] fields the host adds, and the
    [filetype] the formatter adds. *)
Record Diagnostic := mkDiagnostic {
  drange : Range;
  tags : option (list DiagnosticTag);
  message : JS.jsstring;
  code : JS.field Z;
  severity : option DiagnosticSeverity;
  reportDeprecated : option bool;
  reportUnnecessary : option bool;
  source : option JS.jsstring;
  relatedInformation : option (list DiagnosticRelatedInformation);
  filetype : option JS.jsstring
}.

(** [Diagnostic.create(range, message, severity, code)] *)
Definition Diagnostic_create (r : Range) (msg : JS.jsstring)
    (sev : DiagnosticSeverity) (c : option Z) : Diagnostic :=
  mkDiagnostic r None msg
    (match c with Some z => JS.Value z | None => JS.Undefined end)
    (Some sev) None None None None None.

End Lsp.

(** ** The types of the backend protocol (tsserver) *)

Module Proto.

(** A one-based position of the backend. *)
Record Location := mkLocation { line : Z; offset : Z }.

Record FileSpan := mkFileSpan {
  file : JS.jsstring;
  span_start : Location;
  span_end : Location
}.

Record DiagnosticRelatedInformation := mkRelated {
  span : FileSpan;
  rmessage : JS.jsstring
}.

(** [start] and [end] are optional here because the host itself tests
    them for absence. *)
Record Diagnostic := mkDiagnostic {
  start : option Location;
  end_ : option Location;
  text : JS.jsstring;
  category : JS.jsstring;
  code : option Z;
  source : option JS.jsstring;
  reportsUnnecessary : option bool;
  reportsDeprecated : option bool;
  relatedInformation : option (list DiagnosticRelatedInformation)
}.

End Proto.

(** Modelled from the spec: the categories of [protocol.const], which is not
    among the sources; the spec names them error, warning, suggestion and
    message. *)
Module PConst.
Module DiagnosticCategory.
Definition error : JS.jsstring := JS.lit "error".
Definition warning : JS.jsstring := JS.lit "warning".
Definition suggestion : JS.jsstring := JS.lit "suggestion".
Definition message : JS.jsstring := JS.lit "message".
End DiagnosticCategory.
End PConst.

(** ** utils/formatDiagnostic.ts *)

Module FormatDiagnostic.
Import Regex.

(** Code units the source spells with escapes or literally. *)
Definition NUL : JS.char := 0.
Definition ESC : JS.char := 27.
Definition LF : JS.char := 10.
Definition backtick : JS.char := 96.
Definition lt : JS.char := 60.
Definition gt : JS.char := 62.
Definition backslash : JS.char := 92.
Definition quote : JS.char := 39.
Definition space : JS.char := 32.

(** The icons, as the code units the source file holds between the
    delimiters of its patterns. *)
Definition icon_file : JS.jsstring := [287; 376; 8220; 8222].
Definition icon_link : JS.jsstring := [287; 376; 8221; 8212].
Definition icon_globe : JS.jsstring := [287; 376; 338].

Definition fence : JS.jsstring := JS.lit "```".

(** [/```[\s\S]*?```/g] *)
Definition codeBlockRegex : re JS.char :=
  Seq (Lit fence)
    (Seq (Star false (Class (fun c => is_space c || negb (is_space c))))
         (Lit fence)).

(** [/`([^`]+)`/g] *)
Definition backtickRegex : re JS.char :=
  Seq (Class (N.eqb backtick))
    (Seq (Group 1 (Plus true (Class (fun c => negb (c =? backtick)))))
         (Class (N.eqb backtick))).

(** [/</g], [/>/g] and [/\0/g] *)
Definition ltRegex : re JS.char := Class (N.eqb lt).
Definition gtRegex : re JS.char := Class (N.eqb gt).
Definition nulRegex : re JS.char := Class (N.eqb NUL).

(** The replacement pattern [\u001b[1;34m$1\u001b[0m]. *)
Definition highlight (m : found JS.char) : JS.jsstring :=
  ESC :: JS.lit "[1;34m" ++ group m 1 ++ ESC :: JS.lit "[0m".

(** [codeBlocks.shift()], or the empty string when that is falsy *)
Definition shift_or_empty (codeBlocks : list JS.jsstring)
    : JS.jsstring * list JS.jsstring :=
  match codeBlocks with
  | [] => ([], [])
  | b :: bs => (b, bs)
  end.

(** Replace backticks in text, but not in code blocks *)
Definition replaceBackticksExceptCodeBlocks (text : JS.jsstring) : JS.jsstring :=
  let '(textWithPlaceholders, codeBlocks) :=
    replace_all_with codeBlockRegex
      (fun m codeBlocks => ([NUL], codeBlocks ++ [matched m])) text [] in
  let replacedText :=
    replace_all backtickRegex highlight
      (replace_all gtRegex (fun _ => [backslash; gt])
         (replace_all ltRegex (fun _ => [backslash; lt])
            textWithPlaceholders)) in
  let finalText :=
    fst (replace_all_with nulRegex (fun _ codeBlocks => shift_or_empty codeBlocks)
           replacedText codeBlocks) in
  finalText.

Definition error (str : JS.jsstring) : JS.jsstring :=
  ESC :: JS.lit "[1;31m" ++ str ++ ESC :: JS.lit "[0m".

Definition warning (str : JS.jsstring) : JS.jsstring :=
  ESC :: JS.lit "[1;32m" ++ str ++ ESC :: JS.lit "[0m".

Definition info (str : JS.jsstring) : JS.jsstring :=
  ESC :: JS.lit "[1;36m" ++ str ++ ESC :: JS.lit "[0m".

Definition renderType (s : Lsp.DiagnosticSeverity) : JS.jsstring -> JS.jsstring :=
  match s with
  | Lsp.Error => error
  | Lsp.Warning => warning
  | Lsp.Information => info
  | Lsp.Hint => info
  end.

Inductive highlightType := prettytserr | typescript.

Record formatOptions := mkOptions {
  showLink : bool;
  codeBlockHighlightType : highlightType
}.

(** [/(\['?)([^' ]+)('?.+?<icon_file>\])/g] *)
Definition fileLinkRegex : re JS.char :=
  Seq (Group 1 (Seq (Class (N.eqb 91)) (Opt (Class (N.eqb quote)))))
    (Seq (Group 2 (Plus true
                     (Class (fun c => negb ((c =? quote) || (c =? space))))))
         (Group 3 (Seq (Opt (Class (N.eqb quote)))
                     (Seq (Plus false Dot)
                          (Seq (Lit icon_file) (Class (N.eqb 93))))))).

(** [/\[(<icon_link>|<icon_globe>)\]\(.*\)/g] *)
Definition iconLinkRegex : re JS.char :=
  Seq (Class (N.eqb 91))
    (Seq (Group 1 (Alt (Lit icon_link) (Lit icon_globe)))
       (Seq (Class (N.eqb 93))
          (Seq (Class (N.eqb 40))
             (Seq (Star true Dot) (Class (N.eqb 41)))))).

(** [/(?<=(^W```))typescript/], where [W] stands for [\s*] *)
Definition fenceTagRegex : re JS.char :=
  Seq (LookBehind (Group 1 (Seq Bol (Seq (Star true (Class is_space)) (Lit fence)))))
      (Lit (JS.lit "typescript")).

(** [/^(W)```typescript.*/], where [W] stands for [\s*] *)
Definition fenceLineRegex : re JS.char :=
  Seq Bol
    (Seq (Group 1 (Star true (Class is_space)))
       (Seq (Lit (JS.lit "```typescript")) (Star true Dot))).

(** The first step of the callback of [format]'s line map: the severity
    colour on the first line. *)
Definition colorFirstLine (sev : option Lsp.DiagnosticSeverity)
    (line : JS.jsstring) (index : nat) : JS.jsstring :=
  if Nat.eqb index 0
  then renderType (default Lsp.Error sev) (JS.substring_from 3 line)
  else line.

(** The replacements [format] applies to every line after that. *)
Definition collapseFileLink (line : JS.jsstring) : JS.jsstring :=
  replace_all fileLinkRegex
    (fun m => 91 :: group m 2 ++ space :: icon_file ++ [93]) line.

Definition stripIconLink (opt : formatOptions) (line : JS.jsstring) : JS.jsstring :=
  if negb (showLink opt)
  then replace_all iconLinkRegex (fun _ => []) line
  else line.

Definition retagFence (opt : formatOptions) (line : JS.jsstring) : JS.jsstring :=
  match codeBlockHighlightType opt with
  | prettytserr =>
      replace_first fenceTagRegex (fun _ => JS.lit "prettytserr") line
  | typescript =>
      let spaceCount :=
        match search fenceLineRegex line with
        | Some m => length (group m 1)
        | None => O
        end in
      replace_first fenceTagRegex
        (fun _ => JS.lit "typescript" ++ LF :: repeat space spaceCount
                    ++ JS.lit "type Type =")
        line
  end.

Definition finishLine (opt : formatOptions) (line : JS.jsstring) : JS.jsstring :=
  retagFence opt (stripIconLink opt (collapseFileLink line)).

(** The callback of [format]'s line map. *)
Definition formatLine (opt : formatOptions) (sev : option Lsp.DiagnosticSeverity)
    (line : JS.jsstring) (index : nat) : JS.jsstring :=
  finishLine opt (colorFirstLine sev line index).

(** The markdown renderer of [pretty-ts-errors-markdown], a library. *)
Class Markdown := {
  formatDiagnosticIntoMarkdown : Lsp.Diagnostic -> JS.jsstring
}.

Section Format.
Context `{Markdown}.

Definition formatted (opt : formatOptions) (diagnostic : Lsp.Diagnostic) : JS.jsstring :=
  JS.join [LF]
    (JS.mapi (formatLine opt (Lsp.severity diagnostic))
       (JS.split LF
          (replaceBackticksExceptCodeBlocks
             (formatDiagnosticIntoMarkdown diagnostic)))).

Definition format (_diagnostics : list Lsp.Diagnostic) (opt : formatOptions)
    : list Lsp.Diagnostic :=
  map
    (fun diagnostic =>
       Lsp.mkDiagnostic
         (Lsp.drange diagnostic)
         (Lsp.tags diagnostic)
         (formatted opt diagnostic ++ [LF; LF])
         (Lsp.code diagnostic)
         (Lsp.severity diagnostic)
         (Lsp.reportDeprecated diagnostic)
         (Lsp.reportUnnecessary diagnostic)
         (Lsp.source diagnostic)
         (Lsp.relatedInformation diagnostic)
         (Some (JS.lit "markdown")))
    _diagnostics.

Definition formatDiagnostic (diagnostics : list Lsp.Diagnostic) : list Lsp.Diagnostic :=
  format diagnostics (mkOptions false prettytserr).

End Format.

End FormatDiagnostic.

(** ** What the escaping step is to compute

    The text as a sequence of tokens: a fenced block is one token, any
    other code unit is a token of its own.  The escaping and the
    recolouring are stated on tokens, where a block cannot be taken apart. *)

Module Tokens.
Import Regex FormatDiagnostic.

Inductive token :=
| Chr (c : JS.char)
| Block (b : JS.jsstring).

(** The text a token sequence stands for: a block verbatim. *)
Definition render (toks : list token) : JS.jsstring :=
  flat_map (fun t => match t with Chr c => [c] | Block b => b end) toks.

Definition blocks_of (toks : list token) : list JS.jsstring :=
  flat_map (fun t => match t with Chr _ => [] | Block b => [b] end) toks.

(** The code unit a token is read as by a pattern: a block reads as the
    placeholder, which is no backtick and no angle bracket. *)
Definition encode (t : token) : JS.char :=
  match t with
  | Chr c => c
  | Block _ => NUL
  end.

(** What the first replacement of the step makes of a text: each match
    of [codeBlockRegex] one block, the characters between the matches
    kept. That these are the fenced blocks of the text is proved, not
    assumed: see [Fenced.parts]. *)
Definition tokens (text : JS.jsstring) : list token :=
  fst (replace_loop Chr codeBlockRegex
         (fun m (_ : unit) => ([Block (matched m)], tt)) [] text 0 tt).

(** Outside the blocks, a backslash before each angle bracket. *)
Definition escapeAngle (t : token) : list token :=
  match t with
  | Chr c =>
      if c =? lt then [Chr backslash; Chr lt]
      else if c =? gt then [Chr backslash; Chr gt]
      else [t]
  | Block _ => [t]
  end.
Definition escapeAngles (toks : list token) : list token :=
  flat_map escapeAngle toks.

(** A backtick, one or more tokens that are not backticks, a backtick. *)
Definition is_backtick (t : token) : bool := backtick =? encode t.

Definition spanRegex : re token :=
  Seq (Class is_backtick)
    (Seq (Group 1 (Plus true (Class (fun t => negb (encode t =? backtick)))))
         (Class is_backtick)).

(** The span without its backticks, between the two halves of the marker. *)
Definition highlightSpan (m : found token) : list token :=
  map Chr (ESC :: JS.lit "[1;34m") ++ group m 1 ++ map Chr (ESC :: JS.lit "[0m").

Definition recolor (toks : list token) : list token :=
  replace_all spanRegex highlightSpan toks.

(** One mark for each token that is the placeholder character itself. *)
Definition placeholder_mark (t : token) : list unit :=
  match t with
  | Chr c => if c =? NUL then [tt] else []
  | Block _ => []
  end.

(** The text with the placeholder character before a fenced block. *)
Definition nul_before_block : JS.jsstring := NUL :: JS.lit " ```a```".

(** The step as the code runs it, with tokens for its placeholders. *)
Definition escaped (text : JS.jsstring) : JS.jsstring :=
  render (recolor (escapeAngles (tokens text))).

End Tokens.

(** ** The escaping step in the spec's words *)

Module Fenced.
Import FormatDiagnostic Tokens.

(** The text after three backticks, when the text opens with them. *)
Definition after_fence (s : JS.jsstring) : option JS.jsstring :=
  match s with
  | a :: b :: c :: rest =>
      if (a =? backtick) && (b =? backtick) && (c =? backtick)
      then Some rest else None
  | _ => None
  end.

(** The text up to the next three backticks, and the text after them. *)
Fixpoint until_fence (s : JS.jsstring) : option (JS.jsstring * JS.jsstring) :=
  match after_fence s with
  | Some rest => Some ([], rest)
  | None =>
      match s with
      | [] => None
      | c :: t =>
          match until_fence t with
          | Some (body, rest) => Some (c :: body, rest)
          | None => None
          end
      end
  end.

(** The fenced block a text opens with: three backticks, the text up to
    the next three backticks, and those; with it, the text after the
    block. *)
Definition opening_block (s : JS.jsstring) : option (JS.jsstring * JS.jsstring) :=
  match after_fence s with
  | Some s' =>
      match until_fence s' with
      | Some (body, rest) => Some (fence ++ body ++ fence, rest)
      | None => None
      end
  | None => None
  end.

(** A text read from left to right: a fenced block where one opens, and
    then the text after it; one character where none opens. *)
Fixpoint parts_within (n : nat) (s : JS.jsstring) : list token :=
  match n with
  | O => []
  | S n' =>
      match s with
      | [] => []
      | c :: t =>
          match opening_block s with
          | Some (block, rest) => Block block :: parts_within n' rest
          | None => Chr c :: parts_within n' t
          end
      end
  end.

(** A text has no more parts than characters. *)
Definition parts (s : JS.jsstring) : list token := parts_within (length s) s.

(** A single backtick outside the fenced blocks. *)
Definition is_tick (t : token) : bool :=
  match t with
  | Chr c => c =? backtick
  | Block _ => false
  end.

(** The tokens up to the next backtick, and the tokens from it on. *)
Fixpoint until_tick (toks : list token) : list token * list token :=
  match toks with
  | [] => ([], [])
  | t :: rest =>
      if is_tick t then ([], toks)
      else let '(g, r) := until_tick rest in (t :: g, r)
  end.

(** The span a token sequence opens with: a backtick, one token or more
    up to the next backtick, and that backtick; what the span holds, and
    the tokens after it. *)
Definition opening_span (toks : list token) : option (list token * list token) :=
  match toks with
  | t :: rest =>
      if is_tick t then
        match until_tick rest with
        | ((_ :: _) as g, _ :: rest') => Some (g, rest')
        | _ => None
        end
      else None
  | [] => None
  end.

(** The two halves of the highlight marker. *)
Definition marker_open : list token := map Chr (ESC :: JS.lit "[1;34m").
Definition marker_close : list token := map Chr (ESC :: JS.lit "[0m").

(** The tokens read from left to right: where a span opens, what it
    holds between the halves of the marker, and then the tokens after
    it; one token where none opens. *)
Fixpoint highlight_within (n : nat) (toks : list token) : list token :=
  match n with
  | O => []
  | S n' =>
      match toks with
      | [] => []
      | t :: rest =>
          match opening_span toks with
          | Some (g, rest') =>
              marker_open ++ g ++ marker_close ++ highlight_within n' rest'
          | None => t :: highlight_within n' rest
          end
      end
  end.

Definition highlightSpans (toks : list token) : list token :=
  highlight_within (length toks) toks.

(** The escaping step: the fenced blocks held apart, the angle brackets
    outside them escaped, the spans highlighted, the blocks back in
    their places. *)
Definition escaped (text : JS.jsstring) : JS.jsstring :=
  render (highlightSpans (escapeAngles (parts text))).

End Fenced.

(** ** The link markup the line replacements act on *)

Module Links.
Import FormatDiagnostic.

Definition quoted (q : bool) : JS.jsstring := if q then [quote] else [].

(** A character a file name may hold: no quote and no space. *)
Definition is_name_char (c : JS.char) : bool :=
  negb ((c =? quote) || (c =? space)).

(** An opening bracket, a file name with or without a quote on either
    side, the rest of the link, the file icon, a closing bracket. *)
Definition fileLink (q1 : bool) (name : JS.jsstring) (q2 : bool)
    (link : JS.jsstring) : JS.jsstring :=
  91 :: quoted q1 ++ name ++ quoted q2 ++ link ++ icon_file ++ [93].

(** The file name and the icon alone. *)
Definition nameAndIcon (name : JS.jsstring) : JS.jsstring :=
  91 :: name ++ space :: icon_file ++ [93].

(** A hyperlink whose text is an icon alone: the icon in brackets, the
    target in parentheses. *)
Definition iconLink (icon target : JS.jsstring) : JS.jsstring :=
  91 :: icon ++ 93 :: 40 :: target ++ [41].


End Links.

(** ** The timers of the runtime

    [setTimeout] and [clearTimeout] over a virtual clock in milliseconds.  A
    pending timer is its handle and the time it is due; the host arms one
    callback only, so the callback is not stored. *)

Module Timers.

Record t := mk {
  now : N;
  next_handle : N;
  pending : list (N * N)
}.

Definition setTimeout (delay : N) (r : t) : N * t :=
  (next_handle r,
   mk (now r) (next_handle r + 1) (pending r ++ [(next_handle r, now r + delay)])).

Definition clearTimeout (handle : N) (r : t) : t :=
  mk (now r) (next_handle r)
     (List.filter (fun p => negb (fst p =? handle)) (pending r)).

(** The clock moves on by [dt]: the timers due by then, oldest first, and
    the runtime without them. *)
Definition due (dt : N) (r : t) : list (N * N) :=
  List.filter (fun p => snd p <=? now r + dt) (pending r).

Definition elapse (dt : N) (r : t) : t :=
  mk (now r + dt) (next_handle r)
     (List.filter (fun p => negb (snd p <=? now r + dt)) (pending r)).

End Timers.

(** ** server/typescriptServiceClientHost.ts *)

Module Host.

(** The code sets of [utils/errorCodes], which is not among the sources. *)
Class ErrorCodes := {
  variableDeclaredButNeverUsed : list Z;
  propertyDeclaretedButNeverUsed : list Z;
  allImportsAreUnused : list Z;
  unreachableCode : list Z;
  unusedLabel : list Z;
  fallThroughCaseInSwitch : list Z;
  notAllCodePathsReturnAValue : list Z
}.

(** Style check diagnostics that can be reported as warnings *)
Definition styleCheckDiagnostics `{ErrorCodes} : gset Z :=
  list_to_set
    (variableDeclaredButNeverUsed ++ propertyDeclaretedButNeverUsed
     ++ allImportsAreUnused ++ unreachableCode ++ unusedLabel
     ++ fallThroughCaseInSwitch ++ notAllCodePathsReturnAValue).

Record Document (TextDocument : Type) := mkDocument {
  textDocument : TextDocument
}.
Arguments textDocument {TextDocument} d.

(** What the host calls of the service client, of [utils/typeConverters],
    of [Uri] and of the markdown formatter; any of the calls may throw. *)
Class Collaborators := {
  TextDocument : Type;
  Uri : Type;
  DiagnosticKind : Type;
  getDocument : JS.jsstring -> JS.result (option (Document TextDocument));
  toResource : JS.jsstring -> JS.result JS.jsstring;
  Uri_parse : JS.jsstring -> JS.result Uri;
  Position_fromLocation : option Proto.Location -> JS.result Lsp.Position;
  Location_fromTextSpan : JS.jsstring -> Proto.FileSpan -> JS.result Lsp.Location;
  markdown :: FormatDiagnostic.Markdown
}.

Section WithCollaborators.
Context `{ErrorCodes} `{Collaborators}.

(** The methods of a [LanguageProvider] the host calls. *)
Record LanguageProvider := mkProvider {
  handles : JS.jsstring -> TextDocument -> JS.result bool;
  handlesUri : Uri -> JS.result bool;
  provider_diagnosticsReceived :
    DiagnosticKind -> JS.jsstring -> list Lsp.Diagnostic -> JS.result unit
}.

(** What the host does to its collaborators, in order. *)
Inductive effect :=
| ReInitialize
    (* client.diagnosticsManager.reInitialize() *)
| Execute (command : JS.jsstring)
    (* client.execute(command, null, CancellationToken.None) *)
| TriggerAllDiagnostics (languages : list JS.jsstring)
    (* one run of this.triggerAllDiagnostics(): the ids of the providers
       whose triggerAllDiagnostics() it called *)
| DiagnosticsReceived (language : JS.jsstring) (kind : DiagnosticKind)
    (resource : JS.jsstring) (diagnostics : list Lsp.Diagnostic).
    (* language.diagnosticsReceived(kind, resource, diagnostics) *)

(** The fields of the host, the [timer] variable of its constructor, the
    runtime's timers and the effects so far, each with its time. *)
Record host := mkHost {
  languagePerId : list (JS.jsstring * LanguageProvider);
  reportStyleCheckAsWarnings : bool;
  timer : option N;
  runtime : Timers.t;
  trace : list (N * effect)
}.

Definition emit (e : effect) (h : host) : host :=
  mkHost (languagePerId h) (reportStyleCheckAsWarnings h) (timer h)
    (runtime h) (trace h ++ [(Timers.now (runtime h), e)]).

Definition triggerAllDiagnostics (h : host) : host :=
  emit (TriggerAllDiagnostics (map fst (languagePerId h))) h.

Definition reloadProjects (h : host) : host :=
  triggerAllDiagnostics
    (emit (Execute (JS.lit "reloadProjects")) (emit ReInitialize h)).

(** [handleProjectChange], the closure of the constructor. *)
Definition handleProjectChange (h : host) : host :=
  let rt :=
    match timer h with
    | Some handle => Timers.clearTimeout handle (runtime h)
    | None => runtime h
    end in
  let '(handle, rt') := Timers.setTimeout 1500 rt in
  mkHost (languagePerId h) (reportStyleCheckAsWarnings h) (Some handle)
    rt' (trace h).

(** The watchers of the constructor and the listeners it registers. *)
Inductive watcher := configFileWatcher | packageFileWatcher.
Inductive fileEvent := onDidCreate | onDidDelete | onDidChange.

Definition listeners (w : watcher) (e : fileEvent) : list (host -> host) :=
  match w, e with
  | configFileWatcher, onDidCreate => [reloadProjects]
  | configFileWatcher, onDidDelete => [reloadProjects]
  | configFileWatcher, onDidChange => [handleProjectChange]
  | packageFileWatcher, onDidCreate => [reloadProjects]
  | packageFileWatcher, onDidChange => [handleProjectChange]
  | packageFileWatcher, onDidDelete => []
  end.

(** What happens to the host. *)
Inductive event :=
| Fire (w : watcher) (e : fileEvent)   (* a watcher reports a file event *)
| Elapse (dt : N).                     (* [dt] milliseconds pass *)

(** A timer that is due runs its callback at the time it was due. *)
Definition expire (h : host) (p : N * N) : host :=
  mkHost (languagePerId h) (reportStyleCheckAsWarnings h) (timer h)
    (runtime h)
    (trace h ++ [(snd p, TriggerAllDiagnostics (map fst (languagePerId h)))]).

Definition step (h : host) (ev : event) : host :=
  match ev with
  | Fire w e => fold_left (fun h' l => l h') (listeners w e) h
  | Elapse dt =>
      let h' := fold_left expire (Timers.due dt (runtime h)) h in
      mkHost (languagePerId h') (reportStyleCheckAsWarnings h') (timer h')
        (Timers.elapse dt (runtime h)) (trace h')
  end.

Definition run (h : host) (evs : list event) : host := fold_left step evs h.

(** The callback the constructor gives to [onConfigDiagnosticsReceived]
    maps over the diagnostics of a config file: the range of one. *)
Definition configDiagnosticRange (diag : Proto.Diagnostic) : JS.result Lsp.Range :=
  let start := Proto.start diag in
  let end_ := Proto.end_ diag in
  if negb (bool_decide (is_Some start)) || negb (bool_decide (is_Some end_))
  then Lsp.Range_create 0 0 0 1
  else
    sl ← JS.prop start Proto.line;
    so ← JS.prop start Proto.offset;
    el ← JS.prop end_ Proto.line;
    eo ← JS.prop end_ Proto.offset;
    Lsp.Range_create (sl - 1) (so - 1) (el - 1) (eo - 1)%Z.

Definition isStyleCheckDiagnostic (code : option Z) : bool :=
  match code with
  | Some c => bool_decide (c ∈ styleCheckDiagnostics)
  | None => false
  end.

Definition getDiagnosticSeverity (reportStyleCheckAsWarnings : bool)
    (diagnostic : Proto.Diagnostic) : Lsp.DiagnosticSeverity :=
  if reportStyleCheckAsWarnings
     && isStyleCheckDiagnostic (Proto.code diagnostic)
     && JS.eqb (Proto.category diagnostic) PConst.DiagnosticCategory.error
  then Lsp.Warning
  else if JS.eqb (Proto.category diagnostic) PConst.DiagnosticCategory.error
  then Lsp.Error
  else if JS.eqb (Proto.category diagnostic) PConst.DiagnosticCategory.warning
  then Lsp.Warning
  else if JS.eqb (Proto.category diagnostic) PConst.DiagnosticCategory.suggestion
  then Lsp.Hint
  else Lsp.Error.

Definition configDiagnostic (flag : bool) (diag : Proto.Diagnostic)
    : JS.result Lsp.Diagnostic :=
  range ← configDiagnosticRange diag;
  let severity := getDiagnosticSeverity flag diag in
  JS.Ok (Lsp.Diagnostic_create range (Proto.text diag) severity (Proto.code diag)).

(** The tags of a backend diagnostic: pushed in this order, and
    [undefined] instead of an empty array. *)
Definition tagsOf (diagnostic : Proto.Diagnostic) : option (list Lsp.DiagnosticTag) :=
  let tags := [] in
  let tags :=
    if JS.truthy_flag (Proto.reportsUnnecessary diagnostic)
    then tags ++ [Lsp.Unnecessary] else tags in
  let tags :=
    if JS.truthy_flag (Proto.reportsDeprecated diagnostic)
    then tags ++ [Lsp.Deprecated] else tags in
  match length tags with
  | O => None
  | S _ => Some tags
  end.

(** The range of a backend diagnostic, through [typeConverters]. *)
Definition rangeOf (diagnostic : Proto.Diagnostic) : JS.result Lsp.Range :=
  start ← Position_fromLocation (Proto.start diagnostic);
  end_ ← Position_fromLocation (Proto.end_ diagnostic);
  JS.Ok (Lsp.mkRange start end_).

(** Its related information, left [undefined] when it has none. *)
Definition relatedInformationOf (diagnostic : Proto.Diagnostic)
    : JS.result (option (list Lsp.DiagnosticRelatedInformation)) :=
  match Proto.relatedInformation diagnostic with
  | Some infos =>
      mapped ←
        JS.mapM
          (fun o =>
             resource ← toResource (Proto.file (Proto.span o));
             location ← Location_fromTextSpan resource (Proto.span o);
             JS.Ok (Lsp.mkRelated location (Proto.rmessage o)))
          infos;
      JS.Ok (Some mapped)
  | None => JS.Ok None
  end.

Definition tsDiagnosticToLspDiagnostic (flag : bool)
    (diagnostic : Proto.Diagnostic) : JS.result Lsp.Diagnostic :=
  range ← rangeOf diagnostic;
  relatedInformation ← relatedInformationOf diagnostic;
  let tags := tagsOf diagnostic in
  JS.Ok
    (Lsp.mkDiagnostic
       range
       tags
       (Proto.text diagnostic)
       (if JS.truthy_number (Proto.code diagnostic)
        then match Proto.code diagnostic with
             | Some c => JS.Value c
             | None => JS.Undefined
             end
        else JS.Null)
       (Some (getDiagnosticSeverity flag diagnostic))
       (Proto.reportsDeprecated diagnostic)
       (Proto.reportsUnnecessary diagnostic)
       (Proto.source diagnostic)
       relatedInformation
       None).

Definition createMarkerData (flag : bool) (diagnostics : list Proto.Diagnostic)
    : JS.result (list Lsp.Diagnostic) :=
  ds ← JS.mapM (tsDiagnosticToLspDiagnostic flag) diagnostics;
  JS.Ok (FormatDiagnostic.formatDiagnostic ds).

(** The body of the [try] of [findLanguage]. *)
Definition lookupLanguage (h : host) (uri : JS.jsstring)
    : JS.result (option (JS.jsstring * LanguageProvider)) :=
  doc ← getDocument uri;
  let languages := languagePerId h in
  match doc with
  | Some doc =>
      JS.find (fun language => handles (snd language) uri (textDocument doc))
        languages
  | None =>
      JS.find
        (fun language => u ← Uri_parse uri; handlesUri (snd language) u)
        languages
  end.

Definition findLanguage (h : host) (uri : JS.jsstring)
    : JS.result (option (JS.jsstring * LanguageProvider)) :=
  JS.try_catch (lookupLanguage h uri) (fun _ => JS.Ok None).

(** [diagnosticsReceived]: the outcome of the promise, and the host
    after it. *)
Definition diagnosticsReceived (h : host) (kind : DiagnosticKind)
    (resource : JS.jsstring) (diagnostics : list Proto.Diagnostic)
    : JS.result unit * host :=
  match findLanguage h resource with
  | JS.Throw e => (JS.Throw e, h)
  | JS.Ok None => (JS.Ok tt, h)
  | JS.Ok (Some language) =>
      match createMarkerData (reportStyleCheckAsWarnings h) diagnostics with
      | JS.Throw e => (JS.Throw e, h)
      | JS.Ok markers =>
          (provider_diagnosticsReceived (snd language) kind resource markers,
           emit (DiagnosticsReceived (fst language) kind resource markers) h)
      end
  end.

End WithCollaborators.

End Host.

(** ** Sample collaborators

    The code sets as the repository's [utils/errorCodes] lists them, and
    collaborators small enough to run the host on concrete inputs. *)

Module Sample.
Import Host.

Definition codes : ErrorCodes := {|
  variableDeclaredButNeverUsed := [6196; 6133]%Z;
  propertyDeclaretedButNeverUsed := [6138]%Z;
  allImportsAreUnused := [6192]%Z;
  unreachableCode := [7027]%Z;
  unusedLabel := [7028]%Z;
  fallThroughCaseInSwitch := [7029]%Z;
  notAllCodePathsReturnAValue := [7030]%Z
|}.

(** A converter that subtracts one from each coordinate and throws on a
    missing location. *)
Definition fromLocation (l : option Proto.Location) : JS.result Lsp.Position :=
  line ← JS.prop l Proto.line;
  offset ← JS.prop l Proto.offset;
  JS.Ok (Lsp.mkPosition (line - 1) (offset - 1))%Z.

Definition fromTextSpan (resource : JS.jsstring) (span : Proto.FileSpan)
    : JS.result Lsp.Location :=
  start ← fromLocation (Some (Proto.span_start span));
  end_ ← fromLocation (Some (Proto.span_end span));
  JS.Ok (Lsp.mkLocation resource (Lsp.mkRange start end_)).

(** No document is open; [Uri.parse] throws when [broken]. *)
Definition collaborators (broken : bool) : Collaborators := {|
  TextDocument := unit;
  Uri := JS.jsstring;
  DiagnosticKind := nat;
  getDocument := fun _ => JS.Ok None;
  toResource := fun file => JS.Ok file;
  Uri_parse := fun uri => if broken then JS.Throw JS.TypeError else JS.Ok uri;
  Position_fromLocation := fromLocation;
  Location_fromTextSpan := fromTextSpan;
  markdown := {| FormatDiagnostic.formatDiagnosticIntoMarkdown := Lsp.message |}
|}.

(** A provider that claims the files whose name ends in [.ts]. *)
Definition dot_ts : JS.jsstring := JS.lit ".ts".

Definition ends_in_ts (u : JS.jsstring) : JS.result bool :=
  JS.Ok (JS.eqb (drop (length u - length dot_ts) u) dot_ts).

Definition typescript (broken : bool) : @LanguageProvider (collaborators broken) :=
  @mkProvider (collaborators broken)
    (fun _ _ => JS.Ok true) ends_in_ts (fun _ _ _ => JS.Ok tt).

Definition idle (broken : bool) : @host (collaborators broken) :=
  @mkHost (collaborators broken)
    [(JS.lit "typescript", typescript broken)] true None (Timers.mk 0 1 []) [].

(** The diagnostic of the spec's end-to-end scenario. *)
Definition unused_x : Proto.Diagnostic := {|
  Proto.start := Some (Proto.mkLocation 5 3);
  Proto.end_ := Some (Proto.mkLocation 5 10);
  Proto.text := JS.lit "'x' is declared but never used.";
  Proto.category := PConst.DiagnosticCategory.error;
  Proto.code := Some 6133%Z;
  Proto.source := None;
  Proto.reportsUnnecessary := Some true;
  Proto.reportsDeprecated := None;
  Proto.relatedInformation := None
|}.

(** The same diagnostic with the code 0. *)
Definition code_zero : Proto.Diagnostic := {|
  Proto.start := Some (Proto.mkLocation 5 3);
  Proto.end_ := Some (Proto.mkLocation 5 10);
  Proto.text := JS.lit "'x' is declared but never used.";
  Proto.category := PConst.DiagnosticCategory.error;
  Proto.code := Some 0%Z;
  Proto.source := None;
  Proto.reportsUnnecessary := Some true;
  Proto.reportsDeprecated := None;
  Proto.relatedInformation := None
|}.

End Sample.

(** ** Notions the statements use *)

Module Notions.
Import Host.

Section WithCollaborators.
Context `{ErrorCodes} `{Collaborators}.

(** A style check reported as an error while the flag is set. *)
Definition downgraded (flag : bool) (d : Proto.Diagnostic) : Prop :=
  flag = true
  /\ (exists c, Proto.code d = Some c /\ c ∈ styleCheckDiagnostics)
  /\ Proto.category d = PConst.DiagnosticCategory.error.

(** The category taken alone. *)
Definition direct (d : Proto.Diagnostic) (s : Lsp.DiagnosticSeverity) : Prop :=
  (Proto.category d = PConst.DiagnosticCategory.error -> s = Lsp.Error)
  /\ (Proto.category d = PConst.DiagnosticCategory.warning -> s = Lsp.Warning)
  /\ (Proto.category d = PConst.DiagnosticCategory.suggestion -> s = Lsp.Hint)
  /\ (Proto.category d <> PConst.DiagnosticCategory.error ->
      Proto.category d <> PConst.DiagnosticCategory.warning ->
      Proto.category d <> PConst.DiagnosticCategory.suggestion ->
      s = Lsp.Error).

(** No provider claims [uri]: the document lookup returns, and every
    provider answers no to the question [findLanguage] asks it. *)
Definition unclaimed (h : host) (uri : JS.jsstring) : Prop :=
  exists doc,
    getDocument uri = JS.Ok doc
    /\ Forall
         (fun language =>
            match doc with
            | Some doc => handles (snd language) uri (textDocument doc)
            | None => u ← Uri_parse uri; handlesUri (snd language) u
            end = JS.Ok false)
         (languagePerId h).

(** The lookup of [findLanguage] throws. *)
Definition lookup_throws (h : host) (uri : JS.jsstring) : Prop :=
  exists e, lookupLanguage h uri = JS.Throw e.

(** The effects of one reload, at the time of the host. *)
Definition reloaded (h : host) : list (N * effect) :=
[(Timers.now (runtime h), ReInitialize);
 (Timers.now (runtime h), Execute (JS.lit "reloadProjects"));
 (Timers.now (runtime h), TriggerAllDiagnostics (map fst (languagePerId h)))].

(** The only timer the runtime may hold is the one [timer] names. *)
Definition own_timer (h : host) : Prop :=
  forall p, In p (Timers.pending (runtime h)) -> timer h = Some (fst p).

(** The host [h] is [h0] with its clock at [t] and one timer armed at
    [t], the one [timer] names. *)
Definition armed_at (h0 h : host) (t : N) : Prop :=
  languagePerId h = languagePerId h0
  /\ trace h = trace h0
  /\ Timers.now (runtime h) = t
  /\ exists handle,
       timer h = Some handle
       /\ Timers.pending (runtime h) = [(handle, t + 1500)].

(** A burst of content changes: a first one, and further ones each
    [gap] milliseconds after the one before. *)
Definition burst (w0 : watcher) (more : list (N * watcher)) : list event :=
  Fire w0 onDidChange
  :: flat_map (fun p => [Elapse (fst p); Fire (snd p) onDidChange]) more.

Definition span_of (more : list (N * watcher)) : N :=
  fold_right N.add 0 (map fst more).

End WithCollaborators.
End Notions.

(** ** The rest of the host: registry, plugins, disposal, config files *)

Module HostRest.
Import Host.

(** A [Map] keyed by strings, in insertion order: [set] on a key that is
    present replaces the value where it stands. *)
Fixpoint Map_set {V : Type} (key : JS.jsstring) (v : V)
    (m : list (JS.jsstring * V)) : list (JS.jsstring * V) :=
  match m with
  | [] => [(key, v)]
  | (k, v') :: m' =>
      if JS.eqb k key then (key, v) :: m' else (k, v') :: Map_set key v m'
  end.

Fixpoint Map_get {V : Type} (key : JS.jsstring) (m : list (JS.jsstring * V))
    : option V :=
  match m with
  | [] => None
  | (k, v) :: m' => if JS.eqb k key then Some v else Map_get key m'
  end.

(** A [Set] of strings, in insertion order. *)
Definition Set_add (x : JS.jsstring) (s : list JS.jsstring) : list JS.jsstring :=
  if existsb (JS.eqb x) s then s else s ++ [x].

(** The fields of a [LanguageDescription] the host writes; the type of
    [diagnosticLanguage] is declared in [utils/languageDescription]. *)
Record LanguageDescription (DiagnosticLanguage : Type) := mkDescription {
  id : JS.jsstring;
  languageIds : list JS.jsstring;
  diagnosticSource : JS.jsstring;
  diagnosticLanguage : DiagnosticLanguage;
  diagnosticOwner : JS.jsstring;
  standardFileExtensions : list JS.jsstring;
  isExternal : option bool
}.
Arguments mkDescription {DiagnosticLanguage}.
Arguments id {DiagnosticLanguage} l.
Arguments languageIds {DiagnosticLanguage} l.

(** The fields of a plugin of [utils/plugins] the host reads. *)
Record Plugin := mkPlugin {
  configNamespace : option JS.jsstring;
  languages : list JS.jsstring
}.

(** The body of a config-file diagnostics event. *)
Record ConfigFileDiagnosticBody := mkBody {
  configFile : JS.jsstring;
  diagnostics : list Proto.Diagnostic
}.

Section WithServices.
Context `{ErrorCodes} `{Collaborators}.

(** What the rest of the host calls: the constructor of [LanguageProvider],
    [client.bufferSyncSupport.handles], and [Uri.file(f).toString()]. *)
Class Services := {
  DiagnosticLanguage : Type;
  DiagnosticLanguage_TypeScript : DiagnosticLanguage;
  newLanguageProvider : LanguageDescription DiagnosticLanguage -> LanguageProvider;
  bufferSyncSupport_handles : JS.jsstring -> JS.result bool;
  Uri_file_toString : JS.jsstring -> JS.result JS.jsstring
}.
Context `{Services}.

Definition with_languages (h : host) (m : list (JS.jsstring * LanguageProvider))
    : host :=
  mkHost m (reportStyleCheckAsWarnings h) (timer h) (runtime h) (trace h).

Definition registerExtensionLanguageProvider
    (description : LanguageDescription DiagnosticLanguage) (h : host) : host :=
  let manager := newLanguageProvider description in
  with_languages h (Map_set (id description) manager (languagePerId h)).

(** typescript or javascript *)
Definition getProvider (h : host) (languageId : JS.jsstring)
    : option LanguageProvider :=
  Map_get languageId (languagePerId h).

(** The description the [onReady] callback builds for a provider of
    plugins. *)
Definition pluginDescription (id : JS.jsstring) (languageIds : list JS.jsstring)
    : LanguageDescription DiagnosticLanguage :=
  mkDescription id languageIds (JS.lit "ts-plugin") DiagnosticLanguage_TypeScript
    (JS.lit "typescript") [] (Some true).

(** [plugin.configNamespace && plugin.languages.length] *)
Definition has_namespace (plugin : Plugin) : bool :=
  match configNamespace plugin with
  | Some (_ :: _) => negb (Nat.eqb (length (languages plugin)) 0)
  | _ => false
  end.

(** One round of the loop of the [onReady] callback over the plugins: the
    host and the set [languageIds]. *)
Definition onReady_plugin (acc : host * list JS.jsstring) (plugin : Plugin)
    : host * list JS.jsstring :=
  let '(h, languageIds) := acc in
  if has_namespace plugin
  then
    (registerExtensionLanguageProvider
       (pluginDescription (default [] (configNamespace plugin)) (languages plugin))
       h,
     languageIds)
  else (h, fold_left (fun s language => Set_add language s) (languages plugin)
             languageIds).

(** The callback of [client.onReady]. *)
Definition onReady (plugins : list Plugin) (h : host) : host :=
  let '(h1, languageIds) := fold_left onReady_plugin plugins (h, []) in
  if negb (Nat.eqb (length languageIds) 0)
  then
    registerExtensionLanguageProvider
      (pluginDescription (JS.lit "typescript-plugins") languageIds) h1
  else h1.

(** [dispose]: the ids of the providers whose [dispose()] it calls, in
    order, and the host with its registry cleared.  What it disposes
    besides (the disposables, the configuration manager, the typings
    status, the progress reporter) lies outside the host; it does not clear
    the timer of [handleProjectChange]. *)
Definition dispose (h : host) : list JS.jsstring * host :=
  (map fst (languagePerId h), with_languages h []).

(** [handles] *)
Definition handles_uri (h : host) (uri : JS.jsstring) : JS.result bool :=
  provider ← findLanguage h uri;
  match provider with
  | Some _ => JS.Ok true
  | None => bufferSyncSupport_handles uri
  end.

(** The callback of [client.onConfigDiagnosticsReceived]: the call it
    makes to [diagnosticsManager.configFileDiagnosticsReceived], if any. *)
Definition onConfigDiagnosticsReceived (flag : bool)
    (body : option ConfigFileDiagnosticBody)
    : JS.result (option (JS.jsstring * list Lsp.Diagnostic)) :=
  match body with
  | Some body =>
      uri ← Uri_file_toString (configFile body);
      if Nat.eqb (length (diagnostics body)) 0
      then JS.Ok (Some (uri, []))
      else
        diagnosticList ← JS.mapM (configDiagnostic flag) (diagnostics body);
        JS.Ok (Some (uri, diagnosticList))
  | None => JS.Ok None
  end.

End WithServices.

End HostRest.

(** ** Further notions the statements use *)

Module MoreNotions.
Import Host HostRest FormatDiagnostic.

Section WithCollaborators.
Context `{ErrorCodes} `{Collaborators}.

(** The question [findLanguage] asks a provider about [uri], given what
    [getDocument] returned. *)
Definition asks (uri : JS.jsstring) (doc : option (Document TextDocument))
    (language : JS.jsstring * LanguageProvider) : JS.result bool :=
  match doc with
  | Some doc => handles (snd language) uri (textDocument doc)
  | None => u ← Uri_parse uri; handlesUri (snd language) u
  end.

(** The converters return on a backend diagnostic. *)
Definition converts (d : Proto.Diagnostic) : Prop :=
  (exists range, rangeOf d = JS.Ok range)
  /\ (exists related, relatedInformationOf d = JS.Ok related).

(** What [createMarkerData] makes of a backend diagnostic. *)
Definition marker_of (flag : bool) (d : Proto.Diagnostic) (m : Lsp.Diagnostic)
    : Prop :=
  Lsp.severity m = Some (getDiagnosticSeverity flag d)
  /\ Lsp.severity m <> Some Lsp.Information
  /\ Lsp.tags m = tagsOf d
  /\ Lsp.source m = Proto.source d
  /\ Lsp.filetype m = Some (JS.lit "markdown")
  /\ exists body, Lsp.message m = body ++ [LF; LF].

(** A file event that reloads the projects. *)
Definition structural (w : watcher) (e : fileEvent) : Prop :=
  (w = configFileWatcher /\ (e = onDidCreate \/ e = onDidDelete))
  \/ (w = packageFileWatcher /\ e = onDidCreate).

(** What a config-file diagnostic is passed on as. *)
Definition config_marker (flag : bool) (d : Proto.Diagnostic) (m : Lsp.Diagnostic)
    : Prop :=
  Lsp.message m = Proto.text d
  /\ Lsp.severity m = Some (getDiagnosticSeverity flag d)
  /\ Lsp.code m
     = match Proto.code d with Some c => JS.Value c | None => JS.Undefined end
  /\ Lsp.tags m = None
  /\ Lsp.filetype m = None
  /\ JS.Ok (Lsp.drange m) = configDiagnosticRange d.

End WithCollaborators.

(** The range the config callback falls back to. *)
Definition fallbackRange : Lsp.Range :=
  Lsp.mkRange (Lsp.mkPosition 0 0) (Lsp.mkPosition 0 1).

(** A location of the backend whose line and offset count from 1, and
    no further than 2^31. *)
Definition one_based (l : Proto.Location) : Prop :=
  (1 <= Proto.line l <= 2147483648)%Z /\ (1 <= Proto.offset l <= 2147483648)%Z.

(** The range of a location, each coordinate less one. *)
Definition zero_based (l : Proto.Location) : Lsp.Position :=
  Lsp.mkPosition (Proto.line l - 1) (Proto.offset l - 1).

(** A diagnostic whose endpoints, when it has both, are one-based. *)
Definition placed (d : Proto.Diagnostic) : Prop :=
  match Proto.start d, Proto.end_ d with
  | Some s, Some e => one_based s /\ one_based e
  | _, _ => True
  end.

(** The languages of the plugins that are not registered under a
    namespace of their own, and the set the host collects them in. *)
Definition unnamed (plugins : list Plugin) : list JS.jsstring :=
  flat_map languages (List.filter (fun plugin => negb (has_namespace plugin)) plugins).

Definition merged (plugins : list Plugin) : list JS.jsstring :=
  fold_left (fun s language => Set_add language s) (unnamed plugins) [].

(** What the set holds after the languages of [seen] were added to it:
    those languages, each before the ones that first come after it. *)
Definition in_order_of (seen collected : list JS.jsstring) : Prop :=
  (forall x, In x collected <-> In x seen)
  /\ forall before a between b after,
       collected = before ++ a :: between ++ b :: after ->
       exists l1 l2, seen = l1 ++ a :: l2 /\ ~ In a l1 /\ ~ In b l1.

(** The escaping of one character of a text without backticks: a backslash
    before an angle bracket, and nothing left of a NUL. *)
Definition escapeChar (c : JS.char) : JS.jsstring :=
  if c =? NUL then []
  else if c =? lt then [backslash; lt]
  else if c =? gt then [backslash; gt]
  else [c].

(** A line that opens a fenced block of TypeScript: white space, the
    fence, the tag, and whatever follows. *)
Definition typescriptFence (indent rest : JS.jsstring) : JS.jsstring :=
  indent ++ fence ++ JS.lit "typescript" ++ rest.

Definition opens_typescript_fence (line : JS.jsstring) : Prop :=
  exists indent rest,
    Forall (fun c => Regex.is_space c = true) indent
    /\ line = typescriptFence indent rest.

(** The tag the fence step looks for. *)
Definition tag : JS.jsstring := JS.lit "typescript".

(** The parameters of the colour sequence of a severity. *)
Definition colourCode (s : Lsp.DiagnosticSeverity) : JS.jsstring :=
  match s with
  | Lsp.Error => JS.lit "1;31m"
  | Lsp.Warning => JS.lit "1;32m"
  | Lsp.Information => JS.lit "1;36m"
  | Lsp.Hint => JS.lit "1;36m"
  end.

(** Every match of [r] steps over a character of the class [q]. *)
Fixpoint must {A : Type} (q : A -> bool) (r : Regex.re A) : Prop :=
  match r with
  | Regex.Class p => forall a, p a = true -> q a = true
  | Regex.Seq r1 r2 => must q r1 \/ must q r2
  | Regex.Alt r1 r2 => must q r1 /\ must q r2
  | Regex.Group _ r' => must q r'
  | _ => False
  end.

End MoreNotions.

(** ** Sample services *)

Module Sample2.
Import Host HostRest.

(** Two providers: the first claims the files in [.ts], the second every
    file; when [faulty], the first throws instead of answering. *)
Definition picky (faulty : bool) : @LanguageProvider (Sample.collaborators false) :=
  @mkProvider (Sample.collaborators false)
    (fun _ _ => JS.Ok true)
    (fun u => if faulty then JS.Throw JS.TypeError else Sample.ends_in_ts u)
    (fun _ _ _ => JS.Ok tt).

Definition greedy : @LanguageProvider (Sample.collaborators false) :=
  @mkProvider (Sample.collaborators false)
    (fun _ _ => JS.Ok true) (fun _ => JS.Ok true) (fun _ _ _ => JS.Ok tt).

Definition two (faulty : bool) : @host (Sample.collaborators false) :=
  @mkHost (Sample.collaborators false)
    [(JS.lit "typescript", picky faulty); (JS.lit "any", greedy)]
    true None (Timers.mk 0 1 []) [].

(** A host with one timer pending, due at 1500. *)
Definition pending_host : @host (Sample.collaborators false) :=
  @mkHost (Sample.collaborators false)
    [(JS.lit "typescript", picky false)] true (Some 1) (Timers.mk 0 2 [(1, 1500)]) [].

Definition services : @Services (Sample.collaborators false) := {|
  DiagnosticLanguage := unit;
  DiagnosticLanguage_TypeScript := tt;
  newLanguageProvider := fun _ => greedy;
  bufferSyncSupport_handles := fun _ => JS.Ok false;
  Uri_file_toString := fun f => JS.Ok (JS.lit "file://" ++ f)
|}.

(** A diagnostic whose start is missing: the sample converter throws. *)
Definition no_start : Proto.Diagnostic := {|
  Proto.start := None;
  Proto.end_ := Some (Proto.mkLocation 5 10);
  Proto.text := JS.lit "Cannot find name 'y'.";
  Proto.category := PConst.DiagnosticCategory.error;
  Proto.code := Some 2304%Z;
  Proto.source := None;
  Proto.reportsUnnecessary := None;
  Proto.reportsDeprecated := None;
  Proto.relatedInformation := None
|}.

(** A message with an angle bracket among its first three characters,
    and an icon link before a parenthesis on its second line. *)
Definition angle : Lsp.Diagnostic :=
  Lsp.Diagnostic_create (Lsp.mkRange (Lsp.mkPosition 4 2) (Lsp.mkPosition 4 9))
    (JS.lit "<x> y" ++ [FormatDiagnostic.LF]
     ++ Links.iconLink FormatDiagnostic.icon_link (JS.lit "u")
     ++ JS.lit " and (note) end")
    Lsp.Error None.

(** A diagnostic that starts on line 0, and one without a span. *)
Definition line_zero : Proto.Diagnostic := {|
  Proto.start := Some (Proto.mkLocation 0 3);
  Proto.end_ := Some (Proto.mkLocation 5 10);
  Proto.text := JS.lit "Unknown compiler option.";
  Proto.category := PConst.DiagnosticCategory.error;
  Proto.code := Some 5023%Z;
  Proto.source := None;
  Proto.reportsUnnecessary := None;
  Proto.reportsDeprecated := None;
  Proto.relatedInformation := None
|}.

Definition no_span : Proto.Diagnostic := {|
  Proto.start := None;
  Proto.end_ := None;
  Proto.text := JS.lit "Unknown compiler option.";
  Proto.category := PConst.DiagnosticCategory.error;
  Proto.code := Some 5023%Z;
  Proto.source := None;
  Proto.reportsUnnecessary := None;
  Proto.reportsDeprecated := None;
  Proto.relatedInformation := None
|}.

Definition plugins : list Plugin :=
  [mkPlugin (Some (JS.lit "vue")) [JS.lit "vue"];
   mkPlugin None [JS.lit "svelte"; JS.lit "astro"];
   mkPlugin (Some []) [JS.lit "astro"; JS.lit "mdx"]].

(** A renderer that hands the message through, and a diagnostic whose
    message has two lines, no backtick and no closing bracket. *)
Definition raw : FormatDiagnostic.Markdown :=
  {| FormatDiagnostic.formatDiagnosticIntoMarkdown := Lsp.message |}.

Definition plain : Lsp.Diagnostic :=
  Lsp.Diagnostic_create (Lsp.mkRange (Lsp.mkPosition 4 2) (Lsp.mkPosition 4 9))
    (JS.lit "## Type <T> is not" ++ [FormatDiagnostic.LF] ++ JS.lit "assignable.")
    Lsp.Warning (Some 2322%Z).

End Sample2.

(* ===================================================================== *)
(** * Part II: lemmas and theorems *)
(* ===================================================================== *)

(** ** The severity classifier *)

Section Classifier.
Import Host Notions.
Context `{ErrorCodes}.

Lemma eqb_eq (a b : JS.jsstring) : JS.eqb a b = true <-> a = b.
Proof. unfold JS.eqb. apply bool_decide_eq_true. Qed.

Lemma eqb_neq (a b : JS.jsstring) : JS.eqb a b = false <-> a <> b.
Proof. unfold JS.eqb. apply bool_decide_eq_false. Qed.

Lemma isStyleCheckDiagnostic_spec (code : option Z) :
  isStyleCheckDiagnostic code = true
  <-> exists c, code = Some c /\ c ∈ styleCheckDiagnostics.
Proof.
  destruct code as [c|]; simpl.
  - rewrite bool_decide_eq_true. split.
    + intros Hc. exists c. auto.
    + intros (c' & Heq & Hc). congruence.
  - split; [discriminate | intros (c & Heq & _); discriminate].
Qed.

Lemma downgraded_spec (flag : bool) (d : Proto.Diagnostic) :
  flag && isStyleCheckDiagnostic (Proto.code d)
    && JS.eqb (Proto.category d) PConst.DiagnosticCategory.error = true
  <-> downgraded flag d.
Proof.
  unfold downgraded.
  rewrite !andb_true_iff, isStyleCheckDiagnostic_spec, eqb_eq. tauto.
Qed.

(** C1. The severity of a diagnostic is Warning when the style-check flag
    is set, its code is in the style-check set and its category is error;
    in every other case the category decides: error gives Error, warning
    gives Warning, suggestion gives Hint and anything else gives Error.
    With the flag off a style check of category error is an Error. *)
Theorem getDiagnosticSeverity_classifies (flag : bool) (d : Proto.Diagnostic) :
  (downgraded flag d -> getDiagnosticSeverity flag d = Lsp.Warning)
  /\ (~ downgraded flag d -> direct d (getDiagnosticSeverity flag d))
  /\ (Proto.category d = PConst.DiagnosticCategory.error ->
      getDiagnosticSeverity false d = Lsp.Error).
Proof.
  split; [|split].
  - intros Hd. apply downgraded_spec in Hd.
    unfold getDiagnosticSeverity. now rewrite Hd.
  - intros Hd. unfold getDiagnosticSeverity.
    destruct (flag && isStyleCheckDiagnostic (Proto.code d)
              && JS.eqb (Proto.category d) PConst.DiagnosticCategory.error)
      eqn:Hg.
    + exfalso. apply Hd. now apply downgraded_spec.
    + unfold direct.
      destruct (JS.eqb (Proto.category d) PConst.DiagnosticCategory.error) eqn:He;
        [apply eqb_eq in He | apply eqb_neq in He].
      { rewrite He.
        repeat split; intros; first [reflexivity | discriminate | congruence]. }
      destruct (JS.eqb (Proto.category d) PConst.DiagnosticCategory.warning) eqn:Hw;
        [apply eqb_eq in Hw | apply eqb_neq in Hw].
      { rewrite Hw.
        repeat split; intros; first [reflexivity | discriminate | congruence]. }
      destruct (JS.eqb (Proto.category d) PConst.DiagnosticCategory.suggestion) eqn:Hs;
        [apply eqb_eq in Hs | apply eqb_neq in Hs].
      { rewrite Hs.
        repeat split; intros; first [reflexivity | discriminate | congruence]. }
      repeat split; intros; congruence.
  - intros He. unfold getDiagnosticSeverity. simpl.
    apply eqb_eq in He. now rewrite He.
Qed.

End Classifier.

(** The scenario of the spec: code 6133 of category error is a Warning with
    the flag on and an Error with the flag off. *)
Example severity_of_unused_x :
  @Host.getDiagnosticSeverity Sample.codes true Sample.unused_x = Lsp.Warning
  /\ @Host.getDiagnosticSeverity Sample.codes false Sample.unused_x = Lsp.Error.
Proof. split; vm_compute; reflexivity. Qed.

(** ** Coordinates *)

Section Coordinates.
Import Host MoreNotions.

Lemma is_uinteger_spec (z : Z) :
  Lsp.is_uinteger z = true <-> (0 <= z <= 2147483647)%Z.
Proof.
  unfold Lsp.is_uinteger, Lsp.uinteger_MAX_VALUE.
  rewrite andb_true_iff, !Z.leb_le. reflexivity.
Qed.

Lemma Range_create_accepts (one two three four : Z) :
  (0 <= one <= 2147483647)%Z -> (0 <= two <= 2147483647)%Z ->
  (0 <= three <= 2147483647)%Z -> (0 <= four <= 2147483647)%Z ->
  Lsp.Range_create one two three four
  = JS.Ok (Lsp.mkRange (Lsp.mkPosition one two) (Lsp.mkPosition three four)).
Proof.
  intros H1 H2 H3 H4. unfold Lsp.Range_create.
  apply is_uinteger_spec in H1, H2, H3, H4. now rewrite H1, H2, H3, H4.
Qed.

Lemma Range_create_rejects (one two three four : Z) :
  ~ ((0 <= one <= 2147483647)%Z /\ (0 <= two <= 2147483647)%Z
     /\ (0 <= three <= 2147483647)%Z /\ (0 <= four <= 2147483647)%Z) ->
  exists e, Lsp.Range_create one two three four = JS.Throw e.
Proof.
  intros Hnot. unfold Lsp.Range_create.
  destruct (Lsp.is_uinteger one) eqn:H1, (Lsp.is_uinteger two) eqn:H2,
    (Lsp.is_uinteger three) eqn:H3, (Lsp.is_uinteger four) eqn:H4;
    cbn [andb]; try (eexists; reflexivity).
  exfalso. apply Hnot. now rewrite <- !is_uinteger_spec.
Qed.

Lemma configDiagnosticRange_absent (diag : Proto.Diagnostic) :
  Proto.start diag = None \/ Proto.end_ diag = None ->
  configDiagnosticRange diag = JS.Ok fallbackRange.
Proof.
  unfold configDiagnosticRange.
  intros [Hs|He].
  - rewrite Hs. reflexivity.
  - rewrite He. destruct (Proto.start diag); reflexivity.
Qed.

Lemma configDiagnosticRange_present (diag : Proto.Diagnostic)
    (s e : Proto.Location) :
  Proto.start diag = Some s -> Proto.end_ diag = Some e ->
  configDiagnosticRange diag
  = Lsp.Range_create (Proto.line s - 1) (Proto.offset s - 1)
      (Proto.line e - 1) (Proto.offset e - 1).
Proof.
  intros Hs He. unfold configDiagnosticRange. rewrite Hs, He. reflexivity.
Qed.

Lemma configDiagnosticRange_placed (diag : Proto.Diagnostic)
    (s e : Proto.Location) :
  Proto.start diag = Some s -> Proto.end_ diag = Some e ->
  one_based s -> one_based e ->
  configDiagnosticRange diag = JS.Ok (Lsp.mkRange (zero_based s) (zero_based e)).
Proof.
  intros Hs He [Hsl Hso] [Hel Heo].
  rewrite (configDiagnosticRange_present diag s e Hs He).
  apply Range_create_accepts; lia.
Qed.

Lemma configDiagnosticRange_rejected (diag : Proto.Diagnostic)
    (s e : Proto.Location) :
  Proto.start diag = Some s -> Proto.end_ diag = Some e ->
  ~ (one_based s /\ one_based e) ->
  exists err, configDiagnosticRange diag = JS.Throw err.
Proof.
  intros Hs He Hnot.
  rewrite (configDiagnosticRange_present diag s e Hs He).
  apply Range_create_rejects. intros (H1 & H2 & H3 & H4).
  apply Hnot. unfold one_based. lia.
Qed.

Lemma configDiagnosticRange_of_placed (diag : Proto.Diagnostic) :
  placed diag -> exists range, configDiagnosticRange diag = JS.Ok range.
Proof.
  unfold placed. intros Hplaced.
  destruct (Proto.start diag) as [s|] eqn:Hs.
  - destruct (Proto.end_ diag) as [e|] eqn:He.
    + destruct Hplaced as [H1 H2]. eexists.
      now apply (configDiagnosticRange_placed diag s e).
    + eexists. apply configDiagnosticRange_absent. now right.
  - eexists. apply configDiagnosticRange_absent. now left.
Qed.

Section Normalized.
Context `{Collaborators}.

(** C2, as the code has it. The config callback gives the fallback range
    (0,0)-(0,1) when the start or the end is absent; with both present
    it gives each line and offset less one when they all lie between 1
    and 2^31, and otherwise [Range.create] rejects the span with an
    exception. The normalizer, whose converter subtracts one from the
    line and the offset of a location, gives each line and offset less
    one when both endpoints are present. *)
Theorem range_conversion (diag : Proto.Diagnostic) :
  (forall l, Position_fromLocation (Some l) = JS.Ok (zero_based l)) ->
  (Proto.start diag = None \/ Proto.end_ diag = None ->
   configDiagnosticRange diag = JS.Ok fallbackRange)
  /\ (forall s e,
        Proto.start diag = Some s -> Proto.end_ diag = Some e ->
        one_based s -> one_based e ->
        configDiagnosticRange diag
        = JS.Ok (Lsp.mkRange (zero_based s) (zero_based e)))
  /\ (forall s e,
        Proto.start diag = Some s -> Proto.end_ diag = Some e ->
        ~ (one_based s /\ one_based e) ->
        exists err, configDiagnosticRange diag = JS.Throw err)
  /\ (forall s e,
        Proto.start diag = Some s -> Proto.end_ diag = Some e ->
        rangeOf diag = JS.Ok (Lsp.mkRange (zero_based s) (zero_based e))).
Proof.
  intros Hconverter. split; [|split; [|split]].
  - apply configDiagnosticRange_absent.
  - apply configDiagnosticRange_placed.
  - apply configDiagnosticRange_rejected.
  - intros s e Hs He. unfold rangeOf. rewrite Hs, He, !Hconverter. reflexivity.
Qed.

End Normalized.

Lemma configDiagnostic_returns `{ErrorCodes} (flag : bool) (diag : Proto.Diagnostic) :
  placed diag ->
  exists d, configDiagnostic flag diag = JS.Ok d
            /\ configDiagnosticRange diag = JS.Ok (Lsp.drange d).
Proof.
  intros Hplaced. unfold configDiagnostic.
  destruct (configDiagnosticRange_of_placed diag Hplaced) as (range & ->).
  eexists. split; reflexivity.
Qed.

End Coordinates.

Lemma range_conversion_witness :
  (Proto.start Sample.unused_x = None \/ Proto.end_ Sample.unused_x = None ->
   Host.configDiagnosticRange Sample.unused_x = JS.Ok MoreNotions.fallbackRange)
  /\ (forall s e,
        Proto.start Sample.unused_x = Some s -> Proto.end_ Sample.unused_x = Some e ->
        MoreNotions.one_based s -> MoreNotions.one_based e ->
        Host.configDiagnosticRange Sample.unused_x
        = JS.Ok (Lsp.mkRange (MoreNotions.zero_based s) (MoreNotions.zero_based e)))
  /\ (forall s e,
        Proto.start Sample.unused_x = Some s -> Proto.end_ Sample.unused_x = Some e ->
        ~ (MoreNotions.one_based s /\ MoreNotions.one_based e) ->
        exists err, Host.configDiagnosticRange Sample.unused_x = JS.Throw err)
  /\ (forall s e,
        Proto.start Sample.unused_x = Some s -> Proto.end_ Sample.unused_x = Some e ->
        @Host.rangeOf (Sample.collaborators false) Sample.unused_x
        = JS.Ok (Lsp.mkRange (MoreNotions.zero_based s) (MoreNotions.zero_based e))).
Proof.
  apply (@range_conversion (Sample.collaborators false) Sample.unused_x).
  intros l. reflexivity.
Defined.

(** C2, where the claim fails. A config diagnostic that starts on line 0
    is not converted but rejected by [Range.create], with the
    coordinates less one in the message; and in the normalizer a
    diagnostic without a span finds no fallback: under a converter that
    reads the line of its location, the conversion throws. *)
Lemma span_not_converted :
  Host.configDiagnosticRange Sample2.line_zero
  = JS.Throw
      (JS.Error (JS.lit "Range#create called with invalid arguments[-1, 2, 4, 9]"))
  /\ @Host.rangeOf (Sample.collaborators false) Sample2.no_span
     = JS.Throw JS.TypeError.
Proof. split; vm_compute; reflexivity. Qed.

(** The span (5,3)-(5,10) of the spec's scenario becomes (4,2)-(4,9). *)
Example range_of_unused_x :
  Host.configDiagnosticRange Sample.unused_x
  = JS.Ok (Lsp.mkRange (Lsp.mkPosition 4 2) (Lsp.mkPosition 4 9)).
Proof. reflexivity. Qed.

(** ** The normalizer *)

Section Normalizer.
Import Host.
Context `{ErrorCodes} `{Collaborators}.

(** The normalizer returns as soon as its converters do, and then every
    field but the range and the related information is read off the
    backend diagnostic. *)
Lemma tsDiagnosticToLspDiagnostic_returns (flag : bool) (d : Proto.Diagnostic)
    (range : Lsp.Range)
    (related : option (list Lsp.DiagnosticRelatedInformation)) :
  rangeOf d = JS.Ok range ->
  relatedInformationOf d = JS.Ok related ->
  tsDiagnosticToLspDiagnostic flag d =
  JS.Ok
    (Lsp.mkDiagnostic range (tagsOf d) (Proto.text d)
       (if JS.truthy_number (Proto.code d)
        then match Proto.code d with
             | Some c => JS.Value c
             | None => JS.Undefined
             end
        else JS.Null)
       (Some (getDiagnosticSeverity flag d))
       (Proto.reportsDeprecated d) (Proto.reportsUnnecessary d)
       (Proto.source d) related None).
Proof.
  intros Hr Hi. unfold tsDiagnosticToLspDiagnostic.
  rewrite Hr, Hi. reflexivity.
Qed.

Lemma tagsOf_cases (d : Proto.Diagnostic) :
  tagsOf d =
  match JS.truthy_flag (Proto.reportsUnnecessary d),
        JS.truthy_flag (Proto.reportsDeprecated d) with
  | true, true => Some [Lsp.Unnecessary; Lsp.Deprecated]
  | true, false => Some [Lsp.Unnecessary]
  | false, true => Some [Lsp.Deprecated]
  | false, false => None
  end.
Proof.
  unfold tagsOf.
  destruct (JS.truthy_flag (Proto.reportsUnnecessary d)),
           (JS.truthy_flag (Proto.reportsDeprecated d)); reflexivity.
Qed.

(** C8. Once the converters return, the normalized diagnostic carries the
    tag Unnecessary exactly when reportsUnnecessary is set and the tag
    Deprecated exactly when reportsDeprecated is set; with neither set its
    tags are undefined, and they are never an empty array. *)
Theorem tsDiagnosticToLspDiagnostic_tags (flag : bool) (d : Proto.Diagnostic)
    (range : Lsp.Range)
    (related : option (list Lsp.DiagnosticRelatedInformation)) :
  rangeOf d = JS.Ok range ->
  relatedInformationOf d = JS.Ok related ->
  exists nd,
    tsDiagnosticToLspDiagnostic flag d = JS.Ok nd
    /\ (In Lsp.Unnecessary (default [] (Lsp.tags nd))
        <-> JS.truthy_flag (Proto.reportsUnnecessary d) = true)
    /\ (In Lsp.Deprecated (default [] (Lsp.tags nd))
        <-> JS.truthy_flag (Proto.reportsDeprecated d) = true)
    /\ (Lsp.tags nd = None
        <-> JS.truthy_flag (Proto.reportsUnnecessary d) = false
            /\ JS.truthy_flag (Proto.reportsDeprecated d) = false)
    /\ Lsp.tags nd <> Some [].
Proof.
  intros Hr Hi. eexists. split.
  - apply tsDiagnosticToLspDiagnostic_returns; eassumption.
  - simpl. rewrite tagsOf_cases.
    destruct (JS.truthy_flag (Proto.reportsUnnecessary d)),
             (JS.truthy_flag (Proto.reportsDeprecated d)); simpl;
      repeat split; intros; try discriminate; try tauto;
      repeat match goal with
        | Hx : _ \/ _ |- _ => destruct Hx
        | Hx : _ /\ _ |- _ => destruct Hx
        end; try discriminate; try contradiction; auto.
Qed.

(** C9, as amended. Once the converters return, the normalized diagnostic
    carries the code of the backend diagnostic when that code is present
    and not zero, and carries null when the code is absent or zero; the
    field is never left undefined. *)
Theorem tsDiagnosticToLspDiagnostic_code (flag : bool) (d : Proto.Diagnostic)
    (range : Lsp.Range)
    (related : option (list Lsp.DiagnosticRelatedInformation)) :
  rangeOf d = JS.Ok range ->
  relatedInformationOf d = JS.Ok related ->
  exists nd,
    tsDiagnosticToLspDiagnostic flag d = JS.Ok nd
    /\ (forall c, Proto.code d = Some c -> c <> 0%Z -> Lsp.code nd = JS.Value c)
    /\ (Proto.code d = None \/ Proto.code d = Some 0%Z -> Lsp.code nd = JS.Null)
    /\ Lsp.code nd <> JS.Undefined.
Proof.
  intros Hr Hi. eexists. split.
  - apply tsDiagnosticToLspDiagnostic_returns; eassumption.
  - simpl. destruct (Proto.code d) as [c|]; simpl.
    + destruct (Z.eqb_spec c 0) as [->|Hc]; simpl.
      * split; [|split].
        { intros c Hc Hnz. injection Hc as <-. contradiction. }
        { reflexivity. }
        { discriminate. }
      * split; [|split].
        { intros c' Hc' _. congruence. }
        { intros [Hn|Hz]; [discriminate | congruence]. }
        { discriminate. }
    + split; [|split].
      { intros c Hc. discriminate. }
      { reflexivity. }
      { discriminate. }
Qed.

(** The formatter leaves every field but the message and the file type as
    the normalizer set it. *)
Lemma format_keeps_fields (opt : FormatDiagnostic.formatOptions)
    (ds : list Lsp.Diagnostic) :
  map (fun d => (Lsp.drange d, Lsp.tags d, Lsp.code d, Lsp.severity d))
    (FormatDiagnostic.format ds opt)
  = map (fun d => (Lsp.drange d, Lsp.tags d, Lsp.code d, Lsp.severity d)) ds.
Proof.
  unfold FormatDiagnostic.format. rewrite map_map. reflexivity.
Qed.

End Normalizer.

(** The conversions of the sample collaborators return on the diagnostic of
    the spec's scenario: the statement about tags applies to it. *)
Lemma tsDiagnosticToLspDiagnostic_tags_witness :
  exists nd,
    @Host.tsDiagnosticToLspDiagnostic Sample.codes (Sample.collaborators false)
      true Sample.unused_x = JS.Ok nd
    /\ (In Lsp.Unnecessary (default [] (Lsp.tags nd))
        <-> JS.truthy_flag (Proto.reportsUnnecessary Sample.unused_x) = true)
    /\ (In Lsp.Deprecated (default [] (Lsp.tags nd))
        <-> JS.truthy_flag (Proto.reportsDeprecated Sample.unused_x) = true)
    /\ (Lsp.tags nd = None
        <-> JS.truthy_flag (Proto.reportsUnnecessary Sample.unused_x) = false
            /\ JS.truthy_flag (Proto.reportsDeprecated Sample.unused_x) = false)
    /\ Lsp.tags nd <> Some [].
Proof.
  apply (@tsDiagnosticToLspDiagnostic_tags Sample.codes (Sample.collaborators false)
           true Sample.unused_x (Lsp.mkRange (Lsp.mkPosition 4 2) (Lsp.mkPosition 4 9)) None);
    reflexivity.
Defined.

Lemma tsDiagnosticToLspDiagnostic_code_witness :
  exists nd,
    @Host.tsDiagnosticToLspDiagnostic Sample.codes (Sample.collaborators false)
      true Sample.unused_x = JS.Ok nd
    /\ (forall c, Proto.code Sample.unused_x = Some c -> c <> 0%Z ->
        Lsp.code nd = JS.Value c)
    /\ (Proto.code Sample.unused_x = None \/ Proto.code Sample.unused_x = Some 0%Z ->
        Lsp.code nd = JS.Null)
    /\ Lsp.code nd <> JS.Undefined.
Proof.
  apply (@tsDiagnosticToLspDiagnostic_code Sample.codes (Sample.collaborators false)
           true Sample.unused_x (Lsp.mkRange (Lsp.mkPosition 4 2) (Lsp.mkPosition 4 9)) None);
    reflexivity.
Defined.

(** C9 as stated fails: a diagnostic whose code is present and is 0 is
    normalized to a diagnostic whose code is null, not 0. *)
Lemma code_zero_becomes_null :
  exists nd,
    @Host.tsDiagnosticToLspDiagnostic Sample.codes (Sample.collaborators false)
      true Sample.code_zero = JS.Ok nd
    /\ Proto.code Sample.code_zero = Some 0%Z
    /\ Lsp.code nd = JS.Null
    /\ Lsp.code nd <> JS.Value 0%Z.
Proof.
  eexists. split; [reflexivity|]. simpl. repeat split. discriminate.
Qed.

(** ** The router *)

Section Router.
Import Host Notions.
Context `{ErrorCodes} `{Collaborators}.

Lemma find_none {A} (p : A -> JS.result bool) (xs : list A) :
  Forall (fun x => p x = JS.Ok false) xs -> JS.find p xs = JS.Ok None.
Proof.
  induction 1 as [|x xs Hx _ IH]; simpl; [reflexivity|].
  rewrite Hx. simpl. exact IH.
Qed.

Lemma unclaimed_lookup (h : host) (uri : JS.jsstring) :
  unclaimed h uri -> lookupLanguage h uri = JS.Ok None.
Proof.
  intros (doc & Hdoc & Hall). unfold lookupLanguage.
  rewrite Hdoc. simpl. destruct doc as [doc|]; now apply find_none.
Qed.

(** [findLanguage] never throws: what its lookup throws, it catches. *)
Lemma findLanguage_returns (h : host) (uri : JS.jsstring) :
  exists language, findLanguage h uri = JS.Ok language.
Proof.
  unfold findLanguage.
  destruct (lookupLanguage h uri) as [l|e]; simpl; eauto.
Qed.

Lemma findLanguage_none (h : host) (uri : JS.jsstring) :
  unclaimed h uri \/ lookup_throws h uri -> findLanguage h uri = JS.Ok None.
Proof.
  unfold findLanguage. intros [Hu|(e & He)].
  - now rewrite (unclaimed_lookup _ _ Hu).
  - now rewrite He.
Qed.

(** C5. A batch for a file that no provider claims, or for which the
    lookup throws, reaches no provider: routing returns normally and
    leaves the host, and with it the trace of deliveries, as it was. *)
Theorem diagnosticsReceived_drops (h : host) (kind : DiagnosticKind)
    (resource : JS.jsstring) (diagnostics : list Proto.Diagnostic) :
  unclaimed h resource \/ lookup_throws h resource ->
  diagnosticsReceived h kind resource diagnostics = (JS.Ok tt, h).
Proof.
  intros Hdrop. unfold diagnosticsReceived.
  now rewrite (findLanguage_none _ _ Hdrop).
Qed.

End Router.

(** The sample provider does not claim [/proj/a.md]; and when [Uri.parse]
    throws, the lookup throws. *)
Lemma sample_unclaimed :
  @Notions.unclaimed (Sample.collaborators false) (Sample.idle false)
    (JS.lit "/proj/a.md").
Proof.
  exists None. split; [reflexivity|].
  repeat constructor.
Defined.

Lemma sample_lookup_throws :
  @Notions.lookup_throws (Sample.collaborators true) (Sample.idle true)
    (JS.lit "/proj/a.ts").
Proof. exists JS.TypeError. reflexivity. Defined.

Lemma diagnosticsReceived_drops_witness :
  @Host.diagnosticsReceived Sample.codes (Sample.collaborators false)
    (Sample.idle false) 0%nat (JS.lit "/proj/a.md") [Sample.unused_x]
  = (JS.Ok tt, Sample.idle false)
  /\ @Host.diagnosticsReceived Sample.codes (Sample.collaborators true)
       (Sample.idle true) 0%nat (JS.lit "/proj/a.ts") [Sample.unused_x]
     = (JS.Ok tt, Sample.idle true).
Proof.
  split.
  - apply (@diagnosticsReceived_drops Sample.codes (Sample.collaborators false)).
    left. exact sample_unclaimed.
  - apply (@diagnosticsReceived_drops Sample.codes (Sample.collaborators true)).
    right. exact sample_lookup_throws.
Defined.

(** A claimed file is delivered: the statement above is about real drops. *)
Example sample_delivers :
  exists markers,
    @Host.diagnosticsReceived Sample.codes (Sample.collaborators false)
      (Sample.idle false) 0%nat (JS.lit "/proj/a.ts") [Sample.unused_x]
    = (JS.Ok tt,
       @Host.emit (Sample.collaborators false)
         (@Host.DiagnosticsReceived (Sample.collaborators false)
            (JS.lit "typescript") 0%nat (JS.lit "/proj/a.ts") markers)
         (Sample.idle false)).
Proof. eexists. vm_compute. reflexivity. Qed.

(** ** File events *)

Section FileEvents.
Import Host Notions.
Context `{Collaborators}.

(** A file created under either watcher, or a config file deleted,
    reloads at once: the three effects carry the time of the event, and
    the pending timer is neither waited for nor touched. *)
Lemma structural_event_reloads (h : host) (w : watcher) (e : fileEvent) :
  (w = configFileWatcher /\ (e = onDidCreate \/ e = onDidDelete))
  \/ (w = packageFileWatcher /\ e = onDidCreate) ->
  step h (Fire w e)
  = mkHost (languagePerId h) (reportStyleCheckAsWarnings h) (timer h)
      (runtime h) (trace h ++ reloaded h).
Proof.
  intros [[-> [-> | ->]] | [-> ->]]; simpl;
    unfold reloadProjects, triggerAllDiagnostics, emit, reloaded; simpl;
    rewrite <- !app_assoc; reflexivity.
Qed.

(** C4, where the code departs from it. The deletion of a package
    manifest has no listener: the host is left as it was, with no reload
    and no new diagnosis. *)
Theorem package_deletion_ignored (h : host) :
  step h (Fire packageFileWatcher onDidDelete) = h.
Proof. reflexivity. Qed.

End FileEvents.

(** ** The debounced trigger *)

Section Debounce.
Import Host Notions.
Context `{Collaborators}.

Lemma own_timer_clears (h : host) :
  own_timer h ->
  Timers.pending
    match timer h with
    | Some handle => Timers.clearTimeout handle (runtime h)
    | None => runtime h
    end = [].
Proof.
  unfold own_timer. intros Hown.
  destruct (timer h) as [handle|] eqn:Ht; simpl.
  - induction (Timers.pending (runtime h)) as [|p ps IH]; simpl; [reflexivity|].
    assert (Hp : Some handle = Some (fst p)) by (apply Hown; now left).
    injection Hp as ->. rewrite N.eqb_refl. simpl.
    apply IH. intros q Hq. apply Hown. now right.
  - destruct (Timers.pending (runtime h)) as [|p ps]; [reflexivity|].
    specialize (Hown p (or_introl eq_refl)). discriminate.
Qed.

(** A content change leaves exactly one timer, due 1500 ms later. *)
Lemma handleProjectChange_arms (h : host) :
  own_timer h ->
  armed_at h (handleProjectChange h) (Timers.now (runtime h)).
Proof.
  intros Hown. pose proof (own_timer_clears h Hown) as Hclear.
  unfold handleProjectChange, armed_at.
  destruct (timer h) as [handle|]; simpl in *.
  - rewrite Hclear. simpl. repeat split. eexists. split; reflexivity.
  - rewrite Hclear. simpl. repeat split. eexists. split; reflexivity.
Qed.

Lemma armed_own_timer (h0 h : host) (t : N) : armed_at h0 h t -> own_timer h.
Proof.
  intros (_ & _ & _ & handle & Ht & Hp) p Hin.
  rewrite Hp in Hin. destruct Hin as [<-|[]]. exact Ht.
Qed.

(** Less than 1500 ms after the last change nothing has run. *)
Lemma armed_elapse_early (h0 h : host) (t dt : N) :
  armed_at h0 h t -> dt < 1500 ->
  own_timer (step h (Elapse dt))
  /\ languagePerId (step h (Elapse dt)) = languagePerId h0
  /\ trace (step h (Elapse dt)) = trace h0
  /\ Timers.now (runtime (step h (Elapse dt))) = t + dt.
Proof.
  intros (Hl & Htr & Hnow & handle & Ht & Hp) Hdt.
  assert (Hlate : (t + 1500 <=? t + dt) = false) by (apply N.leb_gt; lia).
  simpl. unfold Timers.due, Timers.elapse, own_timer.
  rewrite Hp, Hnow. simpl. rewrite Hlate. simpl.
  repeat split; try assumption.
  intros p [<-|[]]. exact Ht.
Qed.

(** A further change within the window re-arms the one timer. *)
Lemma armed_change_again (h0 h : host) (t dt : N) (w : watcher) :
  armed_at h0 h t -> dt < 1500 ->
  armed_at h0 (run h [Elapse dt; Fire w onDidChange]) (t + dt).
Proof.
  intros Harmed Hdt.
  destruct (armed_elapse_early h0 h t dt Harmed Hdt) as (Hown & Hl & Htr & Hnow).
  assert (Hrun : run h [Elapse dt; Fire w onDidChange]
                 = handleProjectChange (step h (Elapse dt)))
    by (destruct w; reflexivity).
  rewrite Hrun.
  destruct (handleProjectChange_arms _ Hown) as (Hl' & Htr' & Hnow' & Hpend).
  unfold armed_at. rewrite Hl', Htr', Hnow', Hl, Htr.
  rewrite Hnow in Hpend. repeat split; try assumption.
Qed.

Lemma armed_burst (h0 h : host) (t : N) (more : list (N * watcher)) :
  armed_at h0 h t ->
  Forall (fun p => fst p < 1500) more ->
  armed_at h0
    (run h (flat_map (fun p => [Elapse (fst p); Fire (snd p) onDidChange]) more))
    (t + span_of more).
Proof.
  intros Harmed Hgaps. revert h t Harmed.
  induction Hgaps as [|[gap w] more Hgap _ IH]; intros h t Harmed.
  - simpl. unfold span_of. simpl. now rewrite N.add_0_r.
  - simpl in Hgap.
    pose proof (armed_change_again h0 h t gap w Harmed Hgap) as Hnext.
    specialize (IH _ _ Hnext).
    replace (t + span_of ((gap, w) :: more)) with (t + gap + span_of more)
      by (unfold span_of; simpl; lia).
    exact IH.
Qed.

(** Once armed at [t], the timer runs the diagnosis at [t + 1500], and
    not before. *)
Lemma armed_elapse (h0 h : host) (t d : N) :
  armed_at h0 h t ->
  trace (step h (Elapse d))
  = trace h0
    ++ (if d <? 1500 then []
        else [(t + 1500, TriggerAllDiagnostics (map fst (languagePerId h0)))]).
Proof.
  intros (Hl & Htr & Hnow & handle & Ht & Hp).
  simpl. unfold Timers.due. rewrite Hp, Hnow. simpl.
  destruct (N.ltb_spec d 1500) as [Hd|Hd].
  - assert (Hlate : (t + 1500 <=? t + d) = false) by (apply N.leb_gt; lia).
    rewrite Hlate. simpl. now rewrite Htr, app_nil_r.
  - assert (Hdue : (t + 1500 <=? t + d) = true) by (apply N.leb_le; lia).
    rewrite Hdue. simpl. now rewrite Htr, Hl.
Qed.

(** C3. A burst of content changes on the watched files, each less than
    1500 ms after the one before, triggers one diagnosis of all the
    registered languages: it runs 1500 ms after the last change of the
    burst, and until then nothing runs. *)
Theorem content_changes_coalesce (h : host) (w0 : watcher)
    (more : list (N * watcher)) (d : N) :
  own_timer h ->
  Forall (fun p => fst p < 1500) more ->
  trace (run h (burst w0 more ++ [Elapse d]))
  = trace h
    ++ (if d <? 1500 then []
        else [(Timers.now (runtime h) + span_of more + 1500,
               TriggerAllDiagnostics (map fst (languagePerId h)))]).
Proof.
  intros Hown Hgaps. unfold burst, run.
  rewrite fold_left_app. cbn [fold_left].
  assert (Hfirst : step h (Fire w0 onDidChange) = handleProjectChange h)
    by (destruct w0; reflexivity).
  rewrite Hfirst.
  apply armed_elapse.
  apply armed_burst; [|assumption].
  now apply handleProjectChange_arms.
Qed.

End Debounce.

Lemma content_changes_coalesce_witness :
  @Host.trace (Sample.collaborators false)
    (Host.run (Sample.idle false)
       (Notions.burst Host.packageFileWatcher
          [(100, Host.configFileWatcher); (1400, Host.packageFileWatcher)]
        ++ [Host.Elapse 1500]))
  = @Host.trace (Sample.collaborators false) (Sample.idle false)
    ++ [(3000, @Host.TriggerAllDiagnostics (Sample.collaborators false)
                 [JS.lit "typescript"])].
Proof.
  apply (@content_changes_coalesce (Sample.collaborators false) (Sample.idle false)
           Host.packageFileWatcher
           [(100, Host.configFileWatcher); (1400, Host.packageFileWatcher)] 1500).
  - intros p [].
  - repeat constructor.
Defined.

(** A change that comes after the window has closed starts a burst of its
    own: two diagnoses run. *)
Example two_bursts :
  @Host.trace (Sample.collaborators false)
    (Host.run (Sample.idle false)
       [Host.Fire Host.configFileWatcher Host.onDidChange; Host.Elapse 1500;
        Host.Fire Host.configFileWatcher Host.onDidChange; Host.Elapse 1500])
  = [(1500, @Host.TriggerAllDiagnostics (Sample.collaborators false)
              [JS.lit "typescript"]);
     (3000, @Host.TriggerAllDiagnostics (Sample.collaborators false)
              [JS.lit "typescript"])].
Proof. reflexivity. Qed.

(** ** The matcher *)

Module RegexFacts.
Import Regex.

Section Lists.
Context {A B C : Type}.

Lemma map_flat_map (f : B -> C) (g : A -> list B) (l : list A) :
  map f (flat_map g l) = flat_map (fun a => map f (g a)) l.
Proof.
  induction l as [|a l IH]; simpl; [reflexivity|].
  now rewrite map_app, IH.
Qed.

Lemma flat_map_map (f : A -> B) (g : B -> list C) (l : list A) :
  flat_map g (map f l) = flat_map (fun a => g (f a)) l.
Proof.
  induction l as [|a l IH]; simpl; [reflexivity|]. now rewrite IH.
Qed.

Lemma existsb_map (f : A -> B) (p : B -> bool) (l : list A) :
  existsb p (map f l) = existsb (fun a => p (f a)) l.
Proof.
  induction l as [|a l IH]; simpl; [reflexivity|]. now rewrite IH.
Qed.

Lemma existsb_ext_in (p q : A -> bool) (l : list A) :
  (forall a, In a l -> p a = q a) -> existsb p l = existsb q l.
Proof.
  induction l as [|a l IH]; simpl; intros Hpq; [reflexivity|].
  rewrite Hpq by now left. rewrite IH; [reflexivity|].
  intros b Hb. apply Hpq. now right.
Qed.

Lemma head_map (f : A -> B) (l : list A) :
  head (map f l) = option_map f (head l).
Proof. destruct l; reflexivity. Qed.
End Lists.

Section Matcher.
Context {A : Type}.
Implicit Types (r : re A) (x y z : state A).

Lemma extends_refl x : extends x x.
Proof. exists []. split; reflexivity. Qed.

Lemma extends_trans x y z : extends x y -> extends y z -> extends x z.
Proof.
  intros (m1 & Ha1 & Hb1) (m2 & Ha2 & Hb2). exists (m1 ++ m2). split.
  - now rewrite Ha1, Ha2, app_assoc.
  - now rewrite Hb2, Hb1, rev_app_distr, app_assoc.
Qed.

Lemma extends_set_cap x y i v : extends x y -> extends x (set_cap i v y).
Proof. intros (m & Ha & Hb). exists m. split; assumption. Qed.

(** What lies between two positions is what was read from one to the
    other. *)
Lemma between_app x y m : after x = m ++ after y -> between x y = m.
Proof.
  intros Ha. unfold between. rewrite Ha, length_app.
  replace (length m + length (after y) - length (after y))%nat
    with (length m) by lia.
  apply take_app_length.
Qed.

Lemma rounds_extends (body : state A -> list (state A)) g n :
  (forall x y, In y (body x) -> extends x y) ->
  forall x y, In y (rounds body g n x) -> extends x y.
Proof.
  intros Hbody. induction n as [|n IH]; intros x y Hin; simpl in Hin.
  - destruct Hin as [<-|[]]. apply extends_refl.
  - assert (Hcases :
      y = x \/ In y (flat_map
                       (fun z => if (length (after z) <? length (after x))%nat
                                 then rounds body g n z else [])
                       (body x))).
    { destruct g.
      - apply in_app_or in Hin. destruct Hin as [Hin|[<-|[]]]; auto.
      - destruct Hin as [<-|Hin]; auto. }
    destruct Hcases as [->|Hin']; [apply extends_refl|].
    apply in_flat_map in Hin'. destruct Hin' as (z & Hz & Hy).
    destruct (length (after z) <? length (after x))%nat; [|contradiction].
    eapply extends_trans; [apply Hbody, Hz | apply IH, Hy].
Qed.

(** Every match of a pattern lies further on in the same input. *)
Lemma matches_extends r : forall x y, In y (matches r x) -> extends x y.
Proof.
  induction r as [|p|r1 IH1 r2 IH2|r1 IH1 r2 IH2|g r IH|i r IH| |r IH];
    intros x y Hin; simpl in Hin.
  - destruct Hin as [<-|[]]. apply extends_refl.
  - destruct (after x) as [|c t] eqn:Ha; [contradiction|].
    destruct (p c); [|contradiction].
    destruct Hin as [<-|[]]. exists [c]. simpl. split; [assumption|reflexivity].
  - apply in_flat_map in Hin. destruct Hin as (z & Hz & Hy).
    eapply extends_trans; [apply IH1, Hz | apply IH2, Hy].
  - apply in_app_or in Hin. destruct Hin; [apply IH1 | apply IH2]; assumption.
  - eapply rounds_extends; [apply IH | apply Hin].
  - apply in_map_iff in Hin. destruct Hin as (z & <- & Hz).
    apply extends_set_cap, IH, Hz.
  - destruct (before x); [|contradiction].
    destruct Hin as [<-|[]]. apply extends_refl.
  - match type of Hin with In _ (if ?b then _ else _) => destruct b end;
      [|contradiction].
    destruct Hin as [<-|[]]. apply extends_refl.
Qed.

Lemma exec_extends r pre rest y :
  exec r pre rest = Some y -> extends (mkState pre rest []) y.
Proof.
  unfold exec. intros Hy. apply (matches_extends r).
  destruct (matches r (mkState pre rest [])); [discriminate|].
  injection Hy as ->. now left.
Qed.

(** The text of a match is a prefix of the input it was found in. *)
Lemma exec_matched r pre rest y :
  exec r pre rest = Some y ->
  rest = matched (found_of pre rest y) ++ after y.
Proof.
  intros Hy. destruct (exec_extends _ _ _ _ Hy) as (m & Ha & _).
  simpl in Ha. unfold found_of. simpl.
  now rewrite (between_app (mkState pre rest []) y m Ha).
Qed.

End Matcher.

Section Naturality.
Context {A B : Type} (h : A -> B).

Lemma map_state_set_cap i v (y : state A) :
  map_state h (set_cap i v y) = set_cap i (map h v) (map_state h y).
Proof. reflexivity. Qed.

Lemma between_map (x y : state A) :
  between (map_state h x) (map_state h y) = map h (between x y).
Proof.
  unfold between. simpl. rewrite !length_map. apply firstn_map.
Qed.

Lemma rewind_map k (x : state A) :
  rewind k (map_state h x) = map_state h (rewind k x).
Proof.
  revert x. induction k as [|k IH]; intros x; simpl; [reflexivity|].
  destruct (before x) as [|c b] eqn:Hb; simpl; [reflexivity|].
  rewrite <- IH. reflexivity.
Qed.

Lemma rounds_map (body : state A -> list (state A))
    (body' : state B -> list (state B)) g n :
  (forall x, map (map_state h) (body x) = body' (map_state h x)) ->
  forall x,
    map (map_state h) (rounds body g n x) = rounds body' g n (map_state h x).
Proof.
  intros Hbody. induction n as [|n IH]; intros x; simpl; [reflexivity|].
  assert (Hmore :
    map (map_state h)
      (flat_map
         (fun y => if (length (after y) <? length (after x))%nat
                   then rounds body g n y else [])
         (body x))
    = flat_map
        (fun y => if (length (map h (after y)) <? length (map h (after x)))%nat
                  then rounds body' g n (map_state h y) else [])
        (body x)).
  { rewrite map_flat_map. apply flat_map_ext. intros y.
    rewrite !length_map.
    destruct (length (after y) <? length (after x))%nat; [apply IH|reflexivity]. }
  rewrite <- Hbody, flat_map_map.
  destruct g; simpl.
  - rewrite map_app, Hmore. reflexivity.
  - rewrite Hmore. reflexivity.
Qed.

(** Matching the pattern read through [h] is matching the pattern on
    the input read through [h]. *)
Lemma matches_contramap (r : re B) :
  forall x : state A,
    map (map_state h) (matches (contramap h r) x) = matches r (map_state h x).
Proof.
  induction r as [|p|r1 IH1 r2 IH2|r1 IH1 r2 IH2|g r IH|i r IH| |r IH];
    intros x; cbn [contramap matches].
  - reflexivity.
  - simpl. destruct (after x) as [|c t]; simpl; [reflexivity|].
    destruct (p (h c)); reflexivity.
  - rewrite map_flat_map, <- IH1, flat_map_map.
    apply flat_map_ext. intros y. apply IH2.
  - now rewrite map_app, IH1, IH2.
  - simpl. rewrite length_map. apply rounds_map. exact IH.
  - rewrite <- IH, !map_map. apply map_ext. intros y.
    rewrite map_state_set_cap, between_map. reflexivity.
  - simpl. destruct (before x); reflexivity.
  - cbn [map_state before after]. rewrite !length_map.
    match goal with
    | |- map _ (if ?b then _ else _) = (if ?b' then _ else _) =>
        assert (Hb : b = b')
    end.
    { apply existsb_ext_in. intros k _.
      rewrite rewind_map, <- IH, existsb_map.
      apply existsb_ext_in. intros y _. simpl. now rewrite !length_map. }
    rewrite <- Hb.
    match goal with |- map _ (if ?b then _ else _) = _ => destruct b end;
      reflexivity.
Qed.

Lemma exec_contramap (r : re B) (pre rest : list A) :
  exec r (map h pre) (map h rest)
  = option_map (map_state h) (exec (contramap h r) pre rest).
Proof.
  unfold exec. rewrite <- head_map, matches_contramap. reflexivity.
Qed.

Lemma found_of_map (pre rest : list A) (y : state A) :
  found_of (map h pre) (map h rest) (map_state h y)
  = map_found h (found_of pre rest y).
Proof.
  unfold found_of, map_found. simpl. f_equal.
  apply (between_map (mkState pre rest []) y).
Qed.

End Naturality.

Section Replace.
Context {A B S : Type} (keep : A -> B) (r : re A)
  (f : found A -> S -> list B * S).

(** What the replacement leaves of a text, seen through a map [k] of
    its characters to lists, when each match is replaced by something
    that looks the same through [k]. *)
Lemma replace_loop_flat_map {X : Type} (k : B -> list X) :
  (forall pre rest y st,
     exec r pre rest = Some y ->
     flat_map k (fst (f (found_of pre rest y) st))
     = flat_map k (map keep (matched (found_of pre rest y)))) ->
  forall rest pre skip st,
    flat_map k (fst (replace_loop keep r f pre rest skip st))
    = flat_map k (map keep (drop skip rest)).
Proof.
  intros Hf. induction rest as [|c t IH]; intros pre skip st.
  - destruct skip as [|skip]; simpl; [|reflexivity].
    destruct (exec r pre []) as [y|] eqn:Hy; [|reflexivity].
    specialize (Hf pre [] y st Hy).
    pose proof (exec_matched _ _ _ _ Hy) as Hm.
    symmetry in Hm. apply app_eq_nil in Hm as [Hm _].
    rewrite Hm in Hf.
    destruct (f (found_of pre [] y) st) as [out st1]. exact Hf.
  - destruct skip as [|skip]; [|simpl; apply IH].
    cbn [replace_loop drop].
    destruct (exec r pre (c :: t)) as [y|] eqn:Hy.
    + specialize (Hf pre (c :: t) y st Hy).
      pose proof (exec_matched _ _ _ _ Hy) as Hm.
      destruct (f (found_of pre (c :: t) y) st) as [out st1]. cbn [fst] in Hf.
      destruct (matched (found_of pre (c :: t) y)) as [|c' m'] eqn:Hmatched;
        cbn [length].
      * specialize (IH (c :: pre) O st1).
        destruct (replace_loop keep r f (c :: pre) t 0 st1) as [o2 st2].
        cbn [fst drop] in *. rewrite flat_map_app, Hf. simpl. now rewrite IH.
      * specialize (IH (c :: pre) (length m') st1).
        destruct (replace_loop keep r f (c :: pre) t (length m') st1) as [o2 st2].
        cbn [fst] in *. rewrite flat_map_app, Hf, IH.
        injection Hm as Hc Ht. rewrite Ht, drop_app_length.
        cbn [drop map flat_map]. rewrite map_app, flat_map_app, Hc.
        now rewrite app_assoc.
    + specialize (IH (c :: pre) O st).
      destruct (replace_loop keep r f (c :: pre) t 0 st) as [o2 st1].
      simpl in *. now rewrite IH.
Qed.

End Replace.

Section ReplaceChars.
Context {A B S : Type} (keep : A -> B) (p : A -> bool)
  (f : found A -> S -> list B * S).

Lemma exec_class (pre : list A) (c : A) (t : list A) :
  exec (Class p) pre (c :: t)
  = if p c then Some (mkState (c :: pre) t []) else None.
Proof. unfold exec. simpl. destruct (p c); reflexivity. Qed.

Lemma found_of_class (pre : list A) (c : A) (t : list A) :
  found_of pre (c :: t) (mkState (c :: pre) t []) = mkFound [c] [].
Proof.
  unfold found_of. simpl. f_equal.
  apply (between_app (mkState pre (c :: t) []) (mkState (c :: pre) t []) [c]).
  reflexivity.
Qed.

(** A pattern of one class replaces character by character. *)
Lemma replace_loop_class (rest : list A) :
  forall pre st,
    replace_loop keep (Class p) f pre rest 0 st
    = replace_chars keep p f rest st.
Proof.
  induction rest as [|c t IH]; intros pre st; [reflexivity|].
  cbn [replace_loop replace_chars]. rewrite exec_class.
  destruct (p c).
  - rewrite found_of_class. destruct (f (mkFound [c] []) st) as [out st1].
    cbn [matched length]. now rewrite IH.
  - now rewrite IH.
Qed.

End ReplaceChars.

Lemma replace_all_class {A : Type} (p : A -> bool) (s : list A) (text : list A) :
  replace_all (Class p) (fun _ => s) text
  = flat_map (fun c => if p c then s else [c]) text.
Proof.
  unfold replace_all, replace_all_with. rewrite replace_loop_class.
  induction text as [|c t IH]; [reflexivity|].
  cbn [replace_chars flat_map]. destruct (p c).
  - destruct (replace_chars (fun c => c) p (fun _ (_ : unit) => (s, tt)) t tt)
      as [o2 st2] eqn:Ho. simpl in *. now rewrite IH.
  - destruct (replace_chars (fun c => c) p (fun _ (_ : unit) => (s, tt)) t tt)
      as [o2 st2] eqn:Ho. simpl in *. now rewrite IH.
Qed.

Section ReplaceNatural.
Context {A B S : Type} (h : A -> B) (r : re B)
  (f : found A -> S -> list A * S) (f' : found B -> S -> list B * S).

(** Replacing in the text read through [h] is replacing with the
    pattern read through [h], when the replacements agree. *)
Lemma replace_loop_contramap :
  (forall m st, f' (map_found h m) st = (map h (fst (f m st)), snd (f m st))) ->
  forall rest pre skip st,
    replace_loop (fun b => b) r f' (map h pre) (map h rest) skip st
    = (map h (fst (replace_loop (fun a => a) (contramap h r) f pre rest skip st)),
       snd (replace_loop (fun a => a) (contramap h r) f pre rest skip st)).
Proof.
  intros Hf. induction rest as [|c t IH]; intros pre skip st.
  - destruct skip as [|skip]; [|reflexivity].
    pose proof (exec_contramap h r pre []) as He.
    pose proof (found_of_map h pre []) as Hfound.
    cbn [replace_loop map] in *. rewrite He.
    destruct (exec (contramap h r) pre []) as [y|]; [|reflexivity].
    cbn [option_map]. rewrite Hfound, Hf.
    destruct (f (found_of pre [] y) st) as [out st1]. reflexivity.
  - destruct skip as [|skip]; [|apply (IH (c :: pre))].
    pose proof (exec_contramap h r pre (c :: t)) as He.
    pose proof (found_of_map h pre (c :: t)) as Hfound.
    cbn [replace_loop map] in *. rewrite He.
    destruct (exec (contramap h r) pre (c :: t)) as [y|].
    + cbn [option_map]. rewrite Hfound, Hf.
      destruct (f (found_of pre (c :: t) y) st) as [out st1].
      cbn [fst snd map_found matched]. rewrite length_map.
      destruct (length (matched (found_of pre (c :: t) y))) as [|k].
      * pose proof (IH (c :: pre) O st1) as IH'. cbn [map] in IH'.
        rewrite IH'.
        destruct (replace_loop (fun a => a) (contramap h r) f (c :: pre) t 0 st1).
        simpl. now rewrite map_app.
      * pose proof (IH (c :: pre) k st1) as IH'. cbn [map] in IH'.
        rewrite IH'.
        destruct (replace_loop (fun a => a) (contramap h r) f (c :: pre) t k st1).
        simpl. now rewrite map_app.
    + cbn [option_map].
      pose proof (IH (c :: pre) O st) as IH'. cbn [map] in IH'.
      rewrite IH'.
      destruct (replace_loop (fun a => a) (contramap h r) f (c :: pre) t 0 st).
      reflexivity.
Qed.

End ReplaceNatural.

Lemma replace_all_contramap {A B : Type} (h : A -> B) (r : re B)
    (f : found A -> list A) (f' : found B -> list B) (s : list A) :
  (forall m, f' (map_found h m) = map h (f m)) ->
  replace_all r f' (map h s) = map h (replace_all (contramap h r) f s).
Proof.
  intros Hf. unfold replace_all, replace_all_with.
  change (@nil B) with (map h []).
  rewrite (replace_loop_contramap h r (fun m (_ : unit) => (f m, tt))).
  - reflexivity.
  - intros m st. simpl. now rewrite Hf.
Qed.

Lemma cap_of_map {A B : Type} (h : A -> B) (cs : list (nat * list A)) (i : nat) :
  cap_of (map_caps h cs) i = map h (cap_of cs i).
Proof.
  induction cs as [|[j v] cs IH]; simpl; [reflexivity|].
  destruct (Nat.eqb i j); [reflexivity | exact IH].
Qed.

End RegexFacts.

(** ** The escaping step *)

Module EscapeFacts.
Import Regex RegexFacts FormatDiagnostic Tokens.

(** The placeholders and the blocks held aside are the tokens of the
    text, read as code units and as blocks. *)
Lemma placeholders_tokens (r : re JS.char) (rest : JS.jsstring) :
  forall pre skip (codeBlocks : list JS.jsstring),
    replace_loop (fun c => c) r
      (fun m codeBlocks => ([NUL], codeBlocks ++ [matched m]))
      pre rest skip codeBlocks
    = (map encode
         (fst (replace_loop Chr r
                 (fun m (_ : unit) => ([Block (matched m)], tt))
                 pre rest skip tt)),
       codeBlocks
       ++ blocks_of
            (fst (replace_loop Chr r
                    (fun m (_ : unit) => ([Block (matched m)], tt))
                    pre rest skip tt))).
Proof.
  induction rest as [|c t IH]; intros pre skip codeBlocks.
  - destruct skip as [|skip]; cbn [replace_loop].
    + destruct (exec r pre []) as [y|]; simpl; now rewrite ?app_nil_r.
    + simpl. now rewrite app_nil_r.
  - destruct skip as [|skip]; cbn [replace_loop]; [|apply IH].
    destruct (exec r pre (c :: t)) as [y|].
    + destruct (length (matched (found_of pre (c :: t) y))) as [|k];
        rewrite IH;
        match goal with
        | |- context [replace_loop Chr r ?f ?p t ?s tt] =>
            destruct (replace_loop Chr r f p t s tt) as [o2 u]
        end; simpl; now rewrite <- app_assoc.
    + rewrite IH.
      destruct (replace_loop Chr r
                  (fun m (_ : unit) => ([Block (matched m)], tt))
                  (c :: pre) t 0 tt) as [o2 u].
      reflexivity.
Qed.

(** The tokens of a text that are single code units are code units of
    the text. *)
Lemma tokens_chars (r : re JS.char) (c : JS.char) (rest : JS.jsstring) :
  forall pre skip,
    In (Chr c)
      (fst (replace_loop Chr r
              (fun m (_ : unit) => ([Block (matched m)], tt)) pre rest skip tt)) ->
    In c rest.
Proof.
  induction rest as [|c' t IH]; intros pre skip Hin.
  - destruct skip as [|skip]; cbn [replace_loop] in Hin.
    + destruct (exec r pre []) as [y|]; simpl in Hin.
      * destruct Hin as [Hin|[]]. discriminate.
      * contradiction.
    + contradiction.
  - destruct skip as [|skip]; cbn [replace_loop] in Hin.
    + destruct (exec r pre (c' :: t)) as [y|].
      * destruct (length (matched (found_of pre (c' :: t) y))) as [|k];
          match type of Hin with
          | context [replace_loop Chr r ?f ?p t ?s tt] =>
              specialize (IH p s);
              destruct (replace_loop Chr r f p t s tt) as [o2 u]
          end; simpl in Hin, IH.
        -- destruct Hin as [Hin|[Hin|Hin]]; [discriminate| |].
           ++ injection Hin as ->. now left.
           ++ right. now apply IH.
        -- destruct Hin as [Hin|Hin]; [discriminate|]. right. now apply IH.
      * specialize (IH (c' :: pre) O).
        destruct (replace_loop Chr r
                    (fun m (_ : unit) => ([Block (matched m)], tt))
                    (c' :: pre) t 0 tt) as [o2 u].
        simpl in Hin, IH. destruct Hin as [Hin|Hin].
        -- injection Hin as ->. now left.
        -- right. now apply IH.
    + right. eapply IH, Hin.
Qed.

Lemma tokens_nul_free (text : JS.jsstring) :
  ~ In NUL text -> Forall (fun t => t <> Chr NUL) (tokens text).
Proof.
  intros Hnul. apply List.Forall_forall. intros t Ht ->.
  apply Hnul. eapply tokens_chars. exact Ht.
Qed.

(** The tokens of a text spell the text. *)
Lemma render_tokens (text : JS.jsstring) : render (tokens text) = text.
Proof.
  unfold render, tokens.
  rewrite (replace_loop_flat_map Chr codeBlockRegex).
  - rewrite skipn_O.
    induction text as [|c t IH]; simpl; [reflexivity|]. now rewrite IH.
  - intros pre rest y st _. simpl. rewrite app_nil_r.
    induction (between (mkState pre rest []) y) as [|c t IH]; simpl;
      [reflexivity|]. now rewrite <- IH.
Qed.

(** Putting the blocks back in place of the placeholders spells the
    tokens, when no token is the placeholder itself. *)
Lemma restore_blocks (toks : list token) :
  Forall (fun t => t <> Chr NUL) toks ->
  forall extra,
    replace_chars (fun c => c) (N.eqb NUL)
      (fun _ codeBlocks => shift_or_empty codeBlocks)
      (map encode toks) (blocks_of toks ++ extra)
    = (render toks, extra).
Proof.
  induction 1 as [|t toks Ht _ IH]; intros extra; [reflexivity|].
  destruct t as [c|b]; cbn [map encode replace_chars].
  - destruct (N.eqb_spec NUL c) as [<-|_]; [contradiction|].
    change (blocks_of (Chr c :: toks)) with (blocks_of toks).
    rewrite IH. reflexivity.
  - change (NUL =? NUL) with true. cbn iota.
    change (blocks_of (Block b :: toks) ++ extra)
      with (b :: (blocks_of toks ++ extra)).
    cbn [shift_or_empty]. rewrite IH. reflexivity.
Qed.

Lemma escapeAngles_encode (toks : list token) :
  replace_all gtRegex (fun _ => [backslash; gt])
    (replace_all ltRegex (fun _ => [backslash; lt]) (map encode toks))
  = map encode (escapeAngles toks).
Proof.
  unfold gtRegex, ltRegex, escapeAngles. rewrite !replace_all_class.
  induction toks as [|t toks IH]; [reflexivity|].
  cbn [map flat_map]. rewrite flat_map_app, map_app, IH. f_equal.
  destruct t as [c|b]; [|reflexivity].
  cbn [encode escapeAngle]. rewrite (N.eqb_sym lt c).
  destruct (c =? lt) eqn:Hlt; [reflexivity|].
  cbn [flat_map]. rewrite (N.eqb_sym gt c).
  destruct (c =? gt); reflexivity.
Qed.

Lemma escapeAngles_blocks (toks : list token) :
  blocks_of (escapeAngles toks) = blocks_of toks.
Proof.
  unfold blocks_of, escapeAngles.
  induction toks as [|t toks IH]; [reflexivity|].
  cbn [flat_map]. rewrite flat_map_app, IH. f_equal.
  destruct t as [c|b]; [|reflexivity]. simpl.
  destruct (c =? lt); [reflexivity|]. destruct (c =? gt); reflexivity.
Qed.

Lemma escapeAngles_nul_free (toks : list token) :
  Forall (fun t => t <> Chr NUL) toks ->
  Forall (fun t => t <> Chr NUL) (escapeAngles toks).
Proof.
  unfold escapeAngles. induction 1 as [|t toks Ht _ IH]; [constructor|].
  cbn [flat_map]. apply Forall_app. split; [|exact IH].
  destruct t as [c|b]; simpl.
  - destruct (c =? lt); [repeat constructor; discriminate|].
    destruct (c =? gt); repeat constructor; try discriminate. exact Ht.
  - repeat constructor. discriminate.
Qed.

Lemma is_backtick_eq (t : token) : is_backtick t = true -> t = Chr backtick.
Proof.
  destruct t as [c|b]; unfold is_backtick; cbn [encode].
  - intros Hc. apply N.eqb_eq in Hc. now subst.
  - discriminate.
Qed.

(** A match of a pattern of the form [d(body)d]: a delimiter, what the
    group took, a delimiter. *)
Lemma matches_delimited {A : Type} (d : A -> bool) (body : re A)
    (x y : state A) :
  In y (matches (Seq (Class d) (Seq (Group 1 body) (Class d))) x) ->
  exists c g c',
    after x = c :: g ++ c' :: after y
    /\ d c = true /\ d c' = true /\ cap y 1 = g.
Proof.
  cbn [matches]. intros Hin.
  apply in_flat_map in Hin. destruct Hin as (z1 & Hz1 & Hin).
  destruct (after x) as [|c t] eqn:Hx; [contradiction|].
  destruct (d c) eqn:Hc; [|contradiction].
  destruct Hz1 as [<-|[]].
  apply in_flat_map in Hin. destruct Hin as (z2 & Hz2 & Hin).
  apply in_map_iff in Hz2. destruct Hz2 as (z & <- & Hz).
  destruct (matches_extends body _ _ Hz) as (g & Hg & _).
  cbn [after set_cap] in Hin, Hg.
  destruct (after z) as [|c' t'] eqn:Hz'; [contradiction|].
  destruct (d c') eqn:Hc'; [|contradiction].
  destruct Hin as [<-|[]].
  exists c, g, c'. cbn [after cap caps cap_of Nat.eqb].
  repeat split; try assumption.
  - now rewrite Hg.
  - apply (between_app (mkState (c :: before x) t (caps x)) z g).
    simpl. now rewrite Hz'.
Qed.

Lemma exec_span (pre rest : list token) (y : state token) :
  exec spanRegex pre rest = Some y ->
  exists g,
    matched (found_of pre rest y) = Chr backtick :: g ++ [Chr backtick]
    /\ group (found_of pre rest y) 1 = g.
Proof.
  unfold exec. intros Hy.
  assert (Hin : In y (matches spanRegex (mkState pre rest []))).
  { destruct (matches spanRegex (mkState pre rest [])); [discriminate|].
    injection Hy as ->. now left. }
  apply matches_delimited in Hin.
  destruct Hin as (c & g & c' & Hrest & Hc & Hc' & Hg).
  apply is_backtick_eq in Hc, Hc'. subst c c'. cbn [after] in Hrest.
  exists g. split; [|exact Hg].
  unfold found_of. cbn [matched].
  apply (between_app (mkState pre rest []) y (Chr backtick :: g ++ [Chr backtick])).
  cbn [after]. rewrite Hrest. simpl. now rewrite <- app_assoc.
Qed.

(** Recolouring keeps whatever the marker and the backticks hold none of. *)
Lemma recolor_flat_map {X : Type} (k : token -> list X) (toks : list token) :
  k (Chr backtick) = [] ->
  flat_map k (map Chr (ESC :: JS.lit "[1;34m")) = [] ->
  flat_map k (map Chr (ESC :: JS.lit "[0m")) = [] ->
  flat_map k (recolor toks) = flat_map k toks.
Proof.
  intros Hb Hopen Hclose. unfold recolor, replace_all, replace_all_with.
  rewrite (replace_loop_flat_map (fun t => t) spanRegex).
  - simpl. now rewrite map_id.
  - intros pre rest y st Hy. destruct (exec_span _ _ _ Hy) as (g & Hm & Hg).
    cbn [fst]. unfold highlightSpan. rewrite Hg, Hm, map_id.
    rewrite !flat_map_app, Hopen, Hclose. cbn [flat_map app].
    now rewrite flat_map_app, Hb; cbn [flat_map]; rewrite Hb.
Qed.

Lemma recolor_blocks (toks : list token) :
  blocks_of (recolor toks) = blocks_of toks.
Proof. apply recolor_flat_map; reflexivity. Qed.

Lemma nul_free_marks (toks : list token) :
  Forall (fun t => t <> Chr NUL) toks <-> flat_map placeholder_mark toks = [].
Proof.
  induction toks as [|t toks IH]; cbn [flat_map].
  - split; [reflexivity | constructor].
  - destruct t as [c|b]; cbn [placeholder_mark].
    + destruct (N.eqb_spec c NUL) as [->|Hc]; cbn [app].
      * split; [|discriminate]. intros Hall. inversion Hall. congruence.
      * rewrite <- IH. split.
        -- intros Hall. now inversion Hall.
        -- intros Hall. constructor; [congruence | assumption].
    + cbn [app]. rewrite <- IH. split.
      * intros Hall. now inversion Hall.
      * intros Hall. constructor; [discriminate | assumption].
Qed.

Lemma recolor_nul_free (toks : list token) :
  Forall (fun t => t <> Chr NUL) toks ->
  Forall (fun t => t <> Chr NUL) (recolor toks).
Proof.
  intros Hall. apply nul_free_marks in Hall. apply nul_free_marks.
  rewrite recolor_flat_map; [exact Hall | reflexivity..].
Qed.

Lemma recolor_encode (toks : list token) :
  replace_all backtickRegex highlight (map encode toks)
  = map encode (recolor toks).
Proof.
  unfold recolor.
  change spanRegex with (contramap encode backtickRegex).
  apply replace_all_contramap. intros m.
  unfold highlight, highlightSpan, group. cbn [map_found groups].
  rewrite cap_of_map, !map_app, !map_map. cbn [encode].
  now rewrite !map_id.
Qed.

(** On a text without the placeholder character, the escaping step
    computes what is stated on tokens. *)
Lemma replaceBackticksExceptCodeBlocks_escaped (text : JS.jsstring) :
  ~ In NUL text ->
  replaceBackticksExceptCodeBlocks text = escaped text.
Proof.
  intros Hnul. unfold replaceBackticksExceptCodeBlocks, replace_all_with.
  rewrite placeholders_tokens. fold (tokens text). cbn [app].
  unfold nulRegex.
  rewrite escapeAngles_encode, recolor_encode, replace_loop_class.
  rewrite <- (escapeAngles_blocks (tokens text)).
  rewrite <- (recolor_blocks (escapeAngles (tokens text))).
  rewrite <- (app_nil_r (blocks_of _)).
  rewrite restore_blocks; [reflexivity|].
  apply recolor_nul_free, escapeAngles_nul_free, tokens_nul_free, Hnul.
Qed.

End EscapeFacts.

(** ** Matches that do not look back *)

Module ForwardFacts.
Import Regex RegexFacts.

Section Forward.
Context {A : Type}.
Implicit Types (r : re A) (x y : state A).

Lemma Forall2_flat_map {X Y : Type} (R : X -> Y -> Prop)
    (Q : state A -> state A -> Prop)
    (F : X -> list (state A)) (G : Y -> list (state A)) l l' :
  (forall a b, R a b -> Forall2 Q (F a) (G b)) ->
  Forall2 R l l' -> Forall2 Q (flat_map F l) (flat_map G l').
Proof.
  intros HFG. induction 1 as [|a b l l' Hab _ IH]; simpl; [constructor|].
  apply Forall2_app; [now apply HFG | exact IH].
Qed.

Lemma same_ahead_between x x' y y' :
  same_ahead x x' -> same_ahead y y' -> between x y = between x' y'.
Proof. intros [Hx _] [Hy _]. unfold between. now rewrite Hx, Hy. Qed.

Lemma rounds_forward (body : state A -> list (state A)) g n :
  (forall x x', same_ahead x x' -> Forall2 same_ahead (body x) (body x')) ->
  forall x x', same_ahead x x' ->
    Forall2 same_ahead (rounds body g n x) (rounds body g n x').
Proof.
  intros Hbody. induction n as [|n IH]; intros x x' Hx; simpl.
  - constructor; [exact Hx | constructor].
  - assert (Hmore :
      Forall2 same_ahead
        (flat_map (fun y => if (length (after y) <? length (after x))%nat
                            then rounds body g n y else []) (body x))
        (flat_map (fun y => if (length (after y) <? length (after x'))%nat
                            then rounds body g n y else []) (body x'))).
    { apply (Forall2_flat_map same_ahead); [|now apply Hbody].
      intros y y' Hy. destruct Hx as [Hx _]. destruct (Hy) as [Hy' _].
      rewrite Hx, Hy'.
      destruct (length (after y') <? length (after x'))%nat;
        [now apply IH | constructor]. }
    destruct g.
    + apply Forall2_app; [exact Hmore |].
      constructor; [exact Hx | constructor].
    + constructor; [exact Hx | exact Hmore].
Qed.

(** The matches of a pattern that does not look back are the same
    whatever came before. *)
Lemma matches_forward r :
  forward r = true ->
  forall x x', same_ahead x x' ->
    Forall2 same_ahead (matches r x) (matches r x').
Proof.
  induction r as [|p|r1 IH1 r2 IH2|r1 IH1 r2 IH2|g r IH|i r IH| |r IH];
    cbn [forward]; intros Hf x x' Hx; cbn [matches];
    try discriminate.
  - constructor; [exact Hx | constructor].
  - destruct Hx as [Ha Hc]. rewrite Ha.
    destruct (after x') as [|c t]; [constructor|].
    destruct (p c); [|constructor].
    constructor; [|constructor]. split; [reflexivity | exact Hc].
  - apply andb_true_iff in Hf as [Hf1 Hf2].
    apply (Forall2_flat_map same_ahead); [|now apply IH1].
    intros y y' Hy. now apply IH2.
  - apply andb_true_iff in Hf as [Hf1 Hf2].
    apply Forall2_app; [now apply IH1 | now apply IH2].
  - destruct (Hx) as [Ha _]. rewrite Ha.
    apply rounds_forward; [|exact Hx]. intros y y' Hy. now apply IH.
  - specialize (IH Hf x x' Hx).
    induction IH as [|y y' l l' Hy _ IHl]; simpl; constructor; [|exact IHl].
    destruct (Hy) as [Hya Hyc]. split; simpl; [exact Hya|].
    now rewrite (same_ahead_between x x' y y' Hx Hy), Hyc.
Qed.

Lemma exec_forward r (pre pre' rest : list A) :
  forward r = true ->
  match exec r pre rest, exec r pre' rest with
  | Some y, Some y' => found_of pre rest y = found_of pre' rest y'
  | None, None => True
  | _, _ => False
  end.
Proof.
  intros Hf. unfold exec.
  pose proof (matches_forward r Hf (mkState pre rest []) (mkState pre' rest [])
                (conj eq_refl eq_refl)) as Hall.
  destruct Hall as [|y y' l l' Hy _]; simpl; [exact I|].
  unfold found_of. f_equal.
  - apply same_ahead_between; [split; reflexivity | exact Hy].
  - apply Hy.
Qed.

(** So the replacement of the rest of a text does not depend on what
    came before it. *)
Lemma replace_loop_forward {B S : Type} (keep : A -> B) r
    (f : found A -> S -> list B * S) :
  forward r = true ->
  forall rest pre pre' skip st,
    replace_loop keep r f pre rest skip st
    = replace_loop keep r f pre' rest skip st.
Proof.
  intros Hf. induction rest as [|c t IH]; intros pre pre' skip st.
  - destruct skip as [|skip]; [|reflexivity]. cbn [replace_loop].
    pose proof (exec_forward r pre pre' [] Hf) as He.
    destruct (exec r pre []), (exec r pre' []); try contradiction;
      [now rewrite He | reflexivity].
  - destruct skip as [|skip]; cbn [replace_loop]; [|apply IH].
    pose proof (exec_forward r pre pre' (c :: t) Hf) as He.
    destruct (exec r pre (c :: t)) as [y|], (exec r pre' (c :: t)) as [y'|];
      try contradiction.
    + rewrite He. destruct (f (found_of pre' (c :: t) y') st) as [out st1].
      destruct (length (matched (found_of pre' (c :: t) y')));
        now rewrite (IH (c :: pre) (c :: pre')).
    + now rewrite (IH (c :: pre) (c :: pre')).
Qed.

(** Stepping over the characters of a match. *)
Lemma replace_loop_skip {B S : Type} (keep : A -> B) r
    (f : found A -> S -> list B * S) (m : list A) :
  forward r = true ->
  forall rest pre st,
    replace_loop keep r f pre (m ++ rest) (length m) st
    = replace_loop keep r f [] rest 0 st.
Proof.
  intros Hf. induction m as [|c m IH]; intros rest pre st.
  - now apply replace_loop_forward.
  - apply IH.
Qed.

(** The leftmost match of a text: what comes before it is kept, the
    match is replaced, and the replacement goes on after it. *)
Lemma replace_all_step r (f : found A -> list A) (pre m post : list A)
    (y : state A) :
  forward r = true ->
  (forall p1 c p2, pre = p1 ++ c :: p2 ->
     exec r [] (c :: p2 ++ m ++ post) = None) ->
  exec r [] (m ++ post) = Some y ->
  matched (found_of [] (m ++ post) y) = m ->
  m <> [] ->
  replace_all r f (pre ++ m ++ post)
  = pre ++ f (found_of [] (m ++ post) y) ++ replace_all r f post.
Proof.
  intros Hf Hpre Hy Hm Hne. unfold replace_all, replace_all_with.
  induction pre as [|c pre IH].
  - destruct m as [|c m]; [contradiction|].
    cbn [app replace_loop]. cbn [app] in Hy, Hm. rewrite Hy, Hm.
    cbn [length].
    rewrite (replace_loop_skip (fun a => a) r _ m Hf post [c] tt).
    destruct (replace_loop (fun a => a) r
                (fun m0 (_ : unit) => (f m0, tt)) [] post 0 tt).
    reflexivity.
  - cbn [app replace_loop].
    rewrite (Hpre [] c pre eq_refl).
    rewrite (replace_loop_forward (fun a => a) r _ Hf _ [c] [] 0 tt).
    specialize (IH (fun p1 c' p2 Hp => Hpre (c :: p1) c' p2
                      (f_equal (cons c) Hp))).
    destruct (replace_loop (fun a => a) r
                (fun m0 (_ : unit) => (f m0, tt)) [] (pre ++ m ++ post) 0 tt).
    cbn [fst] in *. now rewrite IH.
Qed.

Lemma replace_all_leftmost r (f : found A -> list A) (pre m post : list A)
    (y : state A) :
  forward r = true ->
  leftmost r pre m post y ->
  replace_all r f (pre ++ m ++ post)
  = pre ++ f (found_of [] (m ++ post) y) ++ replace_all r f post.
Proof.
  intros Hf (Hpre & Hy & Hm & Hne). now apply replace_all_step.
Qed.

End Forward.

Section Search.
Context {A : Type}.

(** A text in which the pattern matches nowhere is left as it is. *)
Lemma replace_loop_search_none {B S : Type} (keep : A -> B) (r : re A)
    (f : found A -> S -> list B * S) (rest : list A) :
  forall pre st,
    search_loop r pre rest = None ->
    replace_loop keep r f pre rest 0 st = (map keep rest, st).
Proof.
  induction rest as [|c t IH]; intros pre st; cbn [search_loop replace_loop];
    destruct (exec r pre _); try discriminate; [reflexivity|].
  intros Hnone. now rewrite IH.
Qed.

Lemma replace_all_search_none (r : re A) (f : found A -> list A) (s : list A) :
  search r s = None -> replace_all r f s = s.
Proof.
  unfold search, replace_all, replace_all_with. intros Hnone.
  rewrite replace_loop_search_none by exact Hnone. apply map_id.
Qed.

Lemma replace_first_search_none (r : re A) (f : found A -> list A) (s : list A) :
  search r s = None -> replace_first r f s = s.
Proof.
  unfold search, replace_first. generalize (@nil A) as pre.
  induction s as [|c t IH]; intros pre;
    cbn [search_loop replace_first_loop];
    destruct (exec r pre _); try discriminate; [reflexivity|].
  intros Hnone. now rewrite IH.
Qed.

End Search.


End ForwardFacts.

(** ** Matching step by step *)

Module StepFacts.
Import Regex RegexFacts.

Section Steps.
Context {A : Type}.
Implicit Types (p q : A -> bool) (b t m : list A) (cs : list (nat * list A)).

Lemma matches_seq (r1 r2 : re A) (x : state A) :
  matches (Seq r1 r2) x = flat_map (matches r2) (matches r1 x).
Proof. reflexivity. Qed.

Lemma matches_group i (r : re A) (x : state A) :
  matches (Group i r) x
  = map (fun y => set_cap i (between x y) y) (matches r x).
Proof. reflexivity. Qed.

Lemma matches_alt (r1 r2 : re A) (x : state A) :
  matches (Alt r1 r2) x = matches r1 x ++ matches r2 x.
Proof. reflexivity. Qed.

Lemma matches_class_cons p b c t cs :
  matches (Class p) (mkState b (c :: t) cs)
  = if p c then [mkState (c :: b) t cs] else [].
Proof. reflexivity. Qed.

Lemma star_class_nil g p b cs :
  matches (Star g (Class p)) (mkState b [] cs) = [mkState b [] cs].
Proof. reflexivity. Qed.

(** A star over a class reads one character and goes on, or stops. *)
Lemma star_class_cons g p b c t cs :
  matches (Star g (Class p)) (mkState b (c :: t) cs)
  = if p c
    then if g
         then matches (Star g (Class p)) (mkState (c :: b) t cs)
              ++ [mkState b (c :: t) cs]
         else mkState b (c :: t) cs
              :: matches (Star g (Class p)) (mkState (c :: b) t cs)
    else [mkState b (c :: t) cs].
Proof.
  cbn [matches after length rounds before caps].
  destruct (p c); cbn [flat_map after length].
  - rewrite (proj2 (Nat.ltb_lt (length t) (S (length t))) (Nat.lt_succ_diag_r _)).
    rewrite app_nil_r. reflexivity.
  - destruct g; reflexivity.
Qed.

(** A greedy star first tries what follows it after the whole run. *)
Lemma greedy_first {X : Type} p (K : state A -> list X) m :
  Forall (fun c => p c = true) m ->
  forall b t cs,
    match t with [] => True | c :: _ => p c = false end ->
    exists l,
      flat_map K (matches (Star true (Class p)) (mkState b (m ++ t) cs))
      = K (mkState (rev m ++ b) t cs) ++ l.
Proof.
  induction 1 as [|c m Hc _ IH]; intros b t cs Ht; cbn [app rev].
  - exists []. destruct t as [|c t].
    + rewrite star_class_nil. reflexivity.
    + rewrite star_class_cons, Ht. reflexivity.
  - rewrite star_class_cons, Hc, flat_map_app.
    destruct (IH (c :: b) t cs Ht) as (l & Hl). rewrite Hl.
    eexists. rewrite <- !app_assoc. reflexivity.
Qed.

(** A lazy star tries what follows it after each prefix of the run in
    turn, the shortest first. *)
Lemma lazy_first {X : Type} p (K : state A -> list X) m :
  Forall (fun c => p c = true) m ->
  forall b t cs,
    (forall m1 c m2, m = m1 ++ c :: m2 ->
       K (mkState (rev m1 ++ b) (c :: m2 ++ t) cs) = []) ->
    exists l,
      flat_map K (matches (Star false (Class p)) (mkState b (m ++ t) cs))
      = K (mkState (rev m ++ b) t cs) ++ l.
Proof.
  induction 1 as [|c m Hc _ IH]; intros b t cs Hearly; cbn [app rev].
  - destruct t as [|c t].
    + rewrite star_class_nil. exists []. reflexivity.
    + rewrite star_class_cons. destruct (p c); eexists; reflexivity.
  - rewrite star_class_cons, Hc. cbn [flat_map].
    pose proof (Hearly [] c m eq_refl) as Hnow. cbn [rev app] in Hnow.
    rewrite Hnow. cbn [app].
    destruct (IH (c :: b) t cs) as (l & Hl).
    + intros m1 c' m2 Hm.
      specialize (Hearly (c :: m1) c' m2 (f_equal (cons c) Hm)).
      cbn [rev] in Hearly. now rewrite <- app_assoc in Hearly.
    + rewrite Hl. eexists. rewrite <- !app_assoc. reflexivity.
Qed.



End Steps.

(** A literal matches itself, and nothing that starts otherwise. *)
Lemma matches_Lit (s : JS.jsstring) :
  forall b t cs,
    matches (Lit s) (mkState b (s ++ t) cs) = [mkState (rev s ++ b) t cs].
Proof.
  induction s as [|c s IH]; intros b t cs; [reflexivity|].
  destruct s as [|c' s].
  - cbn [Lit app rev]. rewrite matches_class_cons, N.eqb_refl. reflexivity.
  - change (Lit (c :: c' :: s)) with (Seq (Class (N.eqb c)) (Lit (c' :: s))).
    rewrite matches_seq. change ((c :: c' :: s) ++ t) with (c :: (c' :: s) ++ t).
    rewrite matches_class_cons, N.eqb_refl. cbn [flat_map].
    rewrite IH, app_nil_r. cbn [rev]. now rewrite <- !app_assoc.
Qed.

Lemma matches_Lit_other (c : JS.char) (s : JS.jsstring) b c' t cs :
  c <> c' -> matches (Lit (c :: s)) (mkState b (c' :: t) cs) = [].
Proof.
  intros Hc. apply N.eqb_neq in Hc.
  destruct s as [|c2 s]; cbn [Lit]; rewrite ?matches_seq, matches_class_cons, Hc;
    reflexivity.
Qed.

End StepFacts.

(** ** Spans and fenced blocks *)

Module SpanFacts.
Import Regex RegexFacts ForwardFacts StepFacts FormatDiagnostic Tokens EscapeFacts.

Lemma exec_span_none (pre : list token) (c : token) (rest : list token) :
  is_backtick c = false -> exec spanRegex pre (c :: rest) = None.
Proof.
  intros Hc. unfold exec, spanRegex.
  now rewrite matches_seq, matches_class_cons, Hc.
Qed.

(** A backtick, a run of tokens that are not backticks, a backtick: the
    pattern matches them, and its group holds the run. *)
Lemma exec_span_shape (pre g post : list token) :
  g <> [] ->
  Forall (fun t => is_backtick t = false) g ->
  exists y,
    exec spanRegex pre (Chr backtick :: g ++ Chr backtick :: post) = Some y
    /\ found_of pre (Chr backtick :: g ++ Chr backtick :: post) y
       = mkFound (Chr backtick :: g ++ [Chr backtick]) [(1%nat, g)].
Proof.
  intros Hne Hg. destruct g as [|c g]; [contradiction|].
  inversion Hg as [|c' g' Hc Hg']; subst.
  assert (Hrun : Forall (fun t => negb (encode t =? backtick) = true) g).
  { eapply List.Forall_impl; [|exact Hg']. intros t Ht. cbv beta.
    unfold is_backtick in Ht. now rewrite N.eqb_sym, Ht. }
  assert (Hc' : negb (encode c =? backtick) = true).
  { unfold is_backtick in Hc. now rewrite N.eqb_sym, Hc. }
  unfold exec, spanRegex.
  rewrite matches_seq, matches_class_cons.
  change (is_backtick (Chr backtick)) with true. cbn iota.
  cbn [flat_map]. rewrite app_nil_r, matches_seq, matches_group, flat_map_map.
  unfold Plus. rewrite matches_seq. cbn [app].
  rewrite matches_class_cons, Hc'. cbn [flat_map]. rewrite app_nil_r.
  destruct (greedy_first (fun t => negb (encode t =? backtick))
              (fun y => matches (Class is_backtick)
                          (set_cap 1
                             (between
                                (mkState (Chr backtick :: pre)
                                   (c :: g ++ Chr backtick :: post) []) y) y))
              g Hrun (c :: Chr backtick :: pre) (Chr backtick :: post) [])
    as (l & Hl); [reflexivity|].
  cbn [app] in Hl. rewrite Hl. clear Hl.
  unfold set_cap at 1. cbn [before after caps].
  rewrite matches_class_cons.
  change (is_backtick (Chr backtick)) with true. cbn iota.
  eexists. split; [reflexivity|].
  unfold found_of. cbn [caps]. f_equal.
  - apply between_app. cbn [after app]. now rewrite <- app_assoc.
  - f_equal. f_equal. apply between_app. reflexivity.
Qed.

(** The first span of a text is recoloured, and the recolouring goes on
    after it. *)
Lemma recolor_span (pre g post : list token) :
  Forall (fun t => is_backtick t = false) pre ->
  g <> [] ->
  Forall (fun t => is_backtick t = false) g ->
  recolor (pre ++ (Chr backtick :: g ++ [Chr backtick]) ++ post)
  = pre ++ (map Chr (ESC :: JS.lit "[1;34m") ++ g ++ map Chr (ESC :: JS.lit "[0m"))
    ++ recolor post.
Proof.
  intros Hpre Hne Hg.
  destruct (exec_span_shape [] g post Hne Hg) as (y & Hy & Hfound).
  assert (Hshape : (Chr backtick :: g ++ [Chr backtick]) ++ post
                   = Chr backtick :: g ++ Chr backtick :: post).
  { cbn [app]. now rewrite <- app_assoc. }
  unfold recolor.
  rewrite (replace_all_step spanRegex highlightSpan pre
             (Chr backtick :: g ++ [Chr backtick]) post y).
  - rewrite Hshape, Hfound. reflexivity.
  - reflexivity.
  - intros p1 c p2 Hp. apply exec_span_none.
    rewrite Hp in Hpre. apply Forall_app in Hpre as [_ Hpre].
    now inversion Hpre.
  - now rewrite Hshape.
  - rewrite Hshape, Hfound. reflexivity.
  - discriminate.
Qed.

(** What a literal has matched is the literal. *)
Lemma matches_Lit_inv (s : JS.jsstring) :
  forall x y, In y (matches (Lit s) x) -> after x = s ++ after y.
Proof.
  induction s as [|c s IH]; intros x y Hin.
  - destruct Hin as [<-|[]]. reflexivity.
  - assert (Hstep : exists z, In z (matches (Class (N.eqb c)) x)
                              /\ In y (matches (Lit s) z)).
    { destruct s as [|c' s].
      - exists y. split; [exact Hin | now left].
      - change (Lit (c :: c' :: s)) with (Seq (Class (N.eqb c)) (Lit (c' :: s)))
          in Hin.
        rewrite matches_seq in Hin. apply in_flat_map in Hin. exact Hin. }
    destruct Hstep as (z & Hz & Hy).
    destruct x as [b a cs]. destruct a as [|c0 t]; [contradiction|].
    rewrite matches_class_cons in Hz.
    destruct (N.eqb_spec c c0) as [<-|_]; [|contradiction].
    destruct Hz as [<-|[]]. pose proof (IH _ _ Hy) as Ht.
    cbn [after] in *. now rewrite Ht.
Qed.

(** A match of the code block pattern begins and ends with a fence. *)
Lemma exec_codeBlock (pre rest : JS.jsstring) (y : state JS.char) :
  exec codeBlockRegex pre rest = Some y ->
  exists body, matched (found_of pre rest y) = fence ++ body ++ fence.
Proof.
  unfold exec. intros Hy.
  assert (Hin : In y (matches codeBlockRegex (mkState pre rest []))).
  { destruct (matches codeBlockRegex (mkState pre rest [])); [discriminate|].
    injection Hy as ->. now left. }
  unfold codeBlockRegex in Hin. rewrite matches_seq in Hin.
  apply in_flat_map in Hin. destruct Hin as (z1 & Hz1 & Hin).
  rewrite matches_seq in Hin.
  apply in_flat_map in Hin. destruct Hin as (z2 & Hz2 & Hin).
  apply matches_Lit_inv in Hz1, Hin.
  apply matches_extends in Hz2. destruct Hz2 as (body & Hbody & _).
  exists body. unfold found_of. cbn [matched].
  apply between_app. cbn [after] in *.
  now rewrite Hz1, Hbody, Hin, <- !app_assoc.
Qed.

(** The blocks among the tokens of a text are matches of the pattern. *)
Lemma tokens_blocks (r : re JS.char) (b : JS.jsstring) (rest : JS.jsstring) :
  forall pre skip,
    In (Block b)
      (fst (replace_loop Chr r
              (fun m (_ : unit) => ([Block (matched m)], tt)) pre rest skip tt)) ->
    exists pre' rest' y,
      exec r pre' rest' = Some y /\ b = matched (found_of pre' rest' y).
Proof.
  induction rest as [|c' t IH]; intros pre skip Hin.
  - destruct skip as [|skip]; cbn [replace_loop] in Hin.
    + destruct (exec r pre []) as [y|] eqn:Hy; simpl in Hin.
      * destruct Hin as [Hin|[]]. injection Hin as <-. eauto.
      * contradiction.
    + contradiction.
  - destruct skip as [|skip]; cbn [replace_loop] in Hin.
    + destruct (exec r pre (c' :: t)) as [y|] eqn:Hy.
      * destruct (length (matched (found_of pre (c' :: t) y))) as [|k];
          match type of Hin with
          | context [replace_loop Chr r ?f ?p t ?s tt] =>
              specialize (IH p s);
              destruct (replace_loop Chr r f p t s tt) as [o2 u]
          end; simpl in Hin, IH.
        -- destruct Hin as [Hin|[Hin|Hin]]; [|discriminate|now apply IH].
           injection Hin as <-. eauto.
        -- destruct Hin as [Hin|Hin]; [|now apply IH].
           injection Hin as <-. eauto.
      * specialize (IH (c' :: pre) O).
        destruct (replace_loop Chr r
                    (fun m (_ : unit) => ([Block (matched m)], tt))
                    (c' :: pre) t 0 tt) as [o2 u].
        simpl in Hin, IH. destruct Hin as [Hin|Hin]; [discriminate|].
        now apply IH.
    + eapply IH, Hin.
Qed.

Lemma blocks_fenced (text : JS.jsstring) :
  Forall (fun b => exists body, b = fence ++ body ++ fence)
    (blocks_of (tokens text)).
Proof.
  apply List.Forall_forall. intros b Hb.
  unfold blocks_of in Hb. apply in_flat_map in Hb.
  destruct Hb as (t & Ht & Hb). destruct t as [c|b']; [contradiction|].
  destruct Hb as [<-|[]].
  apply tokens_blocks in Ht. destruct Ht as (pre & rest & y & Hy & ->).
  eapply exec_codeBlock, Hy.
Qed.

(** The leftmost span, whatever stands before it. *)
Lemma recolor_leftmost (pre m post : list token) (y : state token) :
  leftmost spanRegex pre m post y ->
  exists g,
    m = Chr backtick :: g ++ [Chr backtick]
    /\ recolor (pre ++ m ++ post)
       = pre
         ++ (map Chr (ESC :: JS.lit "[1;34m") ++ g ++ map Chr (ESC :: JS.lit "[0m"))
         ++ recolor post.
Proof.
  intros Hleft. pose proof Hleft as (_ & Hy & Hm & _).
  destruct (exec_span _ _ _ Hy) as (g & Hmatched & Hgroup).
  exists g. split; [congruence|].
  unfold recolor.
  rewrite (replace_all_leftmost spanRegex _ pre m post y eq_refl Hleft).
  unfold highlightSpan. now rewrite Hgroup.
Qed.

End SpanFacts.

(** ** The link replacements *)

Module LinkFacts.
Import Regex RegexFacts ForwardFacts StepFacts FormatDiagnostic Links.

Lemma opt_quote_taken b t cs :
  exists l,
    matches (Opt (Class (N.eqb quote))) (mkState b (quote :: t) cs)
    = mkState (quote :: b) t cs :: l.
Proof.
  unfold Opt. rewrite matches_alt, matches_class_cons.
  eexists. reflexivity.
Qed.

Lemma opt_quote_skipped b c t cs :
  c <> quote ->
  matches (Opt (Class (N.eqb quote))) (mkState b (c :: t) cs)
  = [mkState b (c :: t) cs].
Proof.
  intros Hc. unfold Opt. rewrite matches_alt, matches_class_cons.
  destruct (N.eqb_spec quote c) as [<-|_]; [contradiction | reflexivity].
Qed.

(** The optional quote reads the quote when there is one. *)
Lemma opt_quote (q : bool) b c t cs :
  (q = false -> c <> quote) ->
  exists l,
    matches (Opt (Class (N.eqb quote))) (mkState b (quoted q ++ c :: t) cs)
    = mkState (quoted q ++ b) (c :: t) cs :: l.
Proof.
  intros Hc. destruct q; cbn [quoted app].
  - apply opt_quote_taken.
  - exists []. apply opt_quote_skipped. now apply Hc.
Qed.

(** Where the file icon and a closing bracket stand after one character
    or more, those characters begin with an icon and a bracket of their
    own, or the icon would not be read there. *)
Lemma icon_first (a : JS.char) (m2 post t : JS.jsstring) :
  a :: m2 ++ icon_file ++ 93 :: post = icon_file ++ 93 :: t ->
  exists l2, a :: m2 = icon_file ++ 93 :: l2.
Proof.
  unfold icon_file.
  destruct m2 as [|b [|c [|d [|e m2]]]]; cbn [app]; intros Heq;
    try (exfalso; congruence).
  injection Heq as -> -> -> -> -> _. exists m2. reflexivity.
Qed.

(** The lazy run before the file icon ends at the first icon. *)
Lemma link_then_icon b link post cs :
  link <> [] ->
  Forall (fun c => is_line_terminator c = false) link ->
  (forall l1 l2, link <> l1 ++ icon_file ++ 93 :: l2) ->
  exists l,
    matches (Seq (Plus false Dot) (Seq (Lit icon_file) (Class (N.eqb 93))))
      (mkState b (link ++ icon_file ++ 93 :: post) cs)
    = mkState (93 :: rev icon_file ++ rev link ++ b) post cs :: l.
Proof.
  intros Hne Hlink Hfirst. destruct link as [|c link]; [contradiction|].
  inversion Hlink as [|c' link' Hc Hlink']; subst.
  unfold Plus, Dot. rewrite !matches_seq. cbn [app].
  rewrite matches_class_cons, Hc. cbn [negb flat_map]. rewrite app_nil_r.
  destruct (lazy_first (fun c => negb (is_line_terminator c))
              (matches (Seq (Lit icon_file) (Class (N.eqb 93))))
              link) with (b := c :: b) (t := icon_file ++ 93 :: post) (cs := cs)
    as (l & Hl).
  - eapply List.Forall_impl; [|exact Hlink']. intros a Ha. cbv beta.
    now rewrite Ha.
  - intros m1 a m2 Hm.
    destruct (matches (Seq (Lit icon_file) (Class (N.eqb 93)))
                (mkState (rev m1 ++ c :: b) (a :: m2 ++ icon_file ++ 93 :: post) cs))
      as [|y ys] eqn:Hys; [reflexivity|]. exfalso.
    assert (Hin : In y (matches (Seq (Lit icon_file) (Class (N.eqb 93)))
                          (mkState (rev m1 ++ c :: b)
                             (a :: m2 ++ icon_file ++ 93 :: post) cs)))
      by (rewrite Hys; now left).
    rewrite matches_seq in Hin. apply in_flat_map in Hin as (z & Hz & Hy).
    apply SpanFacts.matches_Lit_inv in Hz. cbn [after] in Hz.
    cbn [matches] in Hy. destruct (after z) as [|c0 t0] eqn:Hz0; [destruct Hy|].
    destruct (N.eqb_spec 93 c0) as [<-|]; [|destruct Hy].
    destruct (icon_first a m2 post t0 Hz) as (l2 & Hocc).
    apply (Hfirst (c :: m1) l2). rewrite Hm. cbn [app]. f_equal.
    now rewrite Hocc.
  - rewrite Hl, matches_seq, matches_Lit. cbn [flat_map].
    rewrite matches_class_cons. cbn [N.eqb Pos.eqb app rev].
    eexists. rewrite <- !app_assoc. reflexivity.
Qed.

(** The third group: the quote if there is one, the rest of the link,
    the icon and the closing bracket. *)
Lemma third_group b (q2 : bool) link post cs :
  link <> [] ->
  Forall (fun c => is_line_terminator c = false) link ->
  (forall l1 l2, link <> l1 ++ icon_file ++ 93 :: l2) ->
  (q2 = false -> head link = Some space) ->
  exists bf l,
    matches
      (Group 3 (Seq (Opt (Class (N.eqb quote)))
                  (Seq (Plus false Dot)
                     (Seq (Lit icon_file) (Class (N.eqb 93))))))
      (mkState b (quoted q2 ++ link ++ icon_file ++ 93 :: post) cs)
    = mkState bf post ((3%nat, quoted q2 ++ link ++ icon_file ++ [93]) :: cs) :: l.
Proof.
  intros Hne Hlink Hfirst Hq2. rewrite matches_group, matches_seq.
  destruct link as [|c link]; [contradiction|].
  destruct (opt_quote q2 b c (link ++ icon_file ++ 93 :: post) cs) as (l1 & Hl1).
  { intros Hq. specialize (Hq2 Hq). injection Hq2 as ->. discriminate. }
  cbn [app] in *. rewrite Hl1. cbn [flat_map].
  destruct (link_then_icon (quoted q2 ++ b) (c :: link) post cs Hne Hlink Hfirst)
    as (l2 & Hl2).
  cbn [app] in Hl2. rewrite Hl2. cbn [app map].
  eexists. eexists. unfold set_cap at 1. cbn [before after caps].
  f_equal. f_equal. f_equal. f_equal.
  apply between_app. cbn [after].
  rewrite <- !app_assoc. cbn [app]. now rewrite <- !app_assoc.
Qed.

Lemma name_char_stops (q2 : bool) link rest :
  (q2 = false -> head link = Some space) ->
  link <> [] ->
  match quoted q2 ++ link ++ rest with
  | [] => True
  | c :: _ => is_name_char c = false
  end.
Proof.
  intros Hq2 Hne. destruct q2; [reflexivity|].
  destruct link as [|c link]; [contradiction|].
  specialize (Hq2 eq_refl). injection Hq2 as ->. reflexivity.
Qed.

(** The second group reads the whole file name, and the third follows. *)
Lemma second_and_third_group b name (q2 : bool) link post cs :
  name <> [] ->
  Forall (fun c => is_name_char c = true) name ->
  link <> [] ->
  Forall (fun c => is_line_terminator c = false) link ->
  (forall l1 l2, link <> l1 ++ icon_file ++ 93 :: l2) ->
  (q2 = false -> head link = Some space) ->
  exists bf l,
    matches
      (Seq (Group 2 (Plus true (Class (fun c => negb ((c =? quote) || (c =? space))))))
         (Group 3 (Seq (Opt (Class (N.eqb quote)))
                     (Seq (Plus false Dot)
                        (Seq (Lit icon_file) (Class (N.eqb 93)))))))
      (mkState b (name ++ quoted q2 ++ link ++ icon_file ++ 93 :: post) cs)
    = mkState bf post
        ((3%nat, quoted q2 ++ link ++ icon_file ++ [93]) :: (2%nat, name) :: cs)
      :: l.
Proof.
  intros Hname Hchars Hne Hlink Hfirst Hq2.
  destruct name as [|c name]; [contradiction|].
  inversion Hchars as [|c' name' Hc Hchars']; subst.
  rewrite matches_seq, matches_group, flat_map_map.
  change (Plus true (Class (fun c => negb ((c =? quote) || (c =? space)))))
    with (Seq (Class is_name_char) (Star true (Class is_name_char))).
  rewrite matches_seq. cbn [app].
  rewrite matches_class_cons.
  rewrite Hc. cbn [flat_map]. rewrite app_nil_r.
  destruct (greedy_first is_name_char
              (fun y =>
                 matches
                   (Group 3 (Seq (Opt (Class (N.eqb quote)))
                               (Seq (Plus false Dot)
                                  (Seq (Lit icon_file) (Class (N.eqb 93))))))
                   (set_cap 2
                      (between
                         (mkState b
                            (c :: name ++ quoted q2 ++ link ++ icon_file ++ 93 :: post)
                            cs) y) y))
              name Hchars' (c :: b)
              (quoted q2 ++ link ++ icon_file ++ 93 :: post) cs)
    as (l1 & Hl1).
  { apply name_char_stops; assumption. }
  rewrite Hl1. unfold set_cap at 1. cbn [before after caps].
  destruct (third_group (rev name ++ c :: b) q2 link post
              ((2%nat,
                between
                  (mkState b
                     (c :: name ++ quoted q2 ++ link ++ icon_file ++ 93 :: post) cs)
                  (mkState (rev name ++ c :: b)
                     (quoted q2 ++ link ++ icon_file ++ 93 :: post) cs)) :: cs)
              Hne Hlink Hfirst Hq2) as (bf & l2 & Hl2).
  rewrite Hl2. cbn [app].
  exists bf. eexists. f_equal. f_equal. f_equal. f_equal. f_equal.
  apply between_app. reflexivity.
Qed.

(** The pattern of the file link matches a file link, and its second
    group holds the file name. *)
Lemma exec_fileLink pre (q1 : bool) name (q2 : bool) link post :
  name <> [] ->
  Forall (fun c => is_name_char c = true) name ->
  link <> [] ->
  Forall (fun c => is_line_terminator c = false) link ->
  (forall l1 l2, link <> l1 ++ icon_file ++ 93 :: l2) ->
  (q2 = false -> head link = Some space) ->
  exists y,
    exec fileLinkRegex pre (fileLink q1 name q2 link ++ post) = Some y
    /\ matched (found_of pre (fileLink q1 name q2 link ++ post) y)
       = fileLink q1 name q2 link
    /\ group (found_of pre (fileLink q1 name q2 link ++ post) y) 2 = name.
Proof.
  intros Hname Hchars Hne Hlink Hfirst Hq2.
  assert (Hshape : fileLink q1 name q2 link ++ post
                   = 91 :: quoted q1 ++ name ++ quoted q2 ++ link
                           ++ icon_file ++ 93 :: post).
  { unfold fileLink. cbn [app]. rewrite <- !app_assoc. reflexivity. }
  rewrite Hshape. unfold exec, fileLinkRegex.
  rewrite matches_seq, matches_group, matches_seq, matches_class_cons.
  cbn [N.eqb Pos.eqb flat_map]. rewrite app_nil_r.
  destruct name as [|c name]; [contradiction|].
  destruct (opt_quote q1 (91 :: pre) c
              (name ++ quoted q2 ++ link ++ icon_file ++ 93 :: post) [])
    as (l1 & Hl1).
  { intros _ ->. inversion Hchars as [|? ? Hc _]. discriminate. }
  cbn [app] in *. rewrite Hl1. cbn [map flat_map].
  unfold set_cap at 1. cbn [before after caps].
  destruct (second_and_third_group (quoted q1 ++ 91 :: pre) (c :: name) q2 link post
              [(1%nat,
                between
                  (mkState pre
                     (91 :: quoted q1 ++ c :: name ++ quoted q2 ++ link
                         ++ icon_file ++ 93 :: post) [])
                  (mkState (quoted q1 ++ 91 :: pre)
                     (c :: name ++ quoted q2 ++ link ++ icon_file ++ 93 :: post) []))]
              Hname Hchars Hne Hlink Hfirst Hq2) as (bf & l2 & Hl2).
  cbn [app] in Hl2. rewrite Hl2. cbn [app head].
  eexists. split; [reflexivity|]. split.
  - unfold found_of. cbn [matched]. apply between_app. cbn [after].
    symmetry. exact Hshape.
  - reflexivity.
Qed.

Lemma exec_fileLink_none pre c rest :
  c <> 91 -> exec fileLinkRegex pre (c :: rest) = None.
Proof.
  intros Hc. apply N.eqb_neq in Hc. rewrite N.eqb_sym in Hc.
  unfold exec, fileLinkRegex.
  now rewrite matches_seq, matches_group, matches_seq, matches_class_cons, Hc.
Qed.



Lemma exec_iconLink_none pre c rest :
  c <> 91 -> exec iconLinkRegex pre (c :: rest) = None.
Proof.
  intros Hc. apply N.eqb_neq in Hc. rewrite N.eqb_sym in Hc.
  unfold exec, iconLinkRegex.
  now rewrite matches_seq, matches_class_cons, Hc.
Qed.

Lemma no_bracket_before (pre : JS.jsstring) p1 c p2 :
  Forall (fun c => c <> 91) pre -> pre = p1 ++ c :: p2 -> c <> 91.
Proof.
  intros Hpre ->. apply Forall_app in Hpre as [_ Hpre]. now inversion Hpre.
Qed.



(** The first file link of a line becomes its file name and the icon,
    and the replacement goes on after it. *)
Lemma collapseFileLink_fileLink pre (q1 : bool) name (q2 : bool) link post :
  Forall (fun c => c <> 91) pre ->
  name <> [] ->
  Forall (fun c => is_name_char c = true) name ->
  link <> [] ->
  Forall (fun c => is_line_terminator c = false) link ->
  (forall l1 l2, link <> l1 ++ icon_file ++ 93 :: l2) ->
  (q2 = false -> head link = Some space) ->
  collapseFileLink (pre ++ fileLink q1 name q2 link ++ post)
  = pre ++ nameAndIcon name ++ collapseFileLink post.
Proof.
  intros Hpre Hname Hchars Hne Hlink Hfirst Hq2.
  destruct (exec_fileLink [] q1 name q2 link post Hname Hchars Hne Hlink Hfirst Hq2)
    as (y & Hy & Hm & Hg).
  unfold collapseFileLink.
  rewrite (replace_all_step fileLinkRegex _ pre (fileLink q1 name q2 link) post y).
  - rewrite Hg. reflexivity.
  - reflexivity.
  - intros p1 c p2 Hp. apply exec_fileLink_none.
    eapply no_bracket_before; eassumption.
  - exact Hy.
  - exact Hm.
  - discriminate.
Qed.


(** A line in which neither pattern matches is left as it is. *)
Lemma links_unchanged opt line :
  search fileLinkRegex line = None ->
  search iconLinkRegex line = None ->
  stripIconLink opt (collapseFileLink line) = line.
Proof.
  intros Hfile Hicon. unfold collapseFileLink, stripIconLink.
  rewrite (replace_all_search_none _ _ _ Hfile).
  destruct (negb (showLink opt)); [|reflexivity].
  now apply replace_all_search_none.
Qed.

(** The leftmost match of either pattern, whatever its shape. *)
Lemma collapseFileLink_leftmost pre m post y :
  leftmost fileLinkRegex pre m post y ->
  collapseFileLink (pre ++ m ++ post)
  = pre ++ nameAndIcon (group (found_of [] (m ++ post) y) 2)
    ++ collapseFileLink post.
Proof.
  intros Hleft. unfold collapseFileLink.
  now rewrite (replace_all_leftmost fileLinkRegex _ pre m post y eq_refl Hleft).
Qed.

Lemma stripIconLink_leftmost opt pre m post y :
  showLink opt = false ->
  leftmost iconLinkRegex pre m post y ->
  stripIconLink opt (pre ++ m ++ post) = pre ++ stripIconLink opt post.
Proof.
  intros Hopt Hleft. unfold stripIconLink. rewrite Hopt. cbn [negb].
  now rewrite (replace_all_leftmost iconLinkRegex _ pre m post y eq_refl Hleft).
Qed.

End LinkFacts.


(** ** The lines of a formatted message *)

Module FormatFacts.
Import Regex ForwardFacts FormatDiagnostic.

Lemma split_cons (sep : JS.char) (s : JS.jsstring) :
  exists first rest, JS.split sep s = first :: rest.
Proof.
  induction s as [|c s (first & rest & IH)]; simpl.
  - eauto.
  - destruct (c =? sep); [eauto|]. rewrite IH. eauto.
Qed.

(** Past the first line the colouring step does nothing. *)
Lemma mapi_from_later opt sev (ls : list JS.jsstring) :
  forall i, JS.mapi_from (S i) (formatLine opt sev) ls = map (finishLine opt) ls.
Proof.
  induction ls as [|l ls IH]; intros i; simpl; [reflexivity|].
  now rewrite IH.
Qed.

(** A line in which none of the three patterns matches is left as it is. *)
Lemma finishLine_plain opt (line : JS.jsstring) :
  search fileLinkRegex line = None ->
  search iconLinkRegex line = None ->
  search fenceTagRegex line = None ->
  finishLine opt line = line.
Proof.
  intros Hfile Hicon Hfence. unfold finishLine.
  rewrite (LinkFacts.links_unchanged opt line Hfile Hicon).
  unfold retagFence.
  destruct (codeBlockHighlightType opt);
    now apply replace_first_search_none.
Qed.


End FormatFacts.

(** A message of two lines under the sample markdown renderer, which
    returns the message itself: the first line loses [## ] and is wrapped
    in the colour of Warning, the second is kept whole. *)
Example formatted_two_lines :
  @FormatDiagnostic.formatted
    {| FormatDiagnostic.formatDiagnosticIntoMarkdown := Lsp.message |}
    (FormatDiagnostic.mkOptions false FormatDiagnostic.prettytserr)
    (Lsp.Diagnostic_create (Lsp.mkRange (Lsp.mkPosition 0 0) (Lsp.mkPosition 0 1))
       (JS.lit "## Unused" ++ 10 :: JS.lit "x is never read")
       Lsp.Warning None)
  = 27 :: JS.lit "[1;32mUnused" ++ 27 :: JS.lit "[0m" ++ 10 :: JS.lit "x is never read".
Proof. vm_compute. reflexivity. Qed.

(** The icon link pattern runs to the last closing parenthesis of the
    line: what stands between the link and that parenthesis goes too. *)
Example stripIconLink_is_greedy :
  FormatDiagnostic.stripIconLink
    (FormatDiagnostic.mkOptions false FormatDiagnostic.prettytserr)
    (Links.iconLink FormatDiagnostic.icon_link (JS.lit "u") ++ JS.lit " and (note) end")
  = JS.lit " end".
Proof. vm_compute. reflexivity. Qed.

(** The file link pattern starts at the first opening bracket it can: with
    a bracket before the link, the name it keeps is what follows that
    bracket. *)
Example collapseFileLink_from_first_bracket :
  FormatDiagnostic.collapseFileLink
    (JS.lit "[x] " ++ Links.fileLink true (JS.lit "a.ts") true [32])
  = Links.nameAndIcon (JS.lit "x]").
Proof. vm_compute. reflexivity. Qed.

(** ** Routing, continued *)

Section RouterMore.
Import Host Notions MoreNotions HostRest.
Context `{ErrorCodes} `{Collaborators}.

Lemma find_first {A} (p : A -> JS.result bool) (before : list A) (x : A)
    (rest : list A) :
  Forall (fun a => p a = JS.Ok false) before ->
  p x = JS.Ok true ->
  JS.find p (before ++ x :: rest) = JS.Ok (Some x).
Proof.
  induction 1 as [|a before Ha _ IH]; intros Hx; simpl.
  - now rewrite Hx.
  - rewrite Ha. simpl. now apply IH.
Qed.

Lemma find_throws {A} (p : A -> JS.result bool) (before : list A) (x : A)
    (rest : list A) (e : JS.error) :
  Forall (fun a => p a = JS.Ok false) before ->
  p x = JS.Throw e ->
  JS.find p (before ++ x :: rest) = JS.Throw e.
Proof.
  induction 1 as [|a before Ha _ IH]; intros Hx; simpl.
  - now rewrite Hx.
  - rewrite Ha. simpl. now apply IH.
Qed.

Lemma lookup_asks (h : host) (uri : JS.jsstring)
    (doc : option (Document TextDocument)) :
  getDocument uri = JS.Ok doc ->
  lookupLanguage h uri = JS.find (asks uri doc) (languagePerId h).
Proof.
  intros Hdoc. unfold lookupLanguage. rewrite Hdoc. simpl.
  destruct doc; reflexivity.
Qed.

(** X1. A batch goes to the first provider, in the order of registration,
    that claims the file, and to that one only: the providers before it
    have said no, the providers after it are not asked. *)
Theorem diagnosticsReceived_first_claim (h : host) (kind : DiagnosticKind)
    (resource : JS.jsstring) (diagnostics : list Proto.Diagnostic)
    (doc : option (Document TextDocument))
    (before rest : list (JS.jsstring * LanguageProvider))
    (language : JS.jsstring * LanguageProvider)
    (markers : list Lsp.Diagnostic) :
  getDocument resource = JS.Ok doc ->
  languagePerId h = before ++ language :: rest ->
  Forall (fun l => asks resource doc l = JS.Ok false) before ->
  asks resource doc language = JS.Ok true ->
  createMarkerData (reportStyleCheckAsWarnings h) diagnostics = JS.Ok markers ->
  diagnosticsReceived h kind resource diagnostics
  = (provider_diagnosticsReceived (snd language) kind resource markers,
     emit (DiagnosticsReceived (fst language) kind resource markers) h).
Proof.
  intros Hdoc Hlangs Hbefore Hclaim Hmarkers.
  unfold diagnosticsReceived, findLanguage.
  rewrite (lookup_asks h resource doc Hdoc), Hlangs.
  rewrite (find_first _ before language rest Hbefore Hclaim).
  simpl. now rewrite Hmarkers.
Qed.

(** X2. A provider that throws when asked hides the providers registered
    after it: the batch is dropped, though one of them would claim it. *)
Theorem diagnosticsReceived_faulty_provider (h : host) (kind : DiagnosticKind)
    (resource : JS.jsstring) (diagnostics : list Proto.Diagnostic)
    (doc : option (Document TextDocument))
    (before rest : list (JS.jsstring * LanguageProvider))
    (faulty : JS.jsstring * LanguageProvider) (e : JS.error) :
  getDocument resource = JS.Ok doc ->
  languagePerId h = before ++ faulty :: rest ->
  Forall (fun l => asks resource doc l = JS.Ok false) before ->
  asks resource doc faulty = JS.Throw e ->
  diagnosticsReceived h kind resource diagnostics = (JS.Ok tt, h).
Proof.
  intros Hdoc Hlangs Hbefore Hthrow.
  unfold diagnosticsReceived, findLanguage.
  rewrite (lookup_asks h resource doc Hdoc), Hlangs.
  now rewrite (find_throws _ before faulty rest e Hbefore Hthrow).
Qed.

Lemma mapM_throws {A B} (f : A -> JS.result B) (before : list A) (x : A)
    (rest : list A) (e : JS.error) :
  Forall (fun a => exists b, f a = JS.Ok b) before ->
  f x = JS.Throw e ->
  JS.mapM f (before ++ x :: rest) = JS.Throw e.
Proof.
  induction 1 as [|a before (b & Ha) _ IH]; intros Hx; simpl.
  - now rewrite Hx.
  - rewrite Ha. simpl. now rewrite IH.
Qed.

Lemma mapM_returns {A B} (f : A -> JS.result B) (R : A -> B -> Prop)
    (xs : list A) :
  Forall (fun a => exists b, f a = JS.Ok b /\ R a b) xs ->
  exists ys, JS.mapM f xs = JS.Ok ys /\ Forall2 R xs ys.
Proof.
  induction 1 as [|a xs (b & Ha & Hab) _ (ys & Hys & Hall)]; simpl.
  - exists []. split; [reflexivity | constructor].
  - rewrite Ha. simpl. rewrite Hys. simpl.
    exists (b :: ys). split; [reflexivity | now constructor].
Qed.

(** X3. One diagnostic the normalizer throws on loses the whole batch:
    nothing is delivered, not even the diagnostics before it, and the
    exception is the outcome of the routing. *)
Theorem diagnosticsReceived_failed_conversion (h : host) (kind : DiagnosticKind)
    (resource : JS.jsstring) (language : JS.jsstring * LanguageProvider)
    (before rest : list Proto.Diagnostic) (d : Proto.Diagnostic)
    (e : JS.error) :
  lookupLanguage h resource = JS.Ok (Some language) ->
  Forall (fun d' => exists m,
            tsDiagnosticToLspDiagnostic (reportStyleCheckAsWarnings h) d' = JS.Ok m)
    before ->
  tsDiagnosticToLspDiagnostic (reportStyleCheckAsWarnings h) d = JS.Throw e ->
  diagnosticsReceived h kind resource (before ++ d :: rest) = (JS.Throw e, h).
Proof.
  intros Hlookup Hbefore Hthrow.
  unfold diagnosticsReceived, findLanguage. rewrite Hlookup. simpl.
  unfold createMarkerData.
  now rewrite (mapM_throws _ before d rest e Hbefore Hthrow).
Qed.

Lemma getDiagnosticSeverity_not_information (flag : bool) (d : Proto.Diagnostic) :
  getDiagnosticSeverity flag d <> Lsp.Information.
Proof.
  unfold getDiagnosticSeverity.
  repeat match goal with |- context [if ?b then _ else _] => destruct b end;
    discriminate.
Qed.

(** X4. When the converters return on every diagnostic of a batch, the
    markers are as many as the diagnostics and in their order; each has
    the severity of the classifier, which is never Information and never
    missing, the tags and the source of its diagnostic, the file type
    markdown, and a message that ends in two line feeds. *)
Theorem createMarkerData_markers (flag : bool) (diagnostics : list Proto.Diagnostic) :
  Forall converts diagnostics ->
  exists markers,
    createMarkerData flag diagnostics = JS.Ok markers
    /\ Forall2 (marker_of flag) diagnostics markers.
Proof.
  intros Hall. unfold createMarkerData.
  destruct (mapM_returns (tsDiagnosticToLspDiagnostic flag)
              (fun d m =>
                 Lsp.severity m = Some (getDiagnosticSeverity flag d)
                 /\ Lsp.tags m = tagsOf d /\ Lsp.source m = Proto.source d)
              diagnostics) as (ds & Hds & Hfields).
  { eapply List.Forall_impl; [|exact Hall].
    intros d ((range & Hr) & (related & Hi)).
    eexists. split.
    - apply tsDiagnosticToLspDiagnostic_returns; eassumption.
    - repeat split. }
  rewrite Hds. simpl. eexists. split; [reflexivity|].
  unfold FormatDiagnostic.formatDiagnostic, FormatDiagnostic.format.
  clear Hds Hall. induction Hfields as [|d m ds' ms (Hs & Ht & Hsrc) _ IH];
    simpl; constructor; [|exact IH].
  unfold marker_of. simpl. repeat split; try assumption.
  - rewrite Hs. intros Heq. injection Heq.
    apply getDiagnosticSeverity_not_information.
  - eexists. reflexivity.
Qed.

(** X22. The normalizer has no fallback range. Whatever its converter
    does with an absent location, a diagnostic without start and end
    never gets the range (0,0)-(0,1) the config callback falls back
    to: the normalizer throws, or the range it gives has the same
    position at both ends. *)
Theorem normalizer_has_no_fallback (flag : bool) (d : Proto.Diagnostic) :
  Proto.start d = None ->
  Proto.end_ d = None ->
  rangeOf d <> JS.Ok fallbackRange
  /\ forall m,
       tsDiagnosticToLspDiagnostic flag d = JS.Ok m ->
       Lsp.start (Lsp.drange m) = Lsp.end_ (Lsp.drange m).
Proof.
  intros Hs He. unfold tsDiagnosticToLspDiagnostic, rangeOf. rewrite Hs, He.
  destruct (Position_fromLocation None) as [p|e]; simpl.
  - split.
    + unfold fallbackRange. intros [= -> Heq]. discriminate.
    + intros m. destruct (relatedInformationOf d); simpl; [|discriminate].
      now intros [= <-].
  - split; [discriminate|]. intros m. discriminate.
Qed.

End RouterMore.

(** ** The timer, continued *)

Section DebounceMore.
Import Host Notions MoreNotions HostRest.
Context `{Collaborators}.

Lemma expire_all_keeps (h : host) (ps : list (N * N)) :
  timer (fold_left expire ps h) = timer h
  /\ runtime (fold_left expire ps h) = runtime h
  /\ languagePerId (fold_left expire ps h) = languagePerId h.
Proof.
  revert h. induction ps as [|p ps IH]; intros h; simpl; [repeat split|].
  destruct (IH (expire h p)) as (-> & -> & ->). repeat split.
Qed.

Lemma one_timer_step (h : host) (ev : event) :
  own_timer h /\ (length (Timers.pending (runtime h)) <= 1)%nat ->
  own_timer (step h ev) /\ (length (Timers.pending (runtime (step h ev))) <= 1)%nat.
Proof.
  intros (Hown & Hlen). destruct ev as [w e | dt].
  - assert (Hcases : step h (Fire w e) = h
                     \/ step h (Fire w e) = reloadProjects h
                     \/ step h (Fire w e) = handleProjectChange h)
      by (destruct w, e; simpl; auto).
    destruct Hcases as [-> | [-> | ->]].
    + now split.
    + now split.
    + pose proof (handleProjectChange_arms h Hown) as Harmed.
      split; [exact (armed_own_timer _ _ _ Harmed)|].
      destruct Harmed as (_ & _ & _ & handle & _ & ->). simpl. lia.
  - simpl. destruct (expire_all_keeps h (Timers.due dt (runtime h))) as (Ht & _ & _).
    split.
    + intros p Hin. cbn [runtime timer Timers.elapse Timers.pending] in *.
      rewrite Ht. apply Hown.
      apply filter_In in Hin. tauto.
    + cbn [runtime Timers.elapse Timers.pending].
      etransitivity; [apply List.filter_length_le | exact Hlen].
Qed.

(** X5. The host never holds more than one timer: from a host with no
    timer pending, after any sequence of file events and delays at most
    one timer is pending, and it is the one the closure variable names,
    so the next change cancels it. *)
Theorem at_most_one_timer (h : host) (evs : list event) :
  Timers.pending (runtime h) = [] ->
  own_timer (run h evs)
  /\ (length (Timers.pending (runtime (run h evs))) <= 1)%nat.
Proof.
  intros Hnone.
  assert (Hstart : own_timer h /\ (length (Timers.pending (runtime h)) <= 1)%nat).
  { split; [|rewrite Hnone; simpl; lia].
    intros p Hin. rewrite Hnone in Hin. destruct Hin. }
  clear Hnone. revert h Hstart. unfold run.
  induction evs as [|ev evs IH]; intros h Hstart; [exact Hstart|].
  simpl. apply IH. now apply one_timer_step.
Qed.

(** X6. A reload does not cancel the pending diagnosis. When a file is
    created or a config file deleted within the 1500 ms after a content
    change, the reload diagnoses at once, and the timer of the change
    still runs at its own time: the languages are diagnosed twice. *)
Theorem reload_keeps_timer (h : host) (w0 w : watcher) (e : fileEvent)
    (d1 d2 : N) :
  own_timer h ->
  structural w e ->
  d1 < 1500 ->
  1500 <= d1 + d2 ->
  trace (run h [Fire w0 onDidChange; Elapse d1; Fire w e; Elapse d2])
  = trace h
    ++ [(Timers.now (runtime h) + d1, ReInitialize);
        (Timers.now (runtime h) + d1, Execute (JS.lit "reloadProjects"));
        (Timers.now (runtime h) + d1,
         TriggerAllDiagnostics (map fst (languagePerId h)));
        (Timers.now (runtime h) + 1500,
         TriggerAllDiagnostics (map fst (languagePerId h)))].
Proof.
  intros Hown Hstruct Hd1 Hd12.
  assert (Hfirst : step h (Fire w0 onDidChange) = handleProjectChange h)
    by (destruct w0; reflexivity).
  unfold run. cbn [fold_left]. rewrite Hfirst.
  destruct (handleProjectChange_arms h Hown) as (Hl & Htr & Hnow & handle & Ht & Hp).
  set (h1 := handleProjectChange h) in *.
  rewrite (structural_event_reloads _ w e Hstruct).
  assert (Hlate : (Timers.now (runtime h) + 1500 <=? Timers.now (runtime h) + d1) = false)
    by (apply N.leb_gt; lia).
  assert (Hdue : (Timers.now (runtime h) + 1500 <=? Timers.now (runtime h) + d1 + d2) = true)
    by (apply N.leb_le; lia).
  unfold reloaded.
  cbn [step]. unfold Timers.due, Timers.elapse.
  cbn [runtime languagePerId trace timer reportStyleCheckAsWarnings
       Timers.now Timers.pending Timers.next_handle].
  rewrite Hp, Hnow. cbn [List.filter snd fst]. rewrite Hlate.
  cbn [negb fold_left runtime languagePerId trace timer
       reportStyleCheckAsWarnings Timers.now Timers.pending List.filter snd].
  rewrite Hdue.
  cbn [fold_left expire runtime languagePerId trace timer
       reportStyleCheckAsWarnings snd].
  rewrite Htr, Hl, <- app_assoc. reflexivity.
Qed.

(** After the timer has run, the host is ready for the next burst. *)
Lemma armed_elapse_late (h0 h : host) (t d : N) :
  armed_at h0 h t -> 1500 <= d ->
  own_timer (step h (Elapse d))
  /\ languagePerId (step h (Elapse d)) = languagePerId h0
  /\ Timers.now (runtime (step h (Elapse d))) = t + d.
Proof.
  intros (Hl & Htr & Hnow & handle & Ht & Hp) Hd.
  assert (Hdue : (t + 1500 <=? t + d) = true) by (apply N.leb_le; lia).
  simpl. unfold Timers.due, Timers.elapse, own_timer.
  rewrite Hp, Hnow. simpl. rewrite Hdue. simpl.
  repeat split; try assumption.
  intros p [].
Qed.

(** X7. Two bursts of content changes that are 1500 ms or more apart
    are diagnosed separately: each gets one diagnosis, 1500 ms after
    its own last change. The handle of the timer that has run, still
    held by the closure variable, does no harm when it is cleared. *)
Theorem separate_bursts (h : host) (w1 w2 : watcher)
    (more1 more2 : list (N * watcher)) (gap d : N) :
  own_timer h ->
  Forall (fun p => fst p < 1500) more1 ->
  Forall (fun p => fst p < 1500) more2 ->
  1500 <= gap ->
  trace (run h (burst w1 more1 ++ [Elapse gap] ++ burst w2 more2 ++ [Elapse d]))
  = trace h
    ++ [(Timers.now (runtime h) + span_of more1 + 1500,
         TriggerAllDiagnostics (map fst (languagePerId h)))]
    ++ (if d <? 1500 then []
        else [(Timers.now (runtime h) + span_of more1 + gap + span_of more2 + 1500,
               TriggerAllDiagnostics (map fst (languagePerId h)))]).
Proof.
  intros Hown Hgaps1 Hgaps2 Hgap. unfold burst, run.
  rewrite !fold_left_app. cbn [fold_left app].
  assert (Hfirst : forall w h', step h' (Fire w onDidChange) = handleProjectChange h')
    by (intros [] h'; reflexivity).
  rewrite !Hfirst.
  pose proof (armed_burst h _ _ more1 (handleProjectChange_arms h Hown) Hgaps1)
    as Harmed1.
  fold (run (handleProjectChange h)
          (flat_map (fun p => [Elapse (fst p); Fire (snd p) onDidChange]) more1))
    in *.
  set (h1 := run (handleProjectChange h) _) in *.
  destruct (armed_elapse_late h h1 _ gap Harmed1 Hgap) as (Hown2 & Hl2 & Hnow2).
  pose proof (armed_elapse h h1 _ gap Harmed1) as Htr2.
  assert (Hge : (gap <? 1500) = false) by (apply N.ltb_ge; lia).
  rewrite Hge in Htr2.
  set (h2 := step h1 (Elapse gap)) in *.
  pose proof (armed_burst h2 _ _ more2 (handleProjectChange_arms h2 Hown2) Hgaps2)
    as Harmed2.
  unfold run in Harmed2.
  rewrite (armed_elapse h2 _ _ d Harmed2).
  rewrite Htr2, Hl2, Hnow2, <- app_assoc. reflexivity.
Qed.

End DebounceMore.

(** ** Disposal, the registry and the plugins *)

Section Registry.
Import Host Notions MoreNotions HostRest.
Context `{ErrorCodes} `{Collaborators} `{!Services}.

(** X8. A disposed host delivers nothing: every batch that arrives
    afterwards is dropped, whatever the document lookup does. *)
Theorem disposed_host_drops (h : host) (kind : DiagnosticKind)
    (resource : JS.jsstring) (diagnostics : list Proto.Diagnostic) :
  diagnosticsReceived (snd (dispose h)) kind resource diagnostics
  = (JS.Ok tt, snd (dispose h)).
Proof.
  unfold diagnosticsReceived, findLanguage, lookupLanguage. simpl.
  destruct (getDocument resource) as [[doc|]|e]; reflexivity.
Qed.

(** X9. Disposal does not cancel the timer of a content change: it is
    held by a variable of the constructor that [dispose] cannot reach.
    The timer still runs at its time, on a host without languages. *)
Theorem disposed_host_timer (h0 h : host) (t d : N) :
  armed_at h0 h t ->
  1500 <= d ->
  trace (step (snd (dispose h)) (Elapse d))
  = trace h0 ++ [(t + 1500, TriggerAllDiagnostics [])].
Proof.
  intros (Hl & Htr & Hnow & handle & Ht & Hp) Hd.
  assert (Hdue : (t + 1500 <=? t + d) = true) by (apply N.leb_le; lia).
  simpl. unfold Timers.due. rewrite Hp, Hnow. simpl. rewrite Hdue. simpl.
  now rewrite Htr.
Qed.

Lemma Map_get_set {V} (key : JS.jsstring) (v : V) (m : list (JS.jsstring * V)) :
  Map_get key (Map_set key v m) = Some v.
Proof.
  induction m as [|[k v'] m IH]; simpl.
  - unfold JS.eqb. now rewrite bool_decide_eq_true_2.
  - destruct (JS.eqb k key) eqn:Hk; simpl.
    + unfold JS.eqb. now rewrite bool_decide_eq_true_2.
    + now rewrite Hk.
Qed.

Lemma Map_get_set_other {V} (key key' : JS.jsstring) (v : V)
    (m : list (JS.jsstring * V)) :
  key' <> key -> Map_get key' (Map_set key v m) = Map_get key' m.
Proof.
  intros Hne. assert (Hkey : JS.eqb key key' = false) by (apply eqb_neq; congruence).
  induction m as [|[k v'] m IH]; simpl.
  - now rewrite Hkey.
  - destruct (JS.eqb k key) eqn:Hk; simpl.
    + apply eqb_eq in Hk. subst k. now rewrite Hkey.
    + now rewrite IH.
Qed.

Lemma Map_set_keys {V} (key : JS.jsstring) (v : V) (m : list (JS.jsstring * V)) :
  map fst (Map_set key v m) = Set_add key (map fst m).
Proof.
  unfold Set_add. induction m as [|[k v'] m IH]; simpl; [reflexivity|].
  destruct (JS.eqb k key) eqn:Hk.
  - apply eqb_eq in Hk. subst k. simpl.
    assert (Hrefl : JS.eqb key key = true) by now apply eqb_eq.
    now rewrite Hrefl.
  - assert (Hsym : JS.eqb key k = false) by (apply eqb_neq; apply eqb_neq in Hk; congruence).
    rewrite Hsym. simpl. rewrite IH.
    now destruct (existsb (JS.eqb key) (map fst m)).
Qed.

Lemma Set_add_In (x y : JS.jsstring) (s : list JS.jsstring) :
  In y (Set_add x s) <-> y = x \/ In y s.
Proof.
  unfold Set_add. destruct (existsb (JS.eqb x) s) eqn:Hx.
  - apply existsb_exists in Hx as (z & Hz & Heq). apply eqb_eq in Heq. subst z.
    split; [tauto | intros [-> | Hin]; assumption].
  - rewrite in_app_iff. simpl. intuition congruence.
Qed.

Lemma Set_add_NoDup (x : JS.jsstring) (s : list JS.jsstring) :
  NoDup s -> NoDup (Set_add x s).
Proof.
  intros Hs. unfold Set_add. destruct (existsb (JS.eqb x) s) eqn:Hx; [exact Hs|].
  apply NoDup_app. split; [exact Hs|]. split.
  - intros y Hy Hin. apply list_elem_of_singleton in Hin. subst y.
    assert (Hex : existsb (JS.eqb x) s = true).
    { apply existsb_exists. exists x.
      split; [now apply list_elem_of_In | now apply eqb_eq]. }
    congruence.
  - apply NoDup_singleton.
Qed.

(** X10. Registering a language provider under an id replaces the
    provider that id had and leaves the others alone; the id keeps its
    place in the order in which the providers are asked, a new id goes
    to the end, and no id is ever listed twice. *)
Theorem registerExtensionLanguageProvider_registry
    (description : LanguageDescription DiagnosticLanguage) (h : host) :
  let h' := registerExtensionLanguageProvider description h in
  getProvider h' (id description) = Some (newLanguageProvider description)
  /\ (forall other, other <> id description -> getProvider h' other = getProvider h other)
  /\ map fst (languagePerId h')
     = (if existsb (JS.eqb (id description)) (map fst (languagePerId h))
        then map fst (languagePerId h)
        else map fst (languagePerId h) ++ [id description])
  /\ (NoDup (map fst (languagePerId h)) -> NoDup (map fst (languagePerId h'))).
Proof.
  unfold registerExtensionLanguageProvider, getProvider. cbn [with_languages languagePerId].
  repeat split.
  - apply Map_get_set.
  - intros other Hne. now apply Map_get_set_other.
  - apply Map_set_keys.
  - rewrite Map_set_keys. apply Set_add_NoDup.
Qed.

Lemma onReady_plugins_languageIds (plugins : list Plugin) (h : host)
    (languageIds : list JS.jsstring) :
  snd (fold_left onReady_plugin plugins (h, languageIds))
  = fold_left (fun s language => Set_add language s) (unnamed plugins) languageIds.
Proof.
  revert h languageIds. induction plugins as [|plugin plugins IH];
    intros h languageIds; [reflexivity|].
  cbn [fold_left]. unfold unnamed. cbn [List.filter].
  unfold onReady_plugin at 2.
  destruct (has_namespace plugin); cbn [negb flat_map].
  - apply IH.
  - rewrite IH. unfold unnamed. now rewrite fold_left_app.
Qed.

Lemma merged_In (ls s : list JS.jsstring) (l : JS.jsstring) :
  In l (fold_left (fun s language => Set_add language s) ls s)
  <-> In l ls \/ In l s.
Proof.
  revert s. induction ls as [|x ls IH]; intros s; simpl; [tauto|].
  rewrite IH, Set_add_In. intuition congruence.
Qed.

Lemma merged_NoDup (ls s : list JS.jsstring) :
  NoDup s -> NoDup (fold_left (fun s language => Set_add language s) ls s).
Proof.
  revert s. induction ls as [|x ls IH]; intros s Hs; simpl; [exact Hs|].
  apply IH. now apply Set_add_NoDup.
Qed.

Lemma in_split_first (a : JS.jsstring) (l : list JS.jsstring) :
  In a l -> exists l1 l2, l = l1 ++ a :: l2 /\ ~ In a l1.
Proof.
  induction l as [|x l IH]; intros Hin; [destruct Hin|].
  destruct (decide (x = a)) as [->|Hne].
  - exists [], l. split; [reflexivity | intros []].
  - destruct Hin as [Heq|Hin]; [contradiction|].
    destruct (IH Hin) as (l1 & l2 & -> & Hl1).
    exists (x :: l1), l2. split; [reflexivity|].
    intros [Heq|Hin']; [contradiction | now apply Hl1].
Qed.

Lemma Set_add_in_order (x : JS.jsstring) (seen collected : list JS.jsstring) :
  in_order_of seen collected -> in_order_of (seen ++ [x]) (Set_add x collected).
Proof.
  intros [Hmem Horder]. split.
  - intros y. rewrite Set_add_In, in_app_iff, Hmem. simpl. intuition congruence.
  - intros before a between b after Heq.
    assert (Hold : forall after',
                     collected = before ++ a :: between ++ b :: after' ->
                     exists l1 l2, seen ++ [x] = l1 ++ a :: l2
                                   /\ ~ In a l1 /\ ~ In b l1).
    { intros after' Hc.
      destruct (Horder _ _ _ _ _ Hc) as (l1 & l2 & -> & Ha & Hb).
      exists l1, (l2 ++ [x]). rewrite <- app_assoc. repeat split; assumption. }
    unfold Set_add in Heq.
    destruct (existsb (JS.eqb x) collected) eqn:Hx; [now apply (Hold after)|].
    destruct after as [|z after _] using rev_ind.
    + assert (Hsnoc : collected ++ [x] = (before ++ a :: between) ++ [b])
        by (rewrite Heq, <- app_assoc; reflexivity).
      apply app_inj_tail in Hsnoc as [Hc <-].
      assert (Hnew : ~ In x seen).
      { intros Hin. apply Hmem in Hin.
        assert (Hex : existsb (JS.eqb x) collected = true)
          by (apply existsb_exists; exists x; split; [exact Hin | now apply eqb_eq]).
        congruence. }
      assert (Ha : In a seen)
        by (apply Hmem; rewrite Hc, in_app_iff; right; now left).
      destruct (in_split_first a seen Ha) as (l1 & l2 & Hseen & Hl1).
      exists l1, (l2 ++ [x]). rewrite Hseen, <- app_assoc.
      repeat split; [assumption|].
      intros Hin. apply Hnew. rewrite Hseen, in_app_iff. now left.
    + assert (Hsnoc : collected ++ [x]
                      = (before ++ a :: between ++ b :: after) ++ [z]).
      { rewrite Heq, <- !app_assoc. cbn [app]. rewrite <- !app_assoc.
        reflexivity. }
      apply app_inj_tail in Hsnoc as [Hc _]. now apply (Hold after).
Qed.

Lemma merged_in_order (ls seen collected : list JS.jsstring) :
  in_order_of seen collected ->
  in_order_of (seen ++ ls)
    (fold_left (fun s language => Set_add language s) ls collected).
Proof.
  revert seen collected. induction ls as [|x ls IH]; intros seen collected Hinv.
  - now rewrite app_nil_r.
  - cbn [fold_left]. replace (seen ++ x :: ls) with ((seen ++ [x]) ++ ls)
      by (rewrite <- app_assoc; reflexivity).
    apply IH. now apply Set_add_in_order.
Qed.

(** X11. When the service is ready, the languages of the plugins that
    come without a config namespace (or with an empty one) are merged
    into one provider, registered last under the id typescript-plugins:
    its description lists each of these languages once, in the order of
    their first appearance, and no other language. The order: when one
    language is listed before another, it appears among the languages
    of these plugins, taken plugin by plugin, before the other appears
    at all. *)
Theorem onReady_merges (plugins : list Plugin) (h : host) :
  merged plugins <> [] ->
  getProvider (onReady plugins h) (JS.lit "typescript-plugins")
  = Some (newLanguageProvider
            (pluginDescription (JS.lit "typescript-plugins") (merged plugins)))
  /\ NoDup (merged plugins)
  /\ (forall language,
        In language (merged plugins)
        <-> exists plugin,
              In plugin plugins /\ has_namespace plugin = false
              /\ In language (languages plugin))
  /\ (forall before a between b after,
        merged plugins = before ++ a :: between ++ b :: after ->
        exists l1 l2,
          flat_map languages
            (List.filter (fun plugin => negb (has_namespace plugin)) plugins)
          = l1 ++ a :: l2
          /\ ~ In a l1 /\ ~ In b l1).
Proof.
  intros Hsome. split; [|split; [|split]];
    [| | |
     apply (merged_in_order (unnamed plugins) [] []);
     split; [reflexivity | intros [|? ?]; discriminate]].
  - unfold onReady.
    pose proof (onReady_plugins_languageIds plugins h []) as Hids.
    destruct (fold_left onReady_plugin plugins (h, [])) as [h1 languageIds].
    cbn [snd] in Hids. fold (merged plugins) in Hids. subst languageIds.
    destruct (merged plugins) as [|l ls] eqn:Hm; [congruence|].
    cbn [length Nat.eqb negb].
    unfold registerExtensionLanguageProvider, getProvider.
    cbn [with_languages languagePerId]. apply Map_get_set.
  - apply merged_NoDup. constructor.
  - intros language. unfold merged. rewrite merged_In. unfold unnamed.
    rewrite in_flat_map. split.
    + intros [(plugin & Hin & Hl) | []]. apply filter_In in Hin as (Hin & Hns).
      exists plugin. repeat split; try assumption.
      now destruct (has_namespace plugin).
    + intros (plugin & Hin & Hns & Hl). left. exists plugin. split; [|exact Hl].
      apply filter_In. split; [exact Hin|]. now rewrite Hns.
Qed.

(** X12. The host claims a file as soon as one of its providers does;
    when none does, and also when the lookup throws, the answer is the
    one of the buffer synchronisation, so a failing lookup never makes
    [handles] fail. *)
Theorem handles_uri_falls_back (h : host) (uri : JS.jsstring) :
  (forall language,
     lookupLanguage h uri = JS.Ok (Some language) ->
     handles_uri h uri = JS.Ok true)
  /\ (unclaimed h uri \/ lookup_throws h uri ->
      handles_uri h uri = bufferSyncSupport_handles uri).
Proof.
  split.
  - intros language Hfound. unfold handles_uri, findLanguage.
    now rewrite Hfound.
  - intros Hnone. unfold handles_uri.
    now rewrite (findLanguage_none h uri Hnone).
Qed.

(** X13. The diagnostics of a config file are published once the uri
    is built, when every diagnostic that has both endpoints has its
    lines and offsets between 1 and 2^31. They are as many as the
    backend sent and in its order; each keeps the raw text of its
    diagnostic, unformatted, and its code, also when the code is 0; it
    has the severity of the classifier, the range of the config
    callback, and no tags. *)
Theorem onConfigDiagnosticsReceived_publishes (flag : bool)
    (body : ConfigFileDiagnosticBody) (uri : JS.jsstring) :
  Uri_file_toString (configFile body) = JS.Ok uri ->
  Forall placed (diagnostics body) ->
  exists markers,
    onConfigDiagnosticsReceived flag (Some body) = JS.Ok (Some (uri, markers))
    /\ Forall2 (config_marker flag) (diagnostics body) markers.
Proof.
  intros Huri Hplaced. unfold onConfigDiagnosticsReceived. rewrite Huri. simpl.
  destruct (mapM_returns (configDiagnostic flag) (config_marker flag)
              (diagnostics body)) as (markers & Hm & Hall).
  { eapply List.Forall_impl; [|exact Hplaced]. intros d Hd.
    unfold configDiagnostic.
    destruct (configDiagnosticRange_of_placed d Hd) as (range & Hrange).
    rewrite Hrange. simpl.
    eexists. split; [reflexivity|].
    unfold config_marker. simpl. repeat split. now rewrite Hrange. }
  destruct (diagnostics body) as [|d ds] eqn:Hds.
  - exists []. split; [reflexivity | constructor].
  - cbn [length Nat.eqb]. rewrite Hm. simpl.
    exists markers. split; [reflexivity | exact Hall].
Qed.

(** X21. One diagnostic of a config file with a line or an offset
    below 1 (or above 2^31) beside both endpoints loses them all:
    [Range.create] throws inside the callback, and nothing is
    published for the file, not even the diagnostics before it. *)
Theorem onConfigDiagnosticsReceived_rejects (flag : bool)
    (body : ConfigFileDiagnosticBody) (uri : JS.jsstring)
    (before rest : list Proto.Diagnostic) (d : Proto.Diagnostic) :
  Uri_file_toString (configFile body) = JS.Ok uri ->
  diagnostics body = before ++ d :: rest ->
  Forall placed before ->
  ~ placed d ->
  exists e, onConfigDiagnosticsReceived flag (Some body) = JS.Throw e.
Proof.
  intros Huri Hbody Hbefore Hd.
  assert (Hthrow : exists e, configDiagnostic flag d = JS.Throw e).
  { unfold placed in Hd. unfold configDiagnostic.
    destruct (Proto.start d) as [s|] eqn:Hs; [|now destruct Hd].
    destruct (Proto.end_ d) as [e|] eqn:He; [|now destruct Hd].
    destruct (configDiagnosticRange_rejected d s e Hs He Hd) as (err & ->).
    eexists. reflexivity. }
  destruct Hthrow as (e & Hthrow). exists e.
  unfold onConfigDiagnosticsReceived. rewrite Huri, Hbody. simpl.
  rewrite length_app. cbn [length]. rewrite Nat.add_succ_r. cbn [Nat.eqb].
  rewrite (mapM_throws (configDiagnostic flag) before d rest e); [reflexivity| |exact Hthrow].
  eapply List.Forall_impl; [|exact Hbefore]. intros d' Hd'.
  destruct (configDiagnostic_returns flag d' Hd') as (m & Hm & _). eauto.
Qed.

End Registry.

(** ** The statements above on the sample host *)

Lemma diagnosticsReceived_first_claim_witness :
  exists markers,
    @Host.diagnosticsReceived Sample.codes (Sample.collaborators false)
      (Sample2.two false) 0%nat (JS.lit "/proj/a.md") [Sample.unused_x]
    = (JS.Ok tt,
       @Host.emit (Sample.collaborators false)
         (@Host.DiagnosticsReceived (Sample.collaborators false)
            (JS.lit "any") 0%nat (JS.lit "/proj/a.md") markers)
         (Sample2.two false)).
Proof.
  eexists.
  apply (@diagnosticsReceived_first_claim Sample.codes (Sample.collaborators false)
           (Sample2.two false) 0%nat (JS.lit "/proj/a.md") [Sample.unused_x] None
           [(JS.lit "typescript", Sample2.picky false)] []
           (JS.lit "any", Sample2.greedy)).
  - reflexivity.
  - reflexivity.
  - repeat constructor.
  - reflexivity.
  - vm_compute. reflexivity.
Defined.

Lemma diagnosticsReceived_faulty_provider_witness :
  @Host.diagnosticsReceived Sample.codes (Sample.collaborators false)
    (Sample2.two true) 0%nat (JS.lit "/proj/a.md") [Sample.unused_x]
  = (JS.Ok tt, Sample2.two true).
Proof.
  apply (@diagnosticsReceived_faulty_provider Sample.codes (Sample.collaborators false)
           (Sample2.two true) 0%nat (JS.lit "/proj/a.md") [Sample.unused_x] None
           [] [(JS.lit "any", Sample2.greedy)]
           (JS.lit "typescript", Sample2.picky true) JS.TypeError).
  - reflexivity.
  - reflexivity.
  - constructor.
  - reflexivity.
Defined.

Lemma diagnosticsReceived_failed_conversion_witness :
  @Host.diagnosticsReceived Sample.codes (Sample.collaborators false)
    (Sample.idle false) 0%nat (JS.lit "/proj/a.ts")
    ([Sample.unused_x] ++ Sample2.no_start :: [Sample.code_zero])
  = (JS.Throw JS.TypeError, Sample.idle false).
Proof.
  apply (@diagnosticsReceived_failed_conversion Sample.codes (Sample.collaborators false)
           (Sample.idle false) 0%nat (JS.lit "/proj/a.ts")
           (JS.lit "typescript", Sample.typescript false)
           [Sample.unused_x] [Sample.code_zero] Sample2.no_start JS.TypeError).
  - reflexivity.
  - constructor; [|constructor]. eexists. vm_compute. reflexivity.
  - reflexivity.
Defined.

Lemma normalizer_has_no_fallback_witness :
  @Host.rangeOf (Sample.collaborators false) Sample2.no_span
  <> JS.Ok MoreNotions.fallbackRange
  /\ forall m,
       @Host.tsDiagnosticToLspDiagnostic Sample.codes (Sample.collaborators false)
         true Sample2.no_span = JS.Ok m ->
       Lsp.start (Lsp.drange m) = Lsp.end_ (Lsp.drange m).
Proof.
  apply (@normalizer_has_no_fallback Sample.codes (Sample.collaborators false)
           true Sample2.no_span); reflexivity.
Defined.

Lemma createMarkerData_markers_witness :
  exists markers,
    @Host.createMarkerData Sample.codes (Sample.collaborators false) true
      [Sample.unused_x; Sample.code_zero] = JS.Ok markers
    /\ Forall2
         (@MoreNotions.marker_of Sample.codes true)
         [Sample.unused_x; Sample.code_zero] markers.
Proof.
  apply (@createMarkerData_markers Sample.codes (Sample.collaborators false) true
           [Sample.unused_x; Sample.code_zero]).
  repeat constructor; eexists; reflexivity.
Defined.

Lemma at_most_one_timer_witness :
  @Notions.own_timer (Sample.collaborators false)
    (Host.run (Sample.idle false)
       [Host.Fire Host.configFileWatcher Host.onDidChange; Host.Elapse 700;
        Host.Fire Host.packageFileWatcher Host.onDidChange;
        Host.Fire Host.configFileWatcher Host.onDidCreate; Host.Elapse 900])
  /\ (length
        (Timers.pending
           (@Host.runtime (Sample.collaborators false)
              (Host.run (Sample.idle false)
                 [Host.Fire Host.configFileWatcher Host.onDidChange; Host.Elapse 700;
                  Host.Fire Host.packageFileWatcher Host.onDidChange;
                  Host.Fire Host.configFileWatcher Host.onDidCreate;
                  Host.Elapse 900]))) <= 1)%nat.
Proof.
  apply (@at_most_one_timer (Sample.collaborators false) (Sample.idle false)).
  reflexivity.
Defined.

Lemma reload_keeps_timer_witness :
  @Host.trace (Sample.collaborators false)
    (Host.run (Sample.idle false)
       [Host.Fire Host.packageFileWatcher Host.onDidChange; Host.Elapse 400;
        Host.Fire Host.configFileWatcher Host.onDidDelete; Host.Elapse 1100])
  = @Host.trace (Sample.collaborators false) (Sample.idle false)
    ++ [(0 + 400, @Host.ReInitialize (Sample.collaborators false));
        (0 + 400, @Host.Execute (Sample.collaborators false) (JS.lit "reloadProjects"));
        (0 + 400, @Host.TriggerAllDiagnostics (Sample.collaborators false)
                    [JS.lit "typescript"]);
        (0 + 1500, @Host.TriggerAllDiagnostics (Sample.collaborators false)
                     [JS.lit "typescript"])].
Proof.
  apply (@reload_keeps_timer (Sample.collaborators false) (Sample.idle false)
           Host.packageFileWatcher Host.configFileWatcher Host.onDidDelete 400 1100).
  - intros p [].
  - left. split; [reflexivity | right; reflexivity].
  - reflexivity.
  - discriminate.
Defined.

Lemma separate_bursts_witness :
  @Host.trace (Sample.collaborators false)
    (Host.run (Sample.idle false)
       (Notions.burst Host.configFileWatcher [(300, Host.packageFileWatcher)]
        ++ [Host.Elapse 2000]
        ++ Notions.burst Host.packageFileWatcher [(1499, Host.packageFileWatcher)]
        ++ [Host.Elapse 1500]))
  = @Host.trace (Sample.collaborators false) (Sample.idle false)
    ++ [(1800, @Host.TriggerAllDiagnostics (Sample.collaborators false)
                 [JS.lit "typescript"])]
    ++ [(5299, @Host.TriggerAllDiagnostics (Sample.collaborators false)
                 [JS.lit "typescript"])].
Proof.
  apply (@separate_bursts (Sample.collaborators false) (Sample.idle false)
           Host.configFileWatcher Host.packageFileWatcher
           [(300, Host.packageFileWatcher)] [(1499, Host.packageFileWatcher)]
           2000 1500).
  - intros p [].
  - repeat constructor.
  - repeat constructor.
  - discriminate.
Defined.

Lemma disposed_host_timer_witness :
  @Host.trace (Sample.collaborators false)
    (Host.step (snd (@HostRest.dispose (Sample.collaborators false) Sample2.pending_host))
       (Host.Elapse 1500))
  = @Host.trace (Sample.collaborators false) Sample2.pending_host
    ++ [(0 + 1500, @Host.TriggerAllDiagnostics (Sample.collaborators false) [])].
Proof.
  apply (@disposed_host_timer (Sample.collaborators false)
           Sample2.pending_host Sample2.pending_host 0 1500).
  - repeat split. exists 1. split; reflexivity.
  - discriminate.
Defined.

Lemma onReady_merges_witness :
  @HostRest.getProvider (Sample.collaborators false)
    (@HostRest.onReady (Sample.collaborators false) Sample2.services
       Sample2.plugins (Sample.idle false))
    (JS.lit "typescript-plugins")
  = Some (@HostRest.newLanguageProvider (Sample.collaborators false) Sample2.services
            (@HostRest.pluginDescription (Sample.collaborators false) Sample2.services
               (JS.lit "typescript-plugins") (MoreNotions.merged Sample2.plugins)))
  /\ NoDup (MoreNotions.merged Sample2.plugins)
  /\ (forall language,
        In language (MoreNotions.merged Sample2.plugins)
        <-> exists plugin,
              In plugin Sample2.plugins /\ HostRest.has_namespace plugin = false
              /\ In language (HostRest.languages plugin))
  /\ (forall before a between b after,
        MoreNotions.merged Sample2.plugins = before ++ a :: between ++ b :: after ->
        exists l1 l2,
          flat_map HostRest.languages
            (List.filter (fun plugin => negb (HostRest.has_namespace plugin))
               Sample2.plugins)
          = l1 ++ a :: l2
          /\ ~ In a l1 /\ ~ In b l1).
Proof.
  apply (@onReady_merges (Sample.collaborators false) Sample2.services
           Sample2.plugins (Sample.idle false)).
  discriminate.
Defined.

(** The merged provider of the sample lists three languages, the one
    named by two plugins once. *)
Example sample_merged :
  MoreNotions.merged Sample2.plugins = [JS.lit "svelte"; JS.lit "astro"; JS.lit "mdx"].
Proof. reflexivity. Qed.

Lemma onConfigDiagnosticsReceived_publishes_witness :
  exists markers,
    @HostRest.onConfigDiagnosticsReceived Sample.codes (Sample.collaborators false)
      Sample2.services true
      (Some (HostRest.mkBody (JS.lit "/proj/tsconfig.json")
               [Sample2.no_start; Sample.code_zero]))
    = JS.Ok (Some (JS.lit "file:///proj/tsconfig.json", markers))
    /\ Forall2 (@MoreNotions.config_marker Sample.codes true)
         [Sample2.no_start; Sample.code_zero] markers.
Proof.
  apply (@onConfigDiagnosticsReceived_publishes Sample.codes (Sample.collaborators false)
           Sample2.services true
           (HostRest.mkBody (JS.lit "/proj/tsconfig.json")
              [Sample2.no_start; Sample.code_zero])
           (JS.lit "file:///proj/tsconfig.json")).
  - reflexivity.
  - constructor; [exact I|]. constructor; [|constructor].
    cbv [MoreNotions.placed MoreNotions.one_based]. simpl. lia.
Defined.

Lemma onConfigDiagnosticsReceived_rejects_witness :
  exists e,
    @HostRest.onConfigDiagnosticsReceived Sample.codes (Sample.collaborators false)
      Sample2.services true
      (Some (HostRest.mkBody (JS.lit "/proj/tsconfig.json")
               ([Sample.code_zero] ++ Sample2.line_zero :: [Sample2.no_start])))
    = JS.Throw e.
Proof.
  apply (@onConfigDiagnosticsReceived_rejects Sample.codes (Sample.collaborators false)
           Sample2.services true
           (HostRest.mkBody (JS.lit "/proj/tsconfig.json")
              ([Sample.code_zero] ++ Sample2.line_zero :: [Sample2.no_start]))
           (JS.lit "file:///proj/tsconfig.json")
           [Sample.code_zero] [Sample2.no_start] Sample2.line_zero).
  - reflexivity.
  - reflexivity.
  - constructor; [|constructor].
    cbv [MoreNotions.placed MoreNotions.one_based]. simpl. lia.
  - cbv [MoreNotions.placed MoreNotions.one_based]. simpl. lia.
Defined.

(** ** The escaping step on a text without backticks *)

Module PlainFacts.
Import Regex RegexFacts ForwardFacts StepFacts FormatDiagnostic MoreNotions.

(** A search that succeeds has found its match at some position. *)
Lemma search_loop_some {A : Type} (r : re A) (rest : list A) :
  forall pre m,
    search_loop r pre rest = Some m ->
    exists p1 p2 y,
      rest = p1 ++ p2
      /\ exec r (rev p1 ++ pre) p2 = Some y
      /\ m = found_of (rev p1 ++ pre) p2 y.
Proof.
  induction rest as [|c t IH]; intros pre m; simpl.
  - destruct (exec r pre []) as [y|] eqn:Hy; [|discriminate].
    intros [= <-]. exists [], [], y. repeat split. exact Hy.
  - destruct (exec r pre (c :: t)) as [y|] eqn:Hy.
    + intros [= <-]. exists [], (c :: t), y. repeat split. exact Hy.
    + intros Hm. destruct (IH _ _ Hm) as (p1 & p2 & y & -> & Hexec & ->).
      exists (c :: p1), p2, y. simpl. rewrite <- app_assoc. simpl.
      repeat split. exact Hexec.
Qed.

(** A pattern that has no match on the empty string, and none where the
    next character is not [a], matches at no position of a text
    without [a]. *)
Lemma search_start_none (r : re JS.char) (a : JS.char) (text : JS.jsstring) :
  (forall pre, exec r pre [] = None) ->
  (forall pre c t, c <> a -> exec r pre (c :: t) = None) ->
  ~ In a text ->
  search r text = None.
Proof.
  intros Hnil Hcons Hfree. unfold search.
  destruct (search_loop r [] text) as [m|] eqn:Hm; [|reflexivity].
  destruct (search_loop_some r text [] m Hm) as (p1 & p2 & y & -> & Hexec & _).
  destruct p2 as [|c t].
  - now rewrite Hnil in Hexec.
  - rewrite Hcons in Hexec; [discriminate|].
    intros ->. apply Hfree. apply in_app_iff. right. now left.
Qed.

Lemma search_codeBlock_none (text : JS.jsstring) :
  ~ In backtick text -> search codeBlockRegex text = None.
Proof.
  apply search_start_none.
  - reflexivity.
  - intros pre c t Hc. unfold exec, codeBlockRegex. rewrite matches_seq.
    change fence with (backtick :: [backtick; backtick]).
    rewrite matches_Lit_other; [reflexivity | congruence].
Qed.

Lemma search_backtickRegex_none (text : JS.jsstring) :
  ~ In backtick text -> search backtickRegex text = None.
Proof.
  apply search_start_none.
  - reflexivity.
  - intros pre c t Hc. unfold exec, backtickRegex. rewrite matches_seq.
    rewrite matches_class_cons.
    destruct (N.eqb_spec backtick c) as [Heq|_]; [congruence | reflexivity].
Qed.

Lemma drop_nul (text : JS.jsstring) :
  forall pre,
    replace_loop (fun c => c) nulRegex
      (fun _ codeBlocks => shift_or_empty codeBlocks) pre text 0 []
    = (flat_map (fun c => if NUL =? c then [] else [c]) text, []).
Proof.
  intros pre. unfold nulRegex. rewrite replace_loop_class.
  induction text as [|c t IH]; [reflexivity|].
  cbn [replace_chars flat_map]. destruct (NUL =? c).
  - cbn [shift_or_empty]. now rewrite IH.
  - now rewrite IH.
Qed.

Lemma escape_backtick_free (text : JS.jsstring) :
  ~ In backtick text ->
  ~ In backtick
      (flat_map (fun c => if gt =? c then [backslash; gt] else [c])
         (flat_map (fun c => if lt =? c then [backslash; lt] else [c]) text)).
Proof.
  intros Hfree Hin.
  apply in_flat_map in Hin as (c & Hc & Hin).
  apply in_flat_map in Hc as (c0 & Hc0 & Hc).
  assert (Hc0' : c0 <> backtick) by (intros ->; contradiction).
  destruct (lt =? c0); destruct Hc as [<-|Hc];
    try (destruct Hc as [<-|[]]);
    match goal with
    | Hin : In backtick (if ?b then _ else _) |- _ =>
        destruct b eqn:Hb; simpl in Hin
    end;
    try apply N.eqb_eq in Hb; intuition (try discriminate; try congruence).
Qed.

(** Without backticks, only the three character patterns do anything. *)
Lemma plain_pipeline (text : JS.jsstring) :
  ~ In backtick text ->
  replaceBackticksExceptCodeBlocks text
  = flat_map (fun c => if NUL =? c then [] else [c])
      (flat_map (fun c => if gt =? c then [backslash; gt] else [c])
         (flat_map (fun c => if lt =? c then [backslash; lt] else [c]) text)).
Proof.
  intros Hfree. unfold replaceBackticksExceptCodeBlocks, replace_all_with.
  rewrite (replace_loop_search_none (fun c => c) codeBlockRegex _ text [] []
             (search_codeBlock_none text Hfree)).
  rewrite map_id.
  unfold ltRegex, gtRegex. rewrite !replace_all_class.
  rewrite (replace_all_search_none backtickRegex highlight _
             (search_backtickRegex_none _ (escape_backtick_free text Hfree))).
  now rewrite drop_nul.
Qed.

Lemma escapeChar_steps (text : JS.jsstring) :
  flat_map (fun c => if NUL =? c then [] else [c])
    (flat_map (fun c => if gt =? c then [backslash; gt] else [c])
       (flat_map (fun c => if lt =? c then [backslash; lt] else [c]) text))
  = flat_map escapeChar text.
Proof.
  induction text as [|c t IH]; [reflexivity|].
  cbn [flat_map]. rewrite !flat_map_app, IH. f_equal.
  unfold escapeChar.
  destruct (N.eqb_spec c NUL) as [->|Hnul]; [reflexivity|].
  destruct (N.eqb_spec c lt) as [->|Hlt]; [reflexivity|].
  destruct (N.eqb_spec lt c) as [Heq|_]; [congruence|].
  cbn [flat_map app].
  destruct (N.eqb_spec c gt) as [->|Hgt]; [reflexivity|].
  destruct (N.eqb_spec gt c) as [Heq|_]; [congruence|].
  cbn [flat_map app].
  destruct (N.eqb_spec NUL c) as [Heq|_]; [congruence | reflexivity].
Qed.

(** X14. On a text without backticks the escaping step works character
    by character: a backslash goes before every angle bracket, every
    NUL is dropped (there is no block to put in its place), and the
    other characters are kept; a backslash of the text is not escaped. *)
Theorem replaceBackticksExceptCodeBlocks_plain (text : JS.jsstring) :
  ~ In backtick text ->
  replaceBackticksExceptCodeBlocks text = flat_map escapeChar text.
Proof.
  intros Hfree.
  rewrite (plain_pipeline text Hfree).
  apply escapeChar_steps.
Qed.

End PlainFacts.

(** ** The tag of a fenced block *)

Module FenceFacts.
Import Regex RegexFacts ForwardFacts StepFacts FormatDiagnostic MoreNotions.

Lemma matches_lookbehind {A : Type} (r : re A) (x : state A) :
  matches (LookBehind r) x
  = if existsb
         (fun k =>
            existsb (fun y => (length (after y) =? length (after x))%nat)
              (matches r (rewind k x)))
         (seq 0 (S (length (before x))))
    then [x] else [].
Proof. reflexivity. Qed.

Lemma matches_bol {A : Type} (x : state A) :
  matches Bol x = match before x with [] => [x] | _ :: _ => [] end.
Proof. reflexivity. Qed.

Lemma rewind_all {A : Type} (b : list A) :
  forall a cs, rewind (length b) (mkState b a cs) = mkState [] (rev b ++ a) cs.
Proof.
  induction b as [|c b IH]; intros a cs; [reflexivity|].
  cbn [length rewind before after caps]. rewrite IH.
  cbn [rev]. now rewrite <- app_assoc.
Qed.

Lemma rewind_keeps {A : Type} (k : nat) :
  forall x : state A,
    rev (before (rewind k x)) ++ after (rewind k x) = rev (before x) ++ after x.
Proof.
  induction k as [|k IH]; intros x; [reflexivity|].
  cbn [rewind]. destruct (before x) as [|c b] eqn:Hb; [now rewrite Hb|].
  rewrite IH. cbn [before after rev]. now rewrite <- app_assoc.
Qed.

(** What a star over a class steps over is in the class, and it leaves
    the captures alone. *)
Lemma star_class_run {A : Type} g (p : A -> bool) (a : list A) :
  forall b cs y,
    In y (matches (Star g (Class p)) (mkState b a cs)) ->
    exists m, a = m ++ after y /\ Forall (fun c => p c = true) m /\ caps y = cs.
Proof.
  induction a as [|c t IH]; intros b cs y Hin.
  - rewrite star_class_nil in Hin. destruct Hin as [<-|[]].
    exists []. repeat split. constructor.
  - rewrite star_class_cons in Hin.
    assert (Hstop : y = mkState b (c :: t) cs ->
                    exists m, c :: t = m ++ after y
                              /\ Forall (fun c => p c = true) m /\ caps y = cs).
    { intros ->. exists []. repeat split. constructor. }
    destruct (p c) eqn:Hc.
    + assert (Hcases : y = mkState b (c :: t) cs
                       \/ In y (matches (Star g (Class p)) (mkState (c :: b) t cs))).
      { destruct g.
        - apply in_app_iff in Hin as [Hin|[<-|[]]]; auto.
        - destruct Hin as [<-|Hin]; auto. }
      destruct Hcases as [Heq|Hmore]; [now apply Hstop|].
      destruct (IH _ _ _ Hmore) as (m & -> & Hall & Hcaps).
      exists (c :: m). repeat split; [now constructor | assumption].
    + destruct Hin as [<-|[]]. now apply Hstop.
Qed.

Lemma star_class_some {A : Type} g (p : A -> bool) (a : list A) :
  forall b cs, matches (Star g (Class p)) (mkState b a cs) <> [].
Proof.
  induction a as [|c t IH]; intros b cs.
  - now rewrite star_class_nil.
  - rewrite star_class_cons. destruct (p c); [|discriminate].
    destruct g; [|discriminate].
    intros Hnil. apply app_eq_nil in Hnil as [_ Hnil]. discriminate.
Qed.

Lemma is_space_backtick : is_space backtick = false.
Proof. reflexivity. Qed.

(** The pattern behind the tag holds right after the white space and the
    three backticks that open the line. *)
Lemma lookbehind_fence (indent rest : JS.jsstring) cs :
  Forall (fun c => is_space c = true) indent ->
  matches
    (LookBehind (Group 1 (Seq Bol (Seq (Star true (Class is_space)) (Lit fence)))))
    (mkState (rev (indent ++ fence)) rest cs)
  = [mkState (rev (indent ++ fence)) rest cs].
Proof.
  intros Hindent. rewrite matches_lookbehind.
  match goal with |- (if ?b then _ else _) = _ => assert (Hb : b = true) end;
    [|now rewrite Hb].
  apply existsb_exists. exists (length (rev (indent ++ fence))). split.
  { apply in_seq. cbn [before]. lia. }
  cbn [before after]. rewrite rewind_all, rev_involutive, <- app_assoc.
  rewrite matches_group, matches_seq, matches_bol.
  cbn [before flat_map]. rewrite app_nil_r, matches_seq.
  destruct (greedy_first is_space (matches (Lit fence)) indent Hindent
              [] (fence ++ rest) cs) as (l & Hl); [reflexivity|].
  rewrite Hl, matches_Lit.
  apply existsb_exists. eexists. split; [left; reflexivity|].
  cbn [set_cap after]. apply Nat.eqb_refl.
Qed.

Lemma exec_fenceTag (indent rest : JS.jsstring) :
  Forall (fun c => is_space c = true) indent ->
  exec fenceTagRegex (rev (indent ++ fence)) (tag ++ rest)
  = Some (mkState (rev tag ++ rev (indent ++ fence)) rest []).
Proof.
  intros Hindent. unfold exec, fenceTagRegex. rewrite matches_seq.
  rewrite (lookbehind_fence indent (tag ++ rest) [] Hindent).
  cbn [flat_map]. fold tag. now rewrite matches_Lit.
Qed.

Lemma exec_fenceTag_other (pre : JS.jsstring) (c : JS.char) (t : JS.jsstring) :
  c <> 116 -> exec fenceTagRegex pre (c :: t) = None.
Proof.
  intros Hc. unfold exec, fenceTagRegex. rewrite matches_seq, matches_lookbehind.
  assert (Hlit : matches (Lit (JS.lit "typescript")) (mkState pre (c :: t) []) = []).
  { change (JS.lit "typescript") with (116 :: JS.lit "ypescript").
    apply matches_Lit_other. congruence. }
  match goal with |- context [if ?b then _ else _] => destruct b end;
    cbn [flat_map]; [|reflexivity].
  now rewrite Hlit.
Qed.

(** A replacement of the leftmost match walks over the positions at which
    the pattern does not match. *)
Lemma replace_first_loop_skip {A : Type} (r : re A) (f : found A -> list A)
    (p rest : list A) :
  forall pre,
    (forall p1 c p2, p = p1 ++ c :: p2 ->
       exec r (rev p1 ++ pre) (c :: p2 ++ rest) = None) ->
    replace_first_loop r f pre (p ++ rest)
    = p ++ replace_first_loop r f (rev p ++ pre) rest.
Proof.
  induction p as [|c p IH]; intros pre Hnone; [reflexivity|].
  pose proof (Hnone [] c p eq_refl) as Hhere. cbn [rev app] in Hhere.
  cbn [app replace_first_loop]. rewrite Hhere. f_equal.
  rewrite IH.
  - cbn [rev]. now rewrite <- app_assoc.
  - intros p1 c' p2 ->. specialize (Hnone (c :: p1) c' p2 eq_refl).
    cbn [rev] in Hnone. now rewrite <- app_assoc in Hnone.
Qed.

Lemma replace_first_loop_found {A : Type} (r : re A) (f : found A -> list A)
    (pre rest : list A) (y : state A) :
  exec r pre rest = Some y ->
  replace_first_loop r f pre rest
  = f (found_of pre rest y)
    ++ drop (length (matched (found_of pre rest y))) rest.
Proof.
  intros Hexec. destruct rest; cbn [replace_first_loop]; now rewrite Hexec.
Qed.

Lemma not_tag_start (indent : JS.jsstring) :
  Forall (fun c => is_space c = true) indent ->
  forall p1 c p2, indent ++ fence = p1 ++ c :: p2 -> c <> 116.
Proof.
  intros Hindent p1 c p2 Heq ->.
  assert (Hin : In 116 (indent ++ fence))
    by (rewrite Heq; apply in_app_iff; right; now left).
  apply in_app_iff in Hin as [Hin|Hin].
  - rewrite List.Forall_forall in Hindent. specialize (Hindent _ Hin). discriminate.
  - vm_compute in Hin. intuition discriminate.
Qed.

Lemma replace_fenceTag (f : found JS.char -> JS.jsstring)
    (indent rest : JS.jsstring) :
  Forall (fun c => is_space c = true) indent ->
  exists m,
    replace_first fenceTagRegex f (typescriptFence indent rest)
    = indent ++ fence ++ f m ++ rest.
Proof.
  intros Hindent. unfold replace_first, typescriptFence. fold tag.
  rewrite (app_assoc indent fence).
  rewrite replace_first_loop_skip.
  - rewrite app_nil_r.
    rewrite (replace_first_loop_found _ f _ _ _ (exec_fenceTag indent rest Hindent)).
    eexists. rewrite <- app_assoc. do 3 f_equal.
    unfold found_of, between. cbn [matched after].
    rewrite length_app, Nat.add_sub, take_app_length.
    now rewrite drop_app_length.
  - intros p1 c p2 Heq. apply exec_fenceTag_other.
    exact (not_tag_start indent Hindent p1 c p2 Heq).
Qed.

(** The indentation of a fence line, as the line match reads it. *)
Lemma search_fenceLine (indent rest : JS.jsstring) :
  Forall (fun c => is_space c = true) indent ->
  exists m,
    search fenceLineRegex (typescriptFence indent rest) = Some m
    /\ group m 1 = indent.
Proof.
  intros Hindent. unfold search, typescriptFence.
  set (line := indent ++ fence ++ JS.lit "typescript" ++ rest).
  assert (Hexec : exists y, exec fenceLineRegex [] line = Some y
                            /\ caps y = [(1%nat, indent)]).
  { unfold exec, fenceLineRegex. rewrite matches_seq, matches_bol.
    cbn [before flat_map]. rewrite app_nil_r.
    rewrite matches_seq, matches_group, flat_map_map.
    assert (Hext : forall y : state JS.char,
              matches (Seq (Lit (JS.lit "```typescript")) (Star true Dot)) y
              = flat_map (matches (Star true Dot))
                  (matches (Lit (JS.lit "```typescript")) y))
      by (intros y; apply matches_seq).
    rewrite (flat_map_ext _ _ (fun y => Hext _)). clear Hext.
    destruct (greedy_first is_space
                (fun y => flat_map (matches (Star true Dot))
                            (matches (Lit (JS.lit "```typescript"))
                               (set_cap 1 (between (mkState [] line []) y) y)))
                indent Hindent [] (fence ++ JS.lit "typescript" ++ rest) [])
      as (l & Hl); [reflexivity|].
    fold line in Hl. rewrite Hl. clear Hl.
    unfold set_cap, between. cbn [before after caps].
    replace (take (length line - length (fence ++ JS.lit "typescript" ++ rest)) line)
      with indent
      by (unfold line; rewrite length_app, Nat.add_sub, take_app_length; reflexivity).
    change (fence ++ JS.lit "typescript" ++ rest)
      with (JS.lit "```typescript" ++ rest).
    rewrite matches_Lit. cbn [flat_map]. rewrite app_nil_r.
    unfold Dot.
    destruct (matches (Star true (Class (fun c => negb (is_line_terminator c))))
                (mkState (rev (JS.lit "```typescript") ++ rev indent ++ []) rest
                   [(1%nat, indent)])) as [|y ys] eqn:Hm.
    - now apply star_class_some in Hm.
    - exists y. split; [reflexivity|].
      assert (Hin : In y (y :: ys)) by now left.
      rewrite <- Hm in Hin.
      now destruct (star_class_run _ _ _ _ _ _ Hin) as (_ & _ & _ & Hcaps). }
  destruct Hexec as (y & Hexec & Hcaps).
  exists (found_of [] line y). split.
  - destruct line; cbn [search_loop]; now rewrite Hexec.
  - unfold group, found_of. cbn [groups]. now rewrite Hcaps.
Qed.

(** X15. On a line that opens a fenced block tagged typescript, behind
    white space only, the tag is rewritten and the rest of the line is
    kept, whatever it is: to prettytserr in the mode the host uses, and
    in the other mode to typescript followed by a new line that holds as
    many spaces as the fence is indented by and the words type Type =. *)
Theorem retagFence_fence (opt : formatOptions) (indent rest : JS.jsstring) :
  Forall (fun c => is_space c = true) indent ->
  retagFence opt (typescriptFence indent rest)
  = indent ++ fence
    ++ match codeBlockHighlightType opt with
       | prettytserr => JS.lit "prettytserr"
       | typescript =>
           JS.lit "typescript" ++ LF :: repeat space (length indent)
             ++ JS.lit "type Type ="
       end
    ++ rest.
Proof.
  intros Hindent. unfold retagFence.
  destruct (codeBlockHighlightType opt).
  - now destruct (replace_fenceTag (fun _ => JS.lit "prettytserr") indent rest Hindent)
      as (_ & ->).
  - destruct (search_fenceLine indent rest Hindent) as (m & -> & ->).
    now destruct (replace_fenceTag
                    (fun _ => JS.lit "typescript" ++ LF :: repeat space (length indent)
                                ++ JS.lit "type Type =")
                    indent rest Hindent) as (_ & ->).
Qed.

(** Where the tag pattern matches, the line is a fence line. *)
Lemma exec_fenceTag_inv (pre rest : JS.jsstring) (y : state JS.char) :
  exec fenceTagRegex pre rest = Some y ->
  opens_typescript_fence (rev pre ++ rest).
Proof.
  unfold exec, fenceTagRegex. rewrite matches_seq. intros Hhead.
  set (x := mkState pre rest []) in *.
  assert (Hin : In y (flat_map (matches (Lit (JS.lit "typescript")))
                        (matches
                           (LookBehind
                              (Group 1 (Seq Bol (Seq (Star true (Class is_space))
                                                   (Lit fence))))) x))).
  { destruct (flat_map _ _) as [|y0 ys]; [discriminate|].
    injection Hhead as ->. now left. }
  clear Hhead. apply in_flat_map in Hin as (x' & Hx' & Hy).
  rewrite matches_lookbehind in Hx'.
  match type of Hx' with
  | In _ (if ?b then _ else _) => destruct b eqn:Hb; [|destruct Hx']
  end.
  destruct Hx' as [<-|[]].
  apply SpanFacts.matches_Lit_inv in Hy.
  apply existsb_exists in Hb as (k & _ & Hb).
  apply existsb_exists in Hb as (y1 & Hy1 & Hlen).
  apply Nat.eqb_eq in Hlen.
  pose proof (rewind_keeps k x) as Hkeep.
  destruct (rewind k x) as [b0 a0 cs0].
  rewrite matches_group in Hy1.
  apply in_map_iff in Hy1 as (y2 & <- & Hy2).
  rewrite matches_seq in Hy2.
  apply in_flat_map in Hy2 as (z & Hz & Hy2).
  rewrite matches_bol in Hz. cbn [before] in Hz.
  destruct b0 as [|c0 b0]; [|destruct Hz].
  destruct Hz as [<-|[]].
  rewrite matches_seq in Hy2.
  apply in_flat_map in Hy2 as (w & Hw & Hy2).
  apply star_class_run in Hw as (m & Ha & Hm & _).
  apply SpanFacts.matches_Lit_inv in Hy2.
  cbn [before after rev app set_cap] in *.
  subst x. cbn [before after] in *.
  assert (Happ : (m ++ fence) ++ after y2 = rev pre ++ rest)
    by (rewrite <- Hkeep, Ha, Hy2, <- app_assoc; reflexivity).
  apply app_inj_2 in Happ as [Hpre Hrest]; [|exact Hlen].
  exists m, (after y). split; [exact Hm|].
  unfold typescriptFence.
  rewrite <- Hkeep, Ha, Hy2, Hrest, Hy. reflexivity.
Qed.

Lemma search_fenceTag_none (line : JS.jsstring) :
  ~ opens_typescript_fence line -> search fenceTagRegex line = None.
Proof.
  intros Hnot. unfold search.
  destruct (search_loop fenceTagRegex [] line) as [m|] eqn:Hm; [|reflexivity].
  destruct (PlainFacts.search_loop_some _ _ _ _ Hm) as (p1 & p2 & y & -> & Hexec & _).
  apply exec_fenceTag_inv in Hexec. rewrite app_nil_r, rev_involutive in Hexec.
  contradiction.
Qed.

(** X16. Only such a line is touched: a line that does not open a
    fenced block tagged typescript behind white space only (the word
    typescript elsewhere on a line, a fence that follows other text, a
    fence with another tag) goes through the step unchanged, in either
    mode. *)
Theorem retagFence_other (opt : formatOptions) (line : JS.jsstring) :
  ~ opens_typescript_fence line ->
  retagFence opt line = line.
Proof.
  intros Hnot. unfold retagFence.
  destruct (codeBlockHighlightType opt);
    apply replace_first_search_none; now apply search_fenceTag_none.
Qed.

End FenceFacts.

(** ** The line step as a whole *)

Module LineFacts.
Import Regex RegexFacts ForwardFacts StepFacts FormatDiagnostic MoreNotions Links.

(** A pattern that must step over a character of a class has no match
    in a text without one. *)
Lemma must_steps {A : Type} (q : A -> bool) (r : re A) :
  must q r ->
  forall x y, In y (matches r x) -> exists c, In c (after x) /\ q c = true.
Proof.
  induction r as [|p|r1 IH1 r2 IH2|r1 IH1 r2 IH2|g r IH|i r IH| |r IH];
    cbn [must]; intros Hmust x y Hin; try contradiction.
  - cbn [matches] in Hin. destruct (after x) as [|c t]; [contradiction|].
    destruct (p c) eqn:Hc; [|contradiction].
    exists c. split; [now left | now apply Hmust].
  - rewrite matches_seq in Hin. apply in_flat_map in Hin as (z & Hz & Hy).
    destruct Hmust as [H1|H2].
    + exact (IH1 H1 x z Hz).
    + destruct (IH2 H2 z y Hy) as (c & Hc & Hq).
      destruct (matches_extends r1 x z Hz) as (m & Hm & _).
      exists c. split; [|exact Hq]. rewrite Hm. apply in_app_iff. now right.
  - rewrite matches_alt in Hin. destruct Hmust as [H1 H2].
    apply in_app_iff in Hin as [Hin|Hin]; eauto.
  - rewrite matches_group in Hin. apply in_map_iff in Hin as (y' & _ & Hy').
    eauto.
Qed.

Lemma search_must_none (r : re JS.char) (a : JS.char) (text : JS.jsstring) :
  must (N.eqb a) r -> ~ In a text -> search r text = None.
Proof.
  intros Hmust Hfree. unfold search.
  destruct (search_loop r [] text) as [m|] eqn:Hm; [|reflexivity].
  destruct (PlainFacts.search_loop_some r text [] m Hm)
    as (p1 & p2 & y & -> & Hexec & _).
  unfold exec in Hexec.
  destruct (matches r (mkState (rev p1 ++ []) p2 [])) as [|y0 ys] eqn:Hys;
    [discriminate|].
  assert (Hin : In y0 (matches r (mkState (rev p1 ++ []) p2 [])))
    by (rewrite Hys; now left).
  destruct (must_steps _ r Hmust _ _ Hin) as (c & Hc & Hq).
  apply N.eqb_eq in Hq. subst c. exfalso. apply Hfree.
  apply in_app_iff. now right.
Qed.

Lemma fileLink_must : must (N.eqb 93) fileLinkRegex.
Proof.
  unfold fileLinkRegex. cbn [must Plus Opt Lit icon_file].
  do 5 right. now intros a.
Qed.

Lemma iconLink_must : must (N.eqb 93) iconLinkRegex.
Proof.
  unfold iconLinkRegex. cbn [must]. right. right. left. now intros a.
Qed.

Lemma not_fence_without_backtick (line : JS.jsstring) :
  ~ In backtick line -> ~ opens_typescript_fence line.
Proof.
  intros Hfree (indent & rest & _ & ->). apply Hfree.
  unfold typescriptFence. apply in_app_iff. right. now left.
Qed.

Lemma links_unchanged_no_bracket (opt : formatOptions) (line : JS.jsstring) :
  ~ In 93 line -> stripIconLink opt (collapseFileLink line) = line.
Proof.
  intros Hfree.
  apply LinkFacts.links_unchanged; apply (search_must_none _ 93);
    auto using fileLink_must, iconLink_must.
Qed.

Lemma plain_line_unchanged (opt : formatOptions) (line : JS.jsstring) :
  ~ In 93 line -> ~ In backtick line -> finishLine opt line = line.
Proof.
  intros Hbrackets Hticks.
  apply FormatFacts.finishLine_plain.
  - apply (search_must_none _ 93); auto using fileLink_must.
  - apply (search_must_none _ 93); auto using iconLink_must.
  - now apply FenceFacts.search_fenceTag_none, not_fence_without_backtick.
Qed.

(** X17. A line without a closing bracket holds no link, and the line
    step only looks at its fence: it is rewritten as the fence step
    alone rewrites it, and left as it is when it has no backtick
    either. *)
Theorem finishLine_no_bracket (opt : formatOptions) (line : JS.jsstring) :
  ~ In 93 line ->
  finishLine opt line = retagFence opt line
  /\ (~ In backtick line -> finishLine opt line = line).
Proof.
  intros Hfree. split.
  - unfold finishLine. now rewrite links_unchanged_no_bracket.
  - intros Hticks. now apply plain_line_unchanged.
Qed.

Lemma renderType_shape (s : Lsp.DiagnosticSeverity) (str : JS.jsstring) :
  renderType s str = ESC :: 91 :: colourCode s ++ str ++ ESC :: JS.lit "[0m".
Proof. destruct s; reflexivity. Qed.

(** A replacement of every match keeps a first character at which the
    pattern does not match. *)
Lemma replace_all_head {A : Type} (r : re A) (f : found A -> list A)
    (c : A) (t : list A) :
  forward r = true ->
  exec r [] (c :: t) = None ->
  replace_all r f (c :: t) = c :: replace_all r f t.
Proof.
  intros Hfwd Hnone. unfold replace_all, replace_all_with.
  cbn [replace_loop]. rewrite Hnone.
  rewrite (replace_loop_forward (fun c => c) r _ Hfwd t [c] [] 0 tt).
  now destruct (replace_loop _ r _ [] t 0 tt).
Qed.

Lemma not_fence_after_ESC (s : JS.jsstring) : ~ opens_typescript_fence (ESC :: s).
Proof.
  intros (indent & rest & Hindent & Heq). unfold typescriptFence in Heq.
  destruct indent as [|c indent].
  - discriminate.
  - injection Heq as <- _. inversion Hindent as [|? ? Hc _]. discriminate.
Qed.

(** A line that opens with the colour sequence is no fence line, and the
    link steps keep its first character. *)
Lemma coloured_line_step (opt : formatOptions) (s : JS.jsstring) :
  finishLine opt (ESC :: s) = stripIconLink opt (collapseFileLink (ESC :: s)).
Proof.
  unfold finishLine.
  assert (Hcollapse : collapseFileLink (ESC :: s) = ESC :: collapseFileLink s).
  { unfold collapseFileLink. apply replace_all_head; [reflexivity|].
    now apply LinkFacts.exec_fileLink_none. }
  rewrite Hcollapse.
  assert (Hstrip : forall t, stripIconLink opt (ESC :: t) = ESC :: stripIconLink opt t).
  { intros t. unfold stripIconLink. destruct (negb (showLink opt)); [|reflexivity].
    apply replace_all_head; [reflexivity|].
    now apply LinkFacts.exec_iconLink_none. }
  rewrite Hstrip. unfold retagFence.
  destruct (codeBlockHighlightType opt);
    apply replace_first_search_none, FenceFacts.search_fenceTag_none,
      not_fence_after_ESC.
Qed.

(** X18. The first line is never retagged: it is cut by three
    characters and opens with the colour sequence, and the link steps
    keep that opening, so the line is no fence line for the fence step.
    What it becomes is decided by the two link steps alone. *)
Theorem formatLine_first (opt : formatOptions) (sev : option Lsp.DiagnosticSeverity)
    (line : JS.jsstring) :
  formatLine opt sev line 0
  = stripIconLink opt
      (collapseFileLink (renderType (default Lsp.Error sev) (drop 3 line))).
Proof.
  unfold formatLine, colorFirstLine, JS.substring_from.
  cbn [Nat.eqb]. rewrite renderType_shape.
  apply coloured_line_step.
Qed.

Lemma colourCode_name (s : Lsp.DiagnosticSeverity) :
  Forall (fun c => is_name_char c = true) (colourCode s).
Proof. destruct s; repeat constructor. Qed.

(** X19. On the first line the bracket of the colour sequence is taken
    for the opening of a file link. When the line holds the file icon
    and a closing bracket, the match starts in the colour sequence: the
    first word of the message stands where the file name should, and
    the text between that word and the icon, with the name of the file
    in it, is lost. *)
Theorem first_line_link_swallowed (s : Lsp.DiagnosticSeverity)
    (word : JS.jsstring) (q : bool) (link post : JS.jsstring) :
  Forall (fun c => is_name_char c = true) word ->
  link <> [] ->
  Forall (fun c => is_line_terminator c = false /\ c <> 287) link ->
  (q = false -> head link = Some space) ->
  collapseFileLink
    (renderType s (word ++ quoted q ++ link ++ icon_file ++ 93 :: post))
  = ESC :: nameAndIcon (colourCode s ++ word)
    ++ collapseFileLink (post ++ ESC :: JS.lit "[0m").
Proof.
  intros Hword Hlink Hchars Hhead. rewrite renderType_shape.
  pose proof (LinkFacts.collapseFileLink_fileLink [ESC] false
                (colourCode s ++ word) q link (post ++ ESC :: JS.lit "[0m"))
    as Hcollapse.
  cbn [app] in Hcollapse. rewrite <- Hcollapse.
  - do 2 f_equal. unfold fileLink. cbn [quoted app].
    repeat first [rewrite <- app_assoc | progress cbn [app]]. reflexivity.
  - repeat constructor. discriminate.
  - destruct s; discriminate.
  - apply Forall_app. split; [apply colourCode_name | exact Hword].
  - exact Hlink.
  - eapply List.Forall_impl; [|exact Hchars]. now intros c [Hc _].
  - intros l1 l2 ->. apply Forall_app in Hchars as [_ Hicon].
    inversion Hicon as [|? ? [_ Hunit] _]. now apply Hunit.
  - exact Hhead.
Qed.






Lemma split_chars (sep : JS.char) (s : JS.jsstring) :
  forall l c, In l (JS.split sep s) -> In c l -> In c s.
Proof.
  induction s as [|a s IH]; intros l c Hl Hc; cbn [JS.split] in Hl.
  - destruct Hl as [<-|[]]. destruct Hc.
  - destruct (a =? sep).
    + destruct Hl as [<-|Hl]; [destruct Hc|]. right. eauto.
    + destruct (JS.split sep s) as [|l0 ls] eqn:Hsplit.
      * destruct Hl as [<-|[]]. destruct Hc as [<-|[]]. now left.
      * destruct Hl as [<-|Hl].
        -- destruct Hc as [<-|Hc]; [now left|]. right. apply (IH l0); [now left | exact Hc].
        -- right. apply (IH l); [now right | exact Hc].
Qed.

Lemma escapeChar_chars (text : JS.jsstring) (c : JS.char) :
  In c (flat_map escapeChar text) -> c = backslash \/ In c text.
Proof.
  intros Hin. apply in_flat_map in Hin as (a & Ha & Hc).
  unfold escapeChar in Hc.
  destruct (a =? NUL); [destruct Hc|].
  destruct (a =? lt) eqn:Hlt.
  { apply N.eqb_eq in Hlt. subst a.
    destruct Hc as [<-|[<-|[]]]; auto. }
  destruct (a =? gt) eqn:Hgt.
  { apply N.eqb_eq in Hgt. subst a.
    destruct Hc as [<-|[<-|[]]]; auto. }
  destruct Hc as [<-|[]]. auto.
Qed.

Lemma drop_chars {A : Type} (n : nat) (l : list A) (c : A) :
  In c (drop n l) -> In c l.
Proof.
  intros Hin. rewrite <- (take_drop n l). apply in_app_iff. now right.
Qed.

(** The colour sequences bring no closing bracket and no backtick. *)
Lemma renderType_chars (s : Lsp.DiagnosticSeverity) (str : JS.jsstring)
    (c : JS.char) :
  c = backtick \/ c = 93 -> ~ In c str -> ~ In c (renderType s str).
Proof.
  intros Hc Hfree Hin. rewrite renderType_shape in Hin.
  destruct Hin as [Hin|[Hin|Hin]];
    [destruct Hc; subst c; discriminate | destruct Hc; subst c; discriminate |].
  apply in_app_iff in Hin as [Hin|Hin].
  - destruct s, Hc; subst c; vm_compute in Hin; intuition discriminate.
  - apply in_app_iff in Hin as [Hin|Hin]; [contradiction|].
    destruct Hc; subst c; vm_compute in Hin; intuition discriminate.
Qed.

Section WithMarkdown.
Context `{Markdown}.

(** C10, as the code has it. The lines of a formatted message are those
    of the markdown text after the escaping step. The first of them
    is cut by three characters, a backslash the escaping has put there
    counted, and wrapped in the colour sequence of the severity: ESC
    [1;31m for Error and for a missing severity, ESC [1;32m for Warning,
    ESC [1;36m for Information and for Hint, closed by ESC [0m; the two
    link steps then run on it. No other line is cut or coloured: each
    goes through the link steps and the fence step, and comes out with
    its full text when it holds no closing bracket and opens no
    typescript fence. *)
Theorem formatted_lines (opt : formatOptions) (d : Lsp.Diagnostic) :
  exists first rest,
    JS.split LF (replaceBackticksExceptCodeBlocks (formatDiagnosticIntoMarkdown d))
    = first :: rest
    /\ formatted opt d
       = JS.join [LF]
           (stripIconLink opt
              (collapseFileLink
                 (ESC :: JS.lit "["
                  ++ match default Lsp.Error (Lsp.severity d) with
                     | Lsp.Error => JS.lit "1;31m"
                     | Lsp.Warning => JS.lit "1;32m"
                     | Lsp.Information | Lsp.Hint => JS.lit "1;36m"
                     end
                  ++ drop 3 first ++ ESC :: JS.lit "[0m"))
            :: map (finishLine opt) rest)
    /\ map Lsp.message (format [d] opt) = [formatted opt d ++ [LF; LF]]
    /\ (forall line,
          ~ In 93 line -> ~ opens_typescript_fence line ->
          finishLine opt line = line).
Proof.
  destruct (FormatFacts.split_cons LF
              (replaceBackticksExceptCodeBlocks (formatDiagnosticIntoMarkdown d)))
    as (first & rest & Hsplit).
  exists first, rest. split; [exact Hsplit|].
  split; [|split; [reflexivity|]].
  - unfold formatted. rewrite Hsplit. unfold JS.mapi. cbn [JS.mapi_from].
    rewrite FormatFacts.mapi_from_later.
    unfold formatLine, colorFirstLine, JS.substring_from. cbn [Nat.eqb].
    rewrite renderType_shape, coloured_line_step.
    now destruct (default Lsp.Error (Lsp.severity d)).
  - intros line Hbrackets Hfence. unfold finishLine.
    rewrite links_unchanged_no_bracket by exact Hbrackets.
    unfold retagFence.
    destruct (codeBlockHighlightType opt);
      now apply replace_first_search_none, FenceFacts.search_fenceTag_none.
Qed.

(** X20. A message whose markdown text has no backtick and no closing
    bracket comes out as that text with a backslash before every angle
    bracket and without its NULs, line by line: the first line cut by
    its first three characters and wrapped in the colour of the
    severity, the other lines as they are. *)
Theorem formatted_plain (opt : formatOptions) (d : Lsp.Diagnostic) :
  ~ In backtick (formatDiagnosticIntoMarkdown d) ->
  ~ In 93 (formatDiagnosticIntoMarkdown d) ->
  exists first rest,
    JS.split LF (flat_map escapeChar (formatDiagnosticIntoMarkdown d))
    = first :: rest
    /\ formatted opt d
       = JS.join [LF]
           (renderType (default Lsp.Error (Lsp.severity d)) (drop 3 first) :: rest).
Proof.
  intros Hticks Hbrackets.
  assert (Hplain : forall c, c = backtick \/ c = 93 ->
            ~ In c (flat_map escapeChar (formatDiagnosticIntoMarkdown d))).
  { intros c Hc Hin. apply escapeChar_chars in Hin as [->|Hin].
    - destruct Hc; discriminate.
    - destruct Hc as [-> | ->]; contradiction. }
  unfold formatted.
  rewrite (PlainFacts.plain_pipeline _ Hticks), PlainFacts.escapeChar_steps.
  destruct (FormatFacts.split_cons LF
              (flat_map escapeChar (formatDiagnosticIntoMarkdown d)))
    as (first & rest & Hsplit).
  exists first, rest. split; [exact Hsplit|].
  assert (Hlines : forall l c, In l (first :: rest) -> c = backtick \/ c = 93 ->
                     ~ In c l).
  { intros l c Hl Hc Hin. apply (Hplain c Hc).
    apply (split_chars LF _ l c); [now rewrite Hsplit | exact Hin]. }
  rewrite Hsplit. unfold JS.mapi. cbn [JS.mapi_from].
  rewrite FormatFacts.mapi_from_later.
  f_equal. f_equal.
  - unfold formatLine, colorFirstLine, JS.substring_from. cbn [Nat.eqb].
    apply plain_line_unchanged; apply renderType_chars; auto;
      intros Hin; apply drop_chars in Hin;
      apply (Hlines first _ (or_introl eq_refl)) in Hin; auto.
  - rewrite <- (map_id rest) at 2. apply map_ext_in. intros l Hl.
    apply plain_line_unchanged.
    + apply (Hlines l 93); [now right | now right].
    + apply (Hlines l backtick); [now right | now left].
Qed.

End WithMarkdown.

End LineFacts.

(** ** The statements on the formatter, on sample lines *)

Lemma replaceBackticksExceptCodeBlocks_plain_witness :
  FormatDiagnostic.replaceBackticksExceptCodeBlocks
    (JS.lit "Vec<T> \ " ++ [FormatDiagnostic.NUL] ++ JS.lit "x")
  = JS.lit "Vec\<T\> \ x".
Proof.
  apply (PlainFacts.replaceBackticksExceptCodeBlocks_plain
           (JS.lit "Vec<T> \ " ++ [FormatDiagnostic.NUL] ++ JS.lit "x")).
  vm_compute. intuition discriminate.
Defined.

Lemma retagFence_fence_witness :
  FormatDiagnostic.retagFence
    (FormatDiagnostic.mkOptions false FormatDiagnostic.typescript)
    (MoreNotions.typescriptFence (JS.lit "  ") (JS.lit "react"))
  = JS.lit "  " ++ FormatDiagnostic.fence
    ++ (JS.lit "typescript" ++ FormatDiagnostic.LF
          :: repeat FormatDiagnostic.space (length (JS.lit "  "))
          ++ JS.lit "type Type =")
    ++ JS.lit "react".
Proof.
  apply (FenceFacts.retagFence_fence
           (FormatDiagnostic.mkOptions false FormatDiagnostic.typescript)
           (JS.lit "  ") (JS.lit "react")).
  repeat constructor.
Defined.

Lemma retagFence_other_witness :
  FormatDiagnostic.retagFence
    (FormatDiagnostic.mkOptions false FormatDiagnostic.prettytserr)
    (JS.lit "see ```typescript")
  = JS.lit "see ```typescript".
Proof.
  apply (FenceFacts.retagFence_other
           (FormatDiagnostic.mkOptions false FormatDiagnostic.prettytserr)
           (JS.lit "see ```typescript")).
  intros (indent & rest & Hindent & Heq).
  destruct indent as [|c indent]; [discriminate|].
  injection Heq as <- _. inversion Hindent. discriminate.
Defined.

Lemma finishLine_no_bracket_witness :
  FormatDiagnostic.finishLine
    (FormatDiagnostic.mkOptions false FormatDiagnostic.prettytserr)
    (JS.lit " ```typescript [a.ts")
  = FormatDiagnostic.retagFence
      (FormatDiagnostic.mkOptions false FormatDiagnostic.prettytserr)
      (JS.lit " ```typescript [a.ts")
  /\ (~ In FormatDiagnostic.backtick (JS.lit " ```typescript [a.ts") ->
      FormatDiagnostic.finishLine
        (FormatDiagnostic.mkOptions false FormatDiagnostic.prettytserr)
        (JS.lit " ```typescript [a.ts")
      = JS.lit " ```typescript [a.ts").
Proof.
  apply (LineFacts.finishLine_no_bracket
           (FormatDiagnostic.mkOptions false FormatDiagnostic.prettytserr)
           (JS.lit " ```typescript [a.ts")).
  vm_compute. intuition discriminate.
Defined.

Lemma first_line_link_swallowed_witness :
  FormatDiagnostic.collapseFileLink
    (FormatDiagnostic.renderType Lsp.Error
       (JS.lit "Error" ++ Links.quoted false ++ JS.lit " in ['a.ts' "
        ++ FormatDiagnostic.icon_file ++ 93 :: JS.lit " here"))
  = FormatDiagnostic.ESC
    :: Links.nameAndIcon (MoreNotions.colourCode Lsp.Error ++ JS.lit "Error")
    ++ FormatDiagnostic.collapseFileLink
         (JS.lit " here" ++ FormatDiagnostic.ESC :: JS.lit "[0m").
Proof.
  apply (LineFacts.first_line_link_swallowed Lsp.Error (JS.lit "Error") false
           (JS.lit " in ['a.ts' ") (JS.lit " here")).
  - repeat constructor.
  - discriminate.
  - repeat constructor; discriminate.
  - reflexivity.
Defined.

(** The same line as it is shown: the colour sequence, the first word in
    the place of the file name, the icon. *)
Example sample_first_line :
  FormatDiagnostic.formatLine
    (FormatDiagnostic.mkOptions false FormatDiagnostic.prettytserr)
    (Some Lsp.Error)
    (JS.lit "## Error in ['a.ts' " ++ FormatDiagnostic.icon_file ++ JS.lit "] here")
    0
  = FormatDiagnostic.ESC :: JS.lit "[1;31mError " ++ FormatDiagnostic.icon_file
    ++ JS.lit "] here" ++ FormatDiagnostic.ESC :: JS.lit "[0m".
Proof. vm_compute. reflexivity. Qed.

Lemma formatted_plain_witness :
  exists first rest,
    JS.split FormatDiagnostic.LF
      (flat_map MoreNotions.escapeChar
         (@FormatDiagnostic.formatDiagnosticIntoMarkdown Sample2.raw Sample2.plain))
    = first :: rest
    /\ @FormatDiagnostic.formatted Sample2.raw
         (FormatDiagnostic.mkOptions false FormatDiagnostic.prettytserr)
         Sample2.plain
       = JS.join [FormatDiagnostic.LF]
           (FormatDiagnostic.renderType
              (default Lsp.Error (Lsp.severity Sample2.plain)) (drop 3 first)
            :: rest).
Proof.
  apply (@LineFacts.formatted_plain Sample2.raw
           (FormatDiagnostic.mkOptions false FormatDiagnostic.prettytserr)
           Sample2.plain).
  - vm_compute. intuition discriminate.
  - vm_compute. intuition discriminate.
Defined.

(** The sample message as it is shown. *)
Example sample_formatted :
  @FormatDiagnostic.formatted Sample2.raw
    (FormatDiagnostic.mkOptions false FormatDiagnostic.prettytserr) Sample2.plain
  = FormatDiagnostic.ESC :: JS.lit "[1;32mType \<T\> is not"
    ++ FormatDiagnostic.ESC :: JS.lit "[0m" ++ FormatDiagnostic.LF
    :: JS.lit "assignable.".
Proof. vm_compute. reflexivity. Qed.

(** C10, where the claim fails. The first line of the markdown text is
    [<x> y], which less its first three characters is [ y]; the message
    has [\> y] in the colour of Error, cut after the escaping. And the
    second line does not keep its full text: the icon link goes, and
    with it all that stands before the last closing parenthesis. *)
Lemma first_line_cut_after_escaping :
  @FormatDiagnostic.formatDiagnosticIntoMarkdown Sample2.raw Sample2.angle
  = JS.lit "<x> y" ++ FormatDiagnostic.LF
    :: Links.iconLink FormatDiagnostic.icon_link (JS.lit "u")
    ++ JS.lit " and (note) end"
  /\ @FormatDiagnostic.formatted Sample2.raw
       (FormatDiagnostic.mkOptions false FormatDiagnostic.prettytserr) Sample2.angle
     = FormatDiagnostic.ESC :: JS.lit "[1;31m\> y"
       ++ FormatDiagnostic.ESC :: JS.lit "[0m"
       ++ FormatDiagnostic.LF :: JS.lit " end".
Proof. split; vm_compute; reflexivity. Qed.



(** ** The escaping step against the spec's words *)

Module FencedFacts.
Import Regex RegexFacts ForwardFacts StepFacts FormatDiagnostic Tokens Fenced.

Lemma after_fence_spec (s rest : JS.jsstring) :
  after_fence s = Some rest <-> s = fence ++ rest.
Proof.
  unfold after_fence. change fence with [backtick; backtick; backtick].
  destruct s as [|a [|b [|c s]]]; cbn [app]; try (split; discriminate).
  split.
  - destruct (N.eqb_spec a backtick) as [->|], (N.eqb_spec b backtick) as [->|],
      (N.eqb_spec c backtick) as [->|]; cbn [andb]; try discriminate.
    now intros [= ->].
  - intros [= -> -> -> ->]. reflexivity.
Qed.

Lemma matches_Lit_none (l : JS.jsstring) (x : state JS.char) :
  (forall t, after x <> l ++ t) -> matches (Lit l) x = [].
Proof.
  intros Hno. destruct (matches (Lit l) x) as [|y ys] eqn:Hm; [reflexivity|].
  exfalso. apply (Hno (after y)). apply SpanFacts.matches_Lit_inv.
  rewrite Hm. now left.
Qed.

(** The body runs to the first fence after the opening one. *)
Lemma until_fence_some (s : JS.jsstring) :
  forall body rest,
    until_fence s = Some (body, rest) ->
    s = body ++ fence ++ rest
    /\ forall m1 c m2,
         body = m1 ++ c :: m2 -> after_fence (c :: m2 ++ fence ++ rest) = None.
Proof.
  induction s as [|a s IH]; intros body rest Hu; cbn [until_fence] in Hu.
  - discriminate.
  - destruct (after_fence (a :: s)) as [r|] eqn:Haf.
    + injection Hu as <- <-. apply after_fence_spec in Haf.
      split; [exact Haf|]. intros [|x m1] c m2 Hm; discriminate.
    + destruct (until_fence s) as [[b r]|] eqn:Hs; [|discriminate].
      injection Hu as <- <-. destruct (IH b r eq_refl) as [-> Hfirst].
      split; [reflexivity|].
      intros [|x m1] c m2 Hm; cbn [app] in Hm; injection Hm as -> ->.
      * exact Haf.
      * now apply (Hfirst m1 c m2).
Qed.

Lemma until_fence_none (s : JS.jsstring) :
  until_fence s = None -> forall m t, s <> m ++ fence ++ t.
Proof.
  induction s as [|a s IH]; intros Hu m t Heq.
  - destruct m; discriminate.
  - cbn [until_fence] in Hu.
    destruct (after_fence (a :: s)) as [r|] eqn:Haf; [discriminate|].
    destruct (until_fence s) as [[b r]|] eqn:Hs; [discriminate|].
    destruct m as [|x m]; cbn [app] in Heq.
    + apply after_fence_spec in Heq. congruence.
    + injection Heq as -> Hs'. now apply (IH eq_refl m t).
Qed.

Lemma any_char (body : JS.jsstring) :
  Forall (fun c => is_space c || negb (is_space c) = true) body.
Proof. apply List.Forall_forall. intros c _. apply orb_negb_r. Qed.

(** The pattern of the fenced block matches where a block opens, and
    matches that block. *)
Lemma exec_opening_block (pre s : JS.jsstring) :
  match opening_block s with
  | Some (block, rest) =>
      s = block ++ rest /\ block <> []
      /\ exists y, exec codeBlockRegex pre s = Some y
                   /\ matched (found_of pre s y) = block
  | None => exec codeBlockRegex pre s = None
  end.
Proof.
  unfold opening_block.
  destruct (after_fence s) as [s'|] eqn:Haf.
  - apply after_fence_spec in Haf. subst s.
    destruct (until_fence s') as [[body rest]|] eqn:Hu.
    + destruct (until_fence_some s' body rest Hu) as [-> Hfirst].
      split; [now rewrite <- !app_assoc|]. split; [discriminate|].
      unfold exec, codeBlockRegex. rewrite matches_seq, matches_Lit.
      cbn [flat_map]. rewrite app_nil_r, matches_seq.
      destruct (lazy_first (fun c => is_space c || negb (is_space c))
                  (matches (Lit fence)) body (any_char body)
                  (rev fence ++ pre) (fence ++ rest) []) as (l & Hl).
      { intros m1 c m2 Hm. apply matches_Lit_none. cbn [after]. intros t Ht.
        apply after_fence_spec in Ht. rewrite (Hfirst m1 c m2 Hm) in Ht.
        discriminate. }
      rewrite Hl, matches_Lit. cbn [app head].
      eexists. split; [reflexivity|].
      unfold found_of. cbn [matched]. apply between_app. cbn [after].
      now rewrite <- !app_assoc.
    + unfold exec, codeBlockRegex. rewrite matches_seq, matches_Lit.
      cbn [flat_map]. rewrite app_nil_r, matches_seq.
      destruct (flat_map _ _) as [|y ys] eqn:Hm; [reflexivity|]. exfalso.
      assert (Hin : In y (y :: ys)) by now left.
      rewrite <- Hm in Hin. apply in_flat_map in Hin as (w & Hw & Hy).
      apply FenceFacts.star_class_run in Hw as (m & Hs & _).
      apply SpanFacts.matches_Lit_inv in Hy.
      apply (until_fence_none s' Hu m (after y)). now rewrite Hs, Hy.
  - unfold exec, codeBlockRegex. rewrite matches_seq.
    rewrite matches_Lit_none; [reflexivity|].
    cbn [after]. intros t Ht. apply after_fence_spec in Ht. congruence.
Qed.

(** Where no block opens, the first character is a token of its own. *)
Lemma tokens_cons (c : JS.char) (t : JS.jsstring) :
  opening_block (c :: t) = None -> tokens (c :: t) = Chr c :: tokens t.
Proof.
  intros Hopen. pose proof (exec_opening_block [] (c :: t)) as Hexec.
  rewrite Hopen in Hexec. unfold tokens. cbn [replace_loop]. rewrite Hexec.
  rewrite (replace_loop_forward Chr codeBlockRegex _ eq_refl t [c] [] 0 tt).
  now destruct (replace_loop Chr codeBlockRegex _ [] t 0 tt).
Qed.

(** Where a block opens, it is one token, and the reading goes on after
    it. *)
Lemma tokens_block (s block rest : JS.jsstring) :
  opening_block s = Some (block, rest) ->
  tokens s = Block block :: tokens rest.
Proof.
  intros Hopen. pose proof (exec_opening_block [] s) as Hexec.
  rewrite Hopen in Hexec. destruct Hexec as (-> & Hne & y & Hy & Hm).
  destruct block as [|c block]; [contradiction|].
  unfold tokens. cbn [app replace_loop]. cbn [app] in Hy, Hm.
  rewrite Hy, Hm. cbn [length].
  rewrite (replace_loop_skip Chr codeBlockRegex _ block eq_refl rest [c] tt).
  now destruct (replace_loop Chr codeBlockRegex _ [] rest 0 tt).
Qed.

Lemma opening_block_shorter (s block rest : JS.jsstring) :
  opening_block s = Some (block, rest) -> (length rest < length s)%nat.
Proof.
  intros Hopen. pose proof (exec_opening_block [] s) as Hexec.
  rewrite Hopen in Hexec. destruct Hexec as (-> & Hne & _).
  rewrite length_app. destruct block; [contradiction|]. cbn [length]. lia.
Qed.

(** The matches of the pattern are the fenced blocks of the text. *)
Lemma tokens_parts_within (n : nat) :
  forall s, (length s <= n)%nat -> tokens s = parts_within n s.
Proof.
  induction n as [|n IH]; intros s Hlen.
  - destruct s; [reflexivity | cbn [length] in Hlen; lia].
  - destruct s as [|c t]; [reflexivity|]. cbn [parts_within].
    destruct (opening_block (c :: t)) as [[block rest]|] eqn:Hopen.
    + rewrite (tokens_block _ _ _ Hopen). f_equal. apply IH.
      apply opening_block_shorter in Hopen. cbn [length] in *. lia.
    + rewrite (tokens_cons _ _ Hopen). f_equal. apply IH.
      cbn [length] in Hlen. lia.
Qed.

Lemma tokens_parts (text : JS.jsstring) : tokens text = parts text.
Proof. now apply tokens_parts_within. Qed.

Lemma is_tick_backtick (t : token) : is_tick t = is_backtick t.
Proof.
  destruct t as [c|b]; [|reflexivity]. unfold is_backtick. cbn [is_tick encode].
  apply N.eqb_sym.
Qed.

Lemma until_tick_spec (toks : list token) :
  forall g r,
    until_tick toks = (g, r) ->
    toks = g ++ r
    /\ Forall (fun t => is_backtick t = false) g
    /\ match r with [] => True | t :: _ => t = Chr backtick end.
Proof.
  induction toks as [|t toks IH]; intros g r Hu; cbn [until_tick] in Hu.
  - injection Hu as <- <-. repeat split. constructor.
  - destruct (is_tick t) eqn:Ht.
    + injection Hu as <- <-. repeat split; [constructor|].
      apply EscapeFacts.is_backtick_eq. now rewrite <- is_tick_backtick.
    + destruct (until_tick toks) as [g' r'] eqn:Hrest. injection Hu as <- <-.
      destruct (IH g' r' eq_refl) as (-> & Hg & Hr).
      repeat split; [|exact Hr]. constructor; [|exact Hg].
      now rewrite <- is_tick_backtick.
Qed.

Lemma until_tick_run (g post : list token) :
  Forall (fun t => is_backtick t = false) g ->
  until_tick (g ++ Chr backtick :: post) = (g, Chr backtick :: post).
Proof.
  induction 1 as [|t g Ht _ IH]; [reflexivity|].
  cbn [app until_tick]. rewrite is_tick_backtick, Ht. now rewrite IH.
Qed.

(** What the pattern of the span matches is a span. *)
Lemma exec_span_inv (pre toks : list token) (y : state token) :
  exec spanRegex pre toks = Some y ->
  exists g post,
    toks = Chr backtick :: g ++ Chr backtick :: post
    /\ g <> []
    /\ Forall (fun t => is_backtick t = false) g.
Proof.
  unfold exec, spanRegex. intros Hhead.
  set (x := mkState pre toks []) in *.
  assert (Hin : In y (matches
                        (Seq (Class is_backtick)
                           (Seq (Group 1
                                   (Plus true
                                      (Class (fun t => negb (encode t =? backtick)))))
                              (Class is_backtick))) x)).
  { destruct (matches _ x) as [|y0 ys]; [discriminate|].
    injection Hhead as ->. now left. }
  clear Hhead. rewrite matches_seq in Hin.
  apply in_flat_map in Hin as (x1 & Hx1 & Hin).
  subst x. destruct toks as [|t0 toks]; [destruct Hx1|].
  rewrite matches_class_cons in Hx1.
  destruct (is_backtick t0) eqn:Ht0; [|destruct Hx1].
  destruct Hx1 as [<-|[]]. apply EscapeFacts.is_backtick_eq in Ht0. subst t0.
  rewrite matches_seq in Hin. apply in_flat_map in Hin as (x2 & Hx2 & Hin).
  rewrite matches_group in Hx2. apply in_map_iff in Hx2 as (x2' & <- & Hx2).
  unfold Plus in Hx2. rewrite matches_seq in Hx2.
  apply in_flat_map in Hx2 as (z & Hz & Hx2).
  destruct toks as [|c1 toks]; [destruct Hz|].
  rewrite matches_class_cons in Hz.
  destruct (negb (encode c1 =? backtick)) eqn:Hc1; [|destruct Hz].
  destruct Hz as [<-|[]].
  apply FenceFacts.star_class_run in Hx2 as (m & Hm & Hrun & _).
  cbn [matches set_cap after] in Hin.
  destruct (after x2') as [|t' post] eqn:Hafter; [destruct Hin|].
  destruct (is_backtick t') eqn:Ht'; [|destruct Hin].
  apply EscapeFacts.is_backtick_eq in Ht'. subst t'.
  exists (c1 :: m), post. split; [now rewrite Hm|]. split; [discriminate|].
  assert (Hnot : forall t, negb (encode t =? backtick) = true ->
                           is_backtick t = false).
  { intros t Ht. unfold is_backtick. rewrite N.eqb_sym.
    now apply negb_true_iff. }
  constructor; [now apply Hnot|].
  eapply List.Forall_impl; [|exact Hrun]. exact Hnot.
Qed.

(** The pattern of the span matches where a span opens, and its group
    is what the span holds. *)
Lemma exec_opening_span (pre toks : list token) :
  match opening_span toks with
  | Some (g, rest) =>
      exists y,
        toks = (Chr backtick :: g ++ [Chr backtick]) ++ rest
        /\ exec spanRegex pre toks = Some y
        /\ found_of pre toks y
           = mkFound (Chr backtick :: g ++ [Chr backtick]) [(1%nat, g)]
  | None => exec spanRegex pre toks = None
  end.
Proof.
  destruct (opening_span toks) as [[g rest]|] eqn:Hopen.
  - unfold opening_span in Hopen.
    destruct toks as [|t toks]; [discriminate|].
    destruct (is_tick t) eqn:Ht; [|discriminate].
    rewrite is_tick_backtick in Ht. apply EscapeFacts.is_backtick_eq in Ht. subst t.
    destruct (until_tick toks) as [g' r'] eqn:Hu.
    destruct (until_tick_spec toks g' r' Hu) as (-> & Hg & Hr).
    destruct g' as [|c g']; [discriminate|].
    destruct r' as [|t' r']; [discriminate|]. subst t'.
    injection Hopen as <- <-.
    destruct (SpanFacts.exec_span_shape pre (c :: g') r') as (y & Hy & Hfound);
      [discriminate | exact Hg |].
    exists y. cbn [app] in *. rewrite <- app_assoc. cbn [app].
    repeat split; assumption.
  - destruct (exec spanRegex pre toks) as [y|] eqn:Hexec; [|reflexivity].
    exfalso. destruct (exec_span_inv pre toks y Hexec) as (g & post & -> & Hne & Hg).
    unfold opening_span in Hopen. cbn [is_tick] in Hopen.
    rewrite N.eqb_refl, (until_tick_run g post Hg) in Hopen.
    destruct g; [contradiction | discriminate].
Qed.

Lemma recolor_cons (t : token) (toks : list token) :
  opening_span (t :: toks) = None -> recolor (t :: toks) = t :: recolor toks.
Proof.
  intros Hopen. pose proof (exec_opening_span [] (t :: toks)) as Hexec.
  rewrite Hopen in Hexec. unfold recolor.
  now apply LineFacts.replace_all_head.
Qed.

Lemma recolor_opening_span (toks g rest : list token) :
  opening_span toks = Some (g, rest) ->
  recolor toks = marker_open ++ g ++ marker_close ++ recolor rest
  /\ (length rest < length toks)%nat.
Proof.
  intros Hopen. pose proof (exec_opening_span [] toks) as Hexec.
  rewrite Hopen in Hexec. destruct Hexec as (y & -> & Hy & Hfound).
  split.
  - pose proof (replace_all_step spanRegex highlightSpan []
                  (Chr backtick :: g ++ [Chr backtick]) rest y) as Hstep.
    cbn [app] in Hstep. unfold recolor. cbn [app]. rewrite Hstep.
    + cbn [app] in Hfound. rewrite Hfound.
      unfold highlightSpan, group. cbn [groups cap_of Nat.eqb].
      unfold marker_open, marker_close. now rewrite <- !app_assoc.
    + reflexivity.
    + intros [|? ?] ? ? ?; discriminate.
    + exact Hy.
    + cbn [app] in Hfound. now rewrite Hfound.
    + discriminate.
  - rewrite length_app. cbn [length]. lia.
Qed.

(** What the pattern recolours are the spans of the tokens. *)
Lemma recolor_highlight_within (n : nat) :
  forall toks, (length toks <= n)%nat -> recolor toks = highlight_within n toks.
Proof.
  induction n as [|n IH]; intros toks Hlen.
  - destruct toks; [reflexivity | cbn [length] in Hlen; lia].
  - destruct toks as [|t toks]; [reflexivity|]. cbn [highlight_within].
    destruct (opening_span (t :: toks)) as [[g rest]|] eqn:Hopen.
    + destruct (recolor_opening_span _ _ _ Hopen) as [-> Hshorter].
      do 3 f_equal. apply IH. cbn [length] in *. lia.
    + rewrite (recolor_cons _ _ Hopen). f_equal. apply IH.
      cbn [length] in Hlen. lia.
Qed.

Lemma recolor_highlightSpans (toks : list token) :
  recolor toks = highlightSpans toks.
Proof. now apply recolor_highlight_within. Qed.

(** C6, as the code has it. On a text without the NUL character, the
    escaping step is this: the text is read from left to right into
    fenced blocks (three backticks, the text up to the next three
    backticks, and those) and the characters between them; outside the
    blocks a backslash goes before each angle bracket, and each span (a
    backtick, one character or block or more up to the next backtick,
    that backtick) becomes what it holds between the two halves of the
    one highlight marker; the blocks are kept as they are, in their
    places, whatever they hold. *)
Theorem replaceBackticksExceptCodeBlocks_fenced (text : JS.jsstring) :
  ~ In NUL text ->
  replaceBackticksExceptCodeBlocks text
  = render (highlightSpans (escapeAngles (parts text)))
  /\ render (parts text) = text
  /\ blocks_of (highlightSpans (escapeAngles (parts text))) = blocks_of (parts text).
Proof.
  intros Hnul. rewrite <- tokens_parts, <- recolor_highlightSpans.
  split; [|split].
  - now apply EscapeFacts.replaceBackticksExceptCodeBlocks_escaped.
  - apply EscapeFacts.render_tokens.
  - now rewrite EscapeFacts.recolor_blocks, EscapeFacts.escapeAngles_blocks.
Qed.

End FencedFacts.

(** The statement applies to the text [a <b> `x` ```c `d` <e>``` `y`]. *)
Lemma replaceBackticksExceptCodeBlocks_fenced_witness :
  let text := JS.lit "a <b> `x` ```c `d` <e>``` `y`" in
  FormatDiagnostic.replaceBackticksExceptCodeBlocks text
  = Tokens.render (Fenced.highlightSpans (Tokens.escapeAngles (Fenced.parts text)))
  /\ Tokens.render (Fenced.parts text) = text
  /\ Tokens.blocks_of
       (Fenced.highlightSpans (Tokens.escapeAngles (Fenced.parts text)))
     = Tokens.blocks_of (Fenced.parts text).
Proof.
  apply (FencedFacts.replaceBackticksExceptCodeBlocks_fenced
           (JS.lit "a <b> `x` ```c `d` <e>``` `y`")).
  vm_compute. intuition discriminate.
Defined.

(** The parts of a text with two fenced blocks, and what the step
    makes of it: the blocks stay, what stands between them is escaped
    and highlighted. *)
Example parts_example :
  Fenced.parts (JS.lit "```a``` <b> `c` ```d```")
  = Tokens.Block (JS.lit "```a```")
    :: map Tokens.Chr (JS.lit " <b> `c` ") ++ [Tokens.Block (JS.lit "```d```")].
Proof. vm_compute. reflexivity. Qed.

Example escaping_between_blocks :
  FormatDiagnostic.replaceBackticksExceptCodeBlocks (JS.lit "```a``` <b> `c` ```d```")
  = JS.lit "```a``` \<b\> " ++ 27 :: JS.lit "[1;34mc" ++ 27 :: JS.lit "[0m ```d```".
Proof. vm_compute. reflexivity. Qed.

(** What it computes on the text of the statement above. *)
Example escaping_example :
  FormatDiagnostic.replaceBackticksExceptCodeBlocks
    (JS.lit "a <b> `x` ```c `d` <e>``` `y`")
  = JS.lit "a \<b\> " ++ 27 :: JS.lit "[1;34mx" ++ 27 :: JS.lit "[0m ```c `d` <e>``` "
    ++ 27 :: JS.lit "[1;34my" ++ 27 :: JS.lit "[0m".
Proof. vm_compute. reflexivity. Qed.

(** C6 as stated fails on a text that holds the NUL character.  The text
    below has no angle bracket and no backtick outside its fenced block, so
    that the step should return it as it is; instead the block is put where
    the NUL character stood and is missing where it was. *)
Lemma placeholder_in_text_misplaces_block :
  Tokens.nul_before_block = 0 :: JS.lit " ```a```"
  /\ FormatDiagnostic.replaceBackticksExceptCodeBlocks Tokens.nul_before_block
     = JS.lit "```a``` "
  /\ Fenced.escaped Tokens.nul_before_block = Tokens.nul_before_block
  /\ FormatDiagnostic.replaceBackticksExceptCodeBlocks Tokens.nul_before_block
     <> Fenced.escaped Tokens.nul_before_block.
Proof.
  split; [reflexivity|].
  split; [vm_compute; reflexivity|].
  split; [vm_compute; reflexivity|].
  vm_compute. discriminate.
Qed.
